(** * Castro's embedded Lua engine: state pools, compiled registries and
      the player bridge

    A shallow embedding of [app/lua/state.go] (the compiled-unit registry
    [compiledStateList] and the interpreter pool [stateList]) and of the
    player bindings ([PlayerConstructor], the storage, bank and custom
    field methods), with the properties the design document states about
    them.

    Go maps are stdpp [gmap]s, slices are lists, [*glua.LState] pointers
    are indices into a heap of interpreter states, and everything the
    package reaches outside itself (the file system, the gopher-lua
    interpreter, the SQL layer) is a field of a class that the functions
    take as an implicit argument. *)

From Stdlib Require Import Ascii String.
From stdpp Require Import gmap strings list fin_maps pretty.

Open Scope string_scope.

(** ** Go's [strings] and [path/filepath] helpers *)

Module GoStrings.

Definition is_upper (c : ascii) : bool :=
  let n := nat_of_ascii c in (65 <=? n)%nat && (n <=? 90)%nat.

Definition lower (c : ascii) : ascii :=
  if is_upper c then ascii_of_nat (nat_of_ascii c + 32) else c.

(** [strings.ToLower] on a path of ASCII bytes: the letters A to Z are
    mapped to a to z and every other byte is kept.  (On a letter outside
    ASCII, [strings.ToLower] applies [unicode.ToLower]; such bytes are
    kept here, so the model covers paths whose capitals are A to Z.) *)
Fixpoint ToLower (s : string) : string :=
  match s with
  | EmptyString => EmptyString
  | String c r => String (lower c) (ToLower r)
  end.

(** Two bytes that are the same letter, in either case. *)
Definition same_letter (c d : ascii) : bool :=
  if decide (c = d) then true
  else (is_upper c && bool_decide (d = lower c))
       || (is_upper d && bool_decide (c = lower d)).

(** Two paths that differ only in letter case: same length, and the same
    letter at every position. *)
Fixpoint differ_only_in_case (a b : string) : bool :=
  match a, b with
  | EmptyString, EmptyString => true
  | String c r, String d t => same_letter c d && differ_only_in_case r t
  | _, _ => false
  end.

(** [strings.HasSuffix]. *)
Definition HasSuffix (s suffix : string) : bool :=
  let n := String.length s in
  let k := String.length suffix in
  (k <=? n)%nat && String.eqb (substring (n - k) k s) suffix.

(** [strings.TrimSuffix]. *)
Definition TrimSuffix (s suffix : string) : string :=
  if HasSuffix s suffix
  then substring 0 (String.length s - String.length suffix) s
  else s.

(** [strings.Replace s old new (-1)] for a non-empty [old]: every
    non-overlapping occurrence, scanning from the left.  [skip] counts
    the bytes of a match that are still to be dropped. *)
Fixpoint replace_from (skip : nat) (s old new : string) : string :=
  match s with
  | EmptyString => EmptyString
  | String c r =>
      match skip with
      | S k => replace_from k r old new
      | O =>
          if String.prefix old s
          then new +:+ replace_from (String.length old - 1) r old new
          else String c (replace_from 0 r old new)
      end
  end.

Definition Replace (s old new : string) : string :=
  match old with
  | EmptyString => s
  | _ => replace_from 0 s old new
  end.

(** The elements of a path: what stands between its slashes, as
    [strings.Split(s, "/")] gives it. *)
Fixpoint path_elements (s : string) : list string :=
  match s with
  | EmptyString => [EmptyString]
  | String c r =>
      if Ascii.eqb c "/" then EmptyString :: path_elements r
      else match path_elements r with
           | e :: rest => String c e :: rest
           | [] => [String c EmptyString]
           end
  end.

(** One step of [filepath.Clean], which reads the path element by
    element; [out] holds the elements written so far, the last one
    first.  An empty element and [.] are
    skipped; [..] takes back the last element written, unless there is
    none or it is a [..] itself, and is then written if the path is not
    rooted and dropped if it is; any other element is written. *)
Definition clean_element (rooted : bool) (out : list string) (e : string) : list string :=
  if String.eqb e "" || String.eqb e "." then out
  else if String.eqb e ".." then
    match out with
    | last :: rest => if String.eqb last ".." then e :: out else rest
    | [] => if rooted then out else [e]
    end
  else e :: out.

(** The buffer of [filepath.Clean] as a path: the slash of a rooted
    path, then the elements written, and [.] if nothing was written. *)
Definition render (rooted : bool) (out : list string) : string :=
  if rooted then "/" +:+ String.concat "/" (reverse out)
  else match out with
       | [] => "."
       | _ => String.concat "/" (reverse out)
       end.

(** [filepath.Clean] on a system whose separator is the slash: the
    shortest path that names the same place, by the elements of the
    path alone. *)
Definition Clean (path : string) : string :=
  match path with
  | EmptyString => "."
  | String c _ =>
      let rooted := Ascii.eqb c "/" in
      render rooted (foldl (clean_element rooted) [] (path_elements path))
  end.

(** A string without a slash. *)
Definition slash_free (s : string) : bool :=
  forallb (fun c => negb (Ascii.eqb c "/")) (list_ascii_of_string s).

(** A name that a directory listing can hold: not empty, not [.] or
    [..], and without a slash. *)
Definition is_file_name (name : string) : bool :=
  negb (String.eqb name "") && negb (String.eqb name ".") && negb (String.eqb name "..")
  && slash_free name.

(** What [Clean] can have written, last element first: file names,
    above any number of [..] that lead a path which is not rooted. *)
Fixpoint written (rooted : bool) (out : list string) : bool :=
  match out with
  | [] => true
  | e :: rest =>
      if is_file_name e then written rooted rest
      else String.eqb e ".." && negb rooted && forallb (String.eqb "..") rest
  end.

(** [filepath.Join]: the elements from the first one that is not empty
    on, joined by slashes and cleaned; the empty string if there is
    none. *)
Fixpoint Join (elem : list string) : string :=
  match elem with
  | [] => ""
  | e :: rest =>
      if String.eqb e "" then Join rest else Clean (String.concat "/" elem)
  end.

(** The file part of [filepath.Split]: what follows the last slash. *)
Fixpoint base_from (acc s : string) : string :=
  match s with
  | EmptyString => acc
  | String c r =>
      if Ascii.eqb c "/"%char then base_from EmptyString r
      else base_from (acc +:+ String c EmptyString) r
  end.

Definition Base (path : string) : string := base_from EmptyString path.

End GoStrings.

(** ** The data layer's entities

    [models.Player] is declared in package [models]; the record keeps
    the fields the bindings read. *)

Module Models.

Record Player := {
  ID : Z;
  Account_id : Z;
  Name : string;
  Level : Z;
  Vocation : Z;
  Sex : Z;
  Town_id : Z;
}.

Record PlayerColumn := { ColumnName : string }.

End Models.

(** ** gopher-lua values and interpreter states *)

Module Lua.

(** A Go [error], by its message. *)
Definition error := string.

Inductive result (A : Type) : Type :=
| Ok (a : A)
| Err (e : error).
Arguments Ok {A} a.
Arguments Err {A} e.

(** [glua.LValue].  A number carries the integer [L.ToInt] reads from it
    (numbers with a fraction, and the range of [float64], are outside
    the model); a user datum carries the [*models.Player] stored in its
    [Value], [None] for a nil pointer. *)
#[warnings="-register-all"]
Inductive LValue : Type :=
| LNil
| LBool (b : bool)
| LNumber (n : Z)
| LString (s : string)
| LFunction (name : string)
| LUserData (value : option Models.Player)
| LTable (fields : gmap string LValue).

Inductive LValueType := LTNil | LTBool | LTNumber | LTString | LTFunction | LTUserData | LTTable.

Definition Type_ (v : LValue) : LValueType :=
  match v with
  | LNil => LTNil
  | LBool _ => LTBool
  | LNumber _ => LTNumber
  | LString _ => LTString
  | LFunction _ => LTFunction
  | LUserData _ => LTUserData
  | LTable _ => LTTable
  end.

#[export] Instance LValueType_eq_dec : EqDecision LValueType.
Proof. solve_decision. Defined.

(** [*glua.LState]: the argument stack of the running Go function and
    the registry that holds the type metatables. *)
Record LState := {
  stack : list LValue;
  registry : gmap string LValue;
}.

(** [L.Get(n)]: the n-th argument, counted from 1; nil past the top. *)
Definition Get (L : LState) (n : nat) : LValue :=
  match n with
  | O => LNil
  | S k => default LNil (stack L !! k)
  end.

(** [L.GetTypeMetatable(name)]: the registry entry, nil when absent. *)
Definition GetTypeMetatable (L : LState) (name : string) : LValue :=
  default LNil (registry L !! name).

(** [L.GetField(obj, key)] on a plain table; nil for a missing key. *)
Definition GetField (obj : LValue) (key : string) : LValue :=
  match obj with
  | LTable t => default LNil (t !! key)
  | _ => LNil
  end.

(** [L.SetField(obj, key, value)] on a plain table (one without a
    [__newindex] metamethod): the table with the field written.  On
    anything that is not a table gopher-lua raises "attempt to index a
    non-table object", here [None]. *)
Definition SetField (obj : LValue) (key : string) (value : LValue) : option LValue :=
  match obj with
  | LTable t => Some (LTable (<[key := value]> t))
  | _ => None
  end.

End Lua.

(** ** What the package reaches outside itself *)

Module Env.
Import Lua GoStrings.

(** [os.FileInfo], as far as the walks read it. *)
Record FileInfo := { Name : string; IsDir : bool }.

(** A directory tree as [filepath.Walk] meets it.  [Dir] lists its
    entries in the order [ReadDir] returns them; [DirUnreadable] is a
    directory whose listing fails and [NoStat] a path whose [Lstat]
    fails (a missing root among them). *)
#[warnings="-register-all"]
Inductive node : Type :=
| File (name : string)
| Dir (name : string) (entries : list node)
| DirUnreadable (name : string) (err : error)
| NoStat (name : string) (err : error).

Definition node_name (n : node) : string :=
  match n with
  | File nm | Dir nm _ | DirUnreadable nm _ | NoStat nm _ => nm
  end.

(** Every entry below [n] has a name that a directory listing can hold. *)
Fixpoint file_names (n : node) : bool :=
  match n with
  | Dir _ entries => forallb (fun c => is_file_name (node_name c) && file_names c) entries
  | _ => true
  end.

(** The [info] and [err] arguments of a [filepath.WalkFunc]: [err] is nil
    and [info] set, or [err] is set. *)
Inductive walk_arg : Type :=
| Entry (info : FileInfo)
| EntryErr (info : option FileInfo) (err : error).

Record visit := { vpath : string; varg : walk_arg }.

(** A compiled chunk, [*glua.FunctionProto]. *)
Record FunctionProto := { SourceName : string; Chunk : nat }.

(** The result of [os.Stat]. *)
Inductive stat_result : Type :=
| StatOk
| StatNotExist (err : error)
| StatFailed (err : error).

Class Host := {
  (** the tree [os.Lstat] and [ReadDir] find at a path *)
  Tree : string -> node;
  Stat : string -> stat_result;
  (** [CompileLua], [util.GetLuaFiles], [GetApplicationState] and the
      two metatable constants, declared in other files of the
      application *)
  CompileLua : string -> result FunctionProto;
  GetLuaFiles : string -> result (list string);
  GetApplicationState : LState -> LState;
  DatabaseMetaTableName : string;
  DatabaseTransactionStatusFieldName : string;
  (** gopher-lua: a fresh state, and running a file in a state *)
  NewState : LState;
  DoFile : string -> LState -> LState * option error;
  (** [database.DB.Queryx]: the rows, each with the result of scanning
      its [extension_id] *)
  Queryx : string -> result (list (result string));
}.

(** What the calls change outside the lists: the interpreter states
    behind the [*glua.LState] pointers, [util.Widgets.List] and the log. *)
Record World := {
  heap : list LState;
  widgets : list string;
  log : list string;
}.

Definition alloc (w : World) (L : LState) : nat * World :=
  (length (heap w), {| heap := (heap w ++ [L])%list; widgets := widgets w; log := log w |}).

Definition store (w : World) (p : nat) (L : LState) : World :=
  {| heap := <[p := L]> (heap w); widgets := widgets w; log := log w |}.

Definition Errorf (w : World) (line : string) : World :=
  {| heap := heap w; widgets := widgets w; log := (log w ++ [line])%list |}.

(** Modelled from the spec: [util.Widgets.UnloadExtensionWidget], which
    lives in package [util], is missing here; by the design document the
    offending widget is removed from the externally visible active
    widget list. *)
Definition UnloadExtensionWidget (w : World) (name : string) : World :=
  {| heap := heap w;
     widgets := filter (fun n => n <> name) (widgets w);
     log := log w |}.

(** A call that may end in a Go panic. *)
Inductive run (A : Type) : Type :=
| Returns (a : A)
| Panics (why : string).
Arguments Returns {A} a.
Arguments Panics {A} why.

(** A loop whose body returns on its first error. *)
Fixpoint run_steps {A S : Type} (step : A -> S -> S * option error)
    (l : list A) (st : S) : S * option error :=
  match l with
  | [] => (st, None)
  | a :: rest =>
      match step a st with
      | (st1, Some e) => (st1, Some e)
      | (st1, None) => run_steps step rest st1
      end
  end.

Section Walk.
Context {S : Type}.

Definition WalkFunc := string -> walk_arg -> S -> S * option error.

(** [filepath.walk]: the callback on the entry itself, then on the
    entries of a directory in order; the first error ends the walk.
    (No callback here returns [filepath.SkipDir].) *)
Fixpoint walk (fn : WalkFunc) (path : string) (n : node) (st : S) : S * option error :=
  match n with
  | File nm => fn path (Entry {| Name := nm; IsDir := false |}) st
  | Dir nm entries =>
      match fn path (Entry {| Name := nm; IsDir := true |}) st with
      | (st1, Some e) => (st1, Some e)
      | (st1, None) =>
          (fix each (es : list node) (st : S) : S * option error :=
             match es with
             | [] => (st, None)
             | c :: rest =>
                 match walk fn (Join [path; node_name c]) c st with
                 | (st2, Some e) => (st2, Some e)
                 | (st2, None) => each rest st2
                 end
             end) entries st1
      end
  | DirUnreadable nm e => fn path (EntryErr (Some {| Name := nm; IsDir := true |}) e) st
  | NoStat _ e => fn path (EntryErr None e) st
  end.

(** The calls a walk makes when no callback fails, in order. *)
Fixpoint walk_order (path : string) (n : node) : list visit :=
  match n with
  | File nm => [ {| vpath := path; varg := Entry {| Name := nm; IsDir := false |} |} ]
  | Dir nm entries =>
      {| vpath := path; varg := Entry {| Name := nm; IsDir := true |} |}
      :: (fix each (es : list node) : list visit :=
            match es with
            | [] => []
            | c :: rest => (walk_order (Join [path; node_name c]) c ++ each rest)%list
            end) entries
  | DirUnreadable nm e =>
      [ {| vpath := path; varg := EntryErr (Some {| Name := nm; IsDir := true |}) e |} ]
  | NoStat _ e => [ {| vpath := path; varg := EntryErr None e |} ]
  end.

(** A callback over a list of visits, up to its first error. *)
Definition run_visits (fn : WalkFunc) (vs : list visit) (st : S) : S * option error :=
  run_steps (fun v => fn (vpath v) (varg v)) vs st.

End Walk.

(** [filepath.Walk]. *)
Definition Walk `{Host} {S : Type} (root : string) (fn : WalkFunc) (st : S) : S * option error :=
  walk fn root (Tree root) st.

End Env.

(** ** [compiledStateList]: the registry of compiled units *)

Module compiledStateList.
Import Lua GoStrings Env.

Record t := {
  List : gmap string FunctionProto;
  Type_ : string;
}.

(** The entries of [s.List] in the order in which a [range] statement
    visits its keys.  Go leaves that order open; [order] is the one the
    runtime picks for one execution of the statement. *)
Definition range (s : t) (order : list string) : list (string * FunctionProto) :=
  omap (fun p => (fun proto => (p, proto)) <$> List s !! p) order.

(** [order] visits every key of [s.List] once. *)
Definition visits_all (s : t) (order : list string) : Prop :=
  NoDup order /\ forall p, p ∈ order <-> is_Some (List s !! p).

Fixpoint first_match (path : string) (entries : list (string * FunctionProto))
  : option FunctionProto :=
  match entries with
  | [] => None
  | (p, proto) :: rest =>
      if String.eqb (ToLower p) path then Some proto else first_match path rest
  end.

(** [Exists]. *)
Definition Exists_ (s : t) (order : list string) (path : string) : bool :=
  let path := ToLower path in
  match first_match path (range s order) with
  | Some _ => true
  | None => false
  end.

(** [Get]. *)
Definition Get (s : t) (order : list string) (path : string) : result FunctionProto :=
  let path := ToLower path in
  match first_match path (range s order) with
  | Some proto => Ok proto
  | None => Err "Compiled lua proto not found"
  end.

Section WithHost.
Context `{Host}.

(** The callback of [CompileFiles]; [files] is the map it fills. *)
Definition compile_file : @WalkFunc (gmap string FunctionProto) :=
  fun path a files =>
    match a with
    | EntryErr _ err => (files, Some err)
    | Entry info =>
        if IsDir info then (files, None)
        else if HasSuffix (Name info) ".lua" then
          match CompileLua path with
          | Err err => (files, Some err)
          | Ok proto => (<[path := proto]> files, None)
          end
        else (files, None)
    end.

(** [CompileFiles]. *)
Definition CompileFiles (s : t) (dir : string) : t * option error :=
  match Walk dir compile_file ∅ with
  | (_, Some err) => (s, Some err)
  | (files, None) => ({| List := files; Type_ := Type_ s |}, None)
  end.

(** The callback of [CompileExtensions]; it writes into [s.List]. *)
Definition compile_extension_file (dir extType : string)
  : @WalkFunc (gmap string FunctionProto) :=
  fun path a units =>
    match a with
    | EntryErr _ err => (units, Some err)
    | Entry info =>
        if IsDir info then (units, None)
        else if HasSuffix (Name info) ".lua" then
          match CompileLua path with
          | Err err => (units, Some err)
          | Ok proto =>
              let path := ToLower (Replace path dir extType) in
              (<[path := proto]> units, None)
          end
        else (units, None)
    end.

Definition extension_dir (extensionID extType : string) : string :=
  Join ["extensions"; extensionID; extType].

(** The loop over the rows of [CompileExtensions]. *)
Fixpoint compile_rows (extType : string) (rows : list (result string))
    (units : gmap string FunctionProto) : gmap string FunctionProto * option error :=
  match rows with
  | [] => (units, None)
  | Err err :: _ => (units, Some err)
  | Ok extensionID :: rest =>
      let dir := extension_dir extensionID extType in
      match Walk dir (compile_extension_file dir extType) units with
      | (units1, Some err) => (units1, Some err)
      | (units1, None) => compile_rows extType rest units1
      end
  end.

Definition extension_query (extType : string) : string :=
  Replace "SELECT extension_id FROM castro_extension_? WHERE enabled = 1" "?" extType.

(** [CompileExtensions]. *)
Definition CompileExtensions (s : t) (extType : string) : t * option error :=
  match Queryx (extension_query extType) with
  | Err err => (s, Some err)
  | Ok rows =>
      let '(units, err) := compile_rows extType rows (List s) in
      ({| List := units; Type_ := Type_ s |}, err)
  end.

(** *** The walks, call by call

    What the callbacks do at one visit: the error they return, and the
    entry they write. *)

Definition is_script (v : visit) : bool :=
  match varg v with
  | Entry info => negb (IsDir info) && HasSuffix (Name info) ".lua"
  | EntryErr _ _ => false
  end.

Definition visit_error (v : visit) : option error :=
  match varg v with
  | EntryErr _ err => Some err
  | Entry _ =>
      if is_script v then
        match CompileLua (vpath v) with
        | Err err => Some err
        | Ok _ => None
        end
      else None
  end.

(** The unit [CompileLua] gives for a path, if any. *)
Definition compiled (path : string) : option FunctionProto :=
  match CompileLua path with
  | Ok proto => Some proto
  | Err _ => None
  end.

(** One step of [CompileExtensions]: the scan of a row that fails, or a
    visit of the walk below the directory of an extension. *)
Inductive ext_step : Type :=
| ScanError (err : error)
| Visit (dir : string) (v : visit).

(** The entry [CompileFiles] writes at a visit: the path as walked and
    the unit. *)
Definition file_entry (v : visit) : option (string * FunctionProto) :=
  if is_script v then (fun proto => (vpath v, proto)) <$> compiled (vpath v) else None.

(** The body of the loop of [CompileExtensions], step by step. *)
Definition ext_step_fn (extType : string) (st : ext_step)
    (units : gmap string FunctionProto) : gmap string FunctionProto * option error :=
  match st with
  | ScanError err => (units, Some err)
  | Visit dir v => compile_extension_file dir extType (vpath v) (varg v) units
  end.

(** The visits of [filepath.Walk] below [dir], and the script files
    among them. *)
Definition tree_visits (dir : string) : list visit := walk_order dir (Tree dir).

Definition scripts (vs : list visit) : list string :=
  omap (fun v => if is_script v then Some (vpath v) else None) vs.

Definition row_steps (extType : string) (row : result string) : list ext_step :=
  match row with
  | Err err => [ScanError err]
  | Ok extensionID =>
      let dir := extension_dir extensionID extType in
      Visit dir <$> tree_visits dir
  end.

Definition ext_steps (extType : string) (rows : list (result string)) : list ext_step :=
  rows ≫= row_steps extType.

Definition step_error (st : ext_step) : option error :=
  match st with
  | ScanError err => Some err
  | Visit _ v => visit_error v
  end.

(** The registry entry a step merges: the virtual path and the unit. *)
Definition step_entry (extType : string) (st : ext_step) : option (string * FunctionProto) :=
  match st with
  | ScanError _ => None
  | Visit dir v =>
      if is_script v then
        (fun proto => (ToLower (Replace (vpath v) dir extType), proto)) <$> compiled (vpath v)
      else None
  end.

(** The write of one step, if it has an entry. *)
Definition write (entry : option (string * FunctionProto))
    (units : gmap string FunctionProto) : gmap string FunctionProto :=
  match entry with
  | Some e => <[e.1 := e.2]> units
  | None => units
  end.

(** Entries written into a registry one after the other. *)
Definition merge (entries : list (string * FunctionProto))
    (units : gmap string FunctionProto) : gmap string FunctionProto :=
  foldl (fun m e => <[e.1 := e.2]> m) units entries.

End WithHost.

End compiledStateList.

(** ** [stateList]: the pool of interpreter states *)

Module stateList.
Import Lua GoStrings Env.

Record t := {
  List : gmap string (list nat);
  Type_ : string;
}.

(** [s.List[path]]: the slice under a key, nil when the key is absent. *)
Definition bucket (pool : gmap string (list nat)) (path : string) : list nat :=
  default [] (pool !! path).

(** The open-transaction marker of the state behind [state]: the field
    [DatabaseTransactionStatusFieldName] of its database metatable. *)
Definition transaction_status `{Host} (w : World) (state : nat) : option LValue :=
  L ← heap w !! state;
  Some (GetField (GetTypeMetatable L DatabaseMetaTableName) DatabaseTransactionStatusFieldName).

(** The state behind [state] has its database metatable registered. *)
Definition has_database_metatable `{Host} (w : World) (state : nat) : Prop :=
  exists L fields, heap w !! state = Some L
    /\ registry L !! DatabaseMetaTableName = Some (LTable fields).

Section WithHost.
Context `{Host}.

(** The state a script is run in: fresh, with the castro metatables. *)
Definition fresh_state : LState := GetApplicationState NewState.

(** [Get]: a state from the pool, or a new one that has run the file. *)
Definition Get (s : t) (w : World) (path : string) : result nat * t * World :=
  let path := ToLower path in
  if decide (length (bucket (List s) path) = 0) then
    let '(L, err) := DoFile path fresh_state in
    let '(state, w1) := alloc w L in
    match err with
    | Some err => (Err err, s, w1)
    | None => (Ok state, s, w1)
    end
  else
    let b := bucket (List s) path in
    match last b with
    | Some x => (Ok x, {| List := <[path := take (length b - 1) b]> (List s); Type_ := Type_ s |}, w)
    | None => (Err "unreachable: empty bucket", s, w)
    end.

(** [Put]: clears the transaction marker and appends the state. *)
Definition Put (s : t) (w : World) (state : nat) (path : string) : run (t * World) :=
  let path := ToLower path in
  match heap w !! state with
  | None => Panics "nil state"
  | Some L =>
      match SetField (GetTypeMetatable L DatabaseMetaTableName)
                     DatabaseTransactionStatusFieldName (LBool false) with
      | None => Panics "attempt to index a non-table object"
      | Some mt =>
          let L1 := {| stack := stack L;
                       registry := <[DatabaseMetaTableName := mt]> (registry L) |} in
          Returns ({| List := <[path := (bucket (List s) path ++ [state])%list]> (List s);
                      Type_ := Type_ s |},
                   store w state L1)
      end
  end.

(** The identifier of the widget a script file belongs to. *)
Definition widget_name (subtopic : string) : string :=
  TrimSuffix (Base subtopic) ".lua".

(** The inner loop of [LoadExtensions]: the scripts of one extension. *)
Fixpoint load_scripts (extType extensionID dir : string) (subtopicList : list string)
    (pool : gmap string (list nat)) (w : World)
  : gmap string (list nat) * World * option error :=
  match subtopicList with
  | [] => (pool, w, None)
  | subtopic :: rest =>
      let '(L, err) := DoFile subtopic fresh_state in
      let '(state, w1) := alloc w L in
      match err with
      | Some err =>
          if String.eqb extType "widgets" then
            let w2 := Errorf w1 ("Cannot load widgets in extension: " +:+ extensionID +:+ " " +:+ err) in
            let w3 := UnloadExtensionWidget w2 (widget_name subtopic) in
            load_scripts extType extensionID dir rest pool w3
          else (pool, w1, Some ("extension: " +:+ extensionID +:+ " " +:+ err))
      | None =>
          let path := ToLower (Replace subtopic dir extType) in
          load_scripts extType extensionID dir rest
            (<[path := (bucket pool path ++ [state])%list]> pool) w1
      end
  end.

Definition extension_dir (extensionID extType : string) : string :=
  Join ["extensions"; extensionID; extType].

(** The loop over the rows of [LoadExtensions]. *)
Fixpoint load_rows (extType : string) (rows : list (result string))
    (pool : gmap string (list nat)) (w : World)
  : gmap string (list nat) * World * option error :=
  match rows with
  | [] => (pool, w, None)
  | Err err :: _ => (pool, w, Some err)
  | Ok extensionID :: rest =>
      let dir := extension_dir extensionID extType in
      match Stat dir with
      | StatNotExist _ =>
          load_rows extType rest pool
            (Errorf w ("Missing " +:+ extType +:+ " directory in extension " +:+ extensionID))
      | StatFailed _ => load_rows extType rest pool w
      | StatOk =>
          match GetLuaFiles dir with
          | Err err => (pool, w, Some err)
          | Ok subtopicList =>
              match load_scripts extType extensionID dir subtopicList pool w with
              | (pool1, w1, Some err) => (pool1, w1, Some err)
              | (pool1, w1, None) => load_rows extType rest pool1 w1
              end
          end
      end
  end.

Definition extension_query (extType : string) : string :=
  Replace "SELECT extension_id FROM castro_extension_? WHERE enabled = 1" "?" extType.

(** [LoadExtensions]. *)
Definition LoadExtensions (s : t) (w : World) : t * World * option error :=
  let extType := Type_ s +:+ "s" in
  match Queryx (extension_query extType) with
  | Err err => ({| List := ∅; Type_ := Type_ s |}, w, Some err)
  | Ok rows =>
      let '(pool, w1, err) := load_rows extType rows ∅ w in
      ({| List := pool; Type_ := Type_ s |}, w1, err)
  end.

(** The loop of [Load]: one fresh state per file, pooled under the
    lower-case path; the first file that fails ends it. *)
Fixpoint load_files (subtopicList : list string)
    (pool : gmap string (list nat)) (w : World)
  : gmap string (list nat) * World * option error :=
  match subtopicList with
  | [] => (pool, w, None)
  | subtopic :: rest =>
      let '(L, err) := DoFile subtopic fresh_state in
      let '(state, w1) := alloc w L in
      match err with
      | Some err => (pool, w1, Some err)
      | None =>
          let path := ToLower subtopic in
          load_files rest (<[path := (bucket pool path ++ [state])%list]> pool) w1
      end
  end.

(** [Load]. *)
Definition Load (s : t) (w : World) (dir : string) : t * World * option error :=
  match GetLuaFiles dir with
  | Err err => ({| List := ∅; Type_ := Type_ s |}, w, Some err)
  | Ok subtopicList =>
      let '(pool, w1, err) := load_files subtopicList ∅ w in
      ({| List := pool; Type_ := Type_ s |}, w1, err)
  end.

(** *** What the loops leave behind *)

(** [subtopic] is a script of the enabled extension [extensionID]:
    its row is among [rows], its directory is there and the script is in
    the listing of the directory. *)
Definition script_of (extType : string) (rows : list (result string))
    (extensionID subtopic : string) : Prop :=
  Ok extensionID ∈ rows /\
  Stat (extension_dir extensionID extType) = StatOk /\
  exists subtopicList,
    GetLuaFiles (extension_dir extensionID extType) = Ok subtopicList /\
    subtopic ∈ subtopicList.

(** What a loop of [LoadExtensions] never undoes: buckets and the heap
    only grow at their end, and the widget list only loses names. *)
Definition extends (pool : gmap string (list nat)) (w : World)
    (pool' : gmap string (list nat)) (w' : World) : Prop :=
  (forall q, bucket pool q `prefix_of` bucket pool' q) /\
  heap w `prefix_of` heap w' /\
  (forall n, n ∈ widgets w' -> n ∈ widgets w).

(** What has happened to a script once the loops are through with it. *)
Definition settled (extType dir subtopic : string)
    (pool : gmap string (list nat)) (w : World) : Prop :=
  match DoFile subtopic fresh_state with
  | (_, Some _) => widget_name subtopic ∉ widgets w
  | (L, None) =>
      exists x, x ∈ bucket pool (ToLower (Replace subtopic dir extType))
                /\ heap w !! x = Some L
  end.

(** The virtual path a script of an extension is pooled under. *)
Definition virtual_path (extType extensionID subtopic : string) : string :=
  ToLower (Replace subtopic (extension_dir extensionID extType) extType).

End WithHost.

(** *** Pools in which no instance sits twice *)

(** No state is pooled twice: not twice in one bucket, and not in two
    buckets. *)
Definition exclusive (pool : gmap string (list nat)) : Prop :=
  (forall q, NoDup (bucket pool q)) /\
  (forall p q x, x ∈ bucket pool p -> x ∈ bucket pool q -> p = q).

(** Every pooled pointer lies in [lo, hi). *)
Definition pool_within (pool : gmap string (list nat)) (lo hi : nat) : Prop :=
  forall q x, x ∈ bucket pool q -> lo <= x < hi.

(** The pointers [Load] pools under [q] for the files [subtopicList],
    the first of which gets the pointer [base]: one per file whose
    lower-case path is [q], in the order of the list. *)
Fixpoint pushed (base : nat) (subtopicList : list string) (q : string) : list nat :=
  match subtopicList with
  | [] => []
  | subtopic :: rest =>
      ((if decide (GoStrings.ToLower subtopic = q) then [base] else [])
       ++ pushed (S base) rest q)%list
  end.

(** What the loading loops keep: an exclusive pool of pointers created
    since the loop began. *)
Definition loaded_ok (lo : nat) (pool : gmap string (list nat)) (w : Env.World) : Prop :=
  exclusive pool /\ pool_within pool lo (length (Env.heap w)) /\ lo <= length (Env.heap w).

(** The pointers pooled under any path. *)
Definition pooled (pool : gmap string (list nat)) (x : nat) : Prop :=
  exists q, x ∈ bucket pool q.

End stateList.

(** ** The player bindings *)

Module PlayerBridge.
Import Lua GoStrings Models.

Record Storage := { Key : Z; Value : Z }.

(** The [interface{}] argument of [playerTableConstructor], by the
    [reflect.Kind] of what it holds. *)
Inductive iface : Type :=
| IInt64 (i : Z)
| IString (s : string)
| IOther.

(** What [StructToTable] is applied to. *)
Inductive gostruct : Type :=
| OfPlayer (p : option Player)
| OfStorage (s : Storage).

Inductive sqlarg : Type :=
| ArgString (s : string)
| ArgInt (i : Z).

(** The calls a binding makes into the data layer, in order; [EvOnNil]
    is a method of [*models.Player] called on a nil pointer. *)
Inductive event : Type :=
| EvGetPlayerByID (id : Z)
| EvGetPlayerByName (name : string)
| EvSetBalance (player : Player) (balance : Z)
| EvGetStorageValue (player : Player) (key : Z)
| EvSetStorageValue (player : Player) (key value : Z)
| EvSelect (query : string) (args : list sqlarg)
| EvExec (query : string) (args : list sqlarg)
| EvGet (query : string) (args : list sqlarg)
| EvOnNil (method : string) (args : list Z).

(** The calls into [models], [database.DB] and [Config], and
    [StructToTable] and [playerMethods], which are declared in other
    files of the application. *)
Class DataLayer := {
  GetPlayerByID : Z -> option Player * option error;
  GetPlayerByName : string -> option Player * option error;
  SetBalance : Player -> Z -> option error;
  GetStorageValue : Player -> Z -> result Storage;
  SetStorageValue : Player -> Z -> Z -> option error;
  (** [Config.GetGlobal("mysqlDatabase").String()] *)
  mysqlDatabase : string;
  (** [database.DB.Select], [Exec] and [Get] *)
  Select : string -> list sqlarg -> result (list PlayerColumn);
  Exec : string -> list sqlarg -> option error;
  DBGet : string -> list sqlarg -> result string;
  (** the reflective projection of a struct; it may panic *)
  StructToTable : gostruct -> Env.run (gmap string LValue);
  playerMethods : gmap string LValue;
  (** gopher-lua's [parseNumber], behind [L.ToInt] on a string *)
  parseNumber : string -> option Z;
  (** the three methods of [*models.Player] above when the receiver is
      a nil pointer: whether they read it, and so panic, lies in
      [models] *)
  SetBalanceOnNil : Z -> Env.run (option error);
  GetStorageValueOnNil : Z -> Env.run (result Storage);
  SetStorageValueOnNil : Z -> Z -> Env.run (option error);
  (** what [%p] prints for a table, a function or a user datum *)
  address : LValue -> string;
}.

(** How a binding ends: [return n] with [n] values pushed, a Lua error
    raised through [L.ArgError] or [L.RaiseError], or a Go panic. *)
Inductive outcome : Type :=
| Return (n : nat)
| ArgError (n : nat) (message : string)
| RaiseError (format : string) (args : list string)
| GoPanic (why : string).

Record call := {
  events : list event;
  final : LState;
  result : outcome;
}.

(** The values a call hands back to the script: the top [n] of the stack. *)
Definition returned (c : call) : list LValue :=
  match result c with
  | Return n => drop (length (stack (final c)) - n) (stack (final c))
  | _ => []
  end.

Definition Push (L : LState) (v : LValue) : LState :=
  {| stack := (stack L ++ [v])%list; registry := registry L |}.

(** Writes the table at argument 1, as the in-place update through
    [L.ToTable(1)] does. *)
Definition set_arg1 (L : LState) (v : LValue) : LState :=
  {| stack := <[0%nat := v]> (stack L); registry := registry L |}.

(** [L.ToString(n)]: strings and numbers as text, anything else empty. *)
Definition ToString (L : LState) (n : nat) : string :=
  match Get L n with
  | LString s => s
  | LNumber i => pretty i
  | _ => ""
  end.

(** [html.EscapeString]. *)
Definition escape_char (c : ascii) : string :=
  if Ascii.eqb c "&" then "&amp;"
  else if Ascii.eqb c "'" then "&#39;"
  else if Ascii.eqb c "<" then "&lt;"
  else if Ascii.eqb c ">" then "&gt;"
  else if Ascii.eqb c (ascii_of_nat 34) then "&#34;"
  else String c EmptyString.

Fixpoint EscapeString (s : string) : string :=
  match s with
  | EmptyString => EmptyString
  | String c r => escape_char c +:+ EscapeString r
  end.

Section WithDataLayer.
Context `{DataLayer}.

(** [LValue.String()]; a table, a function and a user datum print their
    kind and their address. *)
Definition String_ (v : LValue) : string :=
  match v with
  | LNil => "nil"
  | LBool true => "true"
  | LBool false => "false"
  | LNumber n => pretty n
  | LString s => s
  | LFunction _ => "function: " +:+ address v
  | LUserData _ => "userdata: " +:+ address v
  | LTable _ => "table: " +:+ address v
  end.

(** [L.ToInt(n)] and [L.ToInt64(n)]: a number as it is, a string that
    parses as a number, and 0 for anything else. *)
Definition ToInt (L : LState) (n : nat) : Z :=
  match Get L n with
  | LNumber i => i
  | LString s => default 0%Z (parseNumber s)
  | _ => 0%Z
  end.

Definition ToInt64 (L : LState) (n : nat) : Z := ToInt L n.

(** [playerTableConstructor], with the data-layer call it makes. *)
Definition playerTableConstructor (i : iface)
  : list event * (option Player * option error) :=
  match i with
  | IInt64 id => ([EvGetPlayerByID id], GetPlayerByID id)
  | IString name => ([EvGetPlayerByName name], GetPlayerByName name)
  | IOther => ([], (None, Some "Invalid player name or id"))
  end.

(** [MergeTableFields(src, dst)]: the fields of [src] written into [dst]. *)
Definition MergeTableFields (src dst : gmap string LValue) : gmap string LValue :=
  src ∪ dst.

(** [createPlayerMetaTable]. *)
Definition createPlayerMetaTable (player : option Player) : Env.run LValue :=
  let playerMetaTable := (∅ : gmap string LValue) in
  let u := LUserData player in
  let playerMetaTable := <["__player" := u]> playerMetaTable in
  let playerMetaTable := playerMethods ∪ playerMetaTable in
  match StructToTable (OfPlayer player) with
  | Env.Panics why => Env.Panics why
  | Env.Returns fields => Env.Returns (LTable (MergeTableFields fields playerMetaTable))
  end.

(** [updatePlayerMetaTable] on the table [t]. *)
Definition updatePlayerMetaTable (player : option Player) (t : gmap string LValue)
  : Env.run LValue :=
  let t := <["__player" := LUserData player]> t in
  match StructToTable (OfPlayer player) with
  | Env.Panics why => Env.Panics why
  | Env.Returns fields => Env.Returns (LTable (MergeTableFields fields t))
  end.

(** [PlayerConstructor]. *)
Definition PlayerConstructor (L : LState) : call :=
  let v := Get L 1 in
  let '(ev1, (player, err)) :=
    if decide (Type_ v = LTNumber)
    then playerTableConstructor (IInt64 (ToInt64 L 1))
    else ([], (None, None)) in
  let '(ev2, (player, err)) :=
    if decide (Type_ v = LTString)
    then playerTableConstructor (IString (ToString L 1))
    else ([], (player, err)) in
  let events := (ev1 ++ ev2)%list in
  match err with
  | Some _ => {| events := events; final := Push L LNil; result := Return 1 |}
  | None =>
      match createPlayerMetaTable player with
      | Env.Panics why => {| events := events; final := L; result := GoPanic why |}
      | Env.Returns t => {| events := events; final := Push L t; result := Return 1 |}
      end
  end.

(** What the lookup behind [PlayerConstructor] gives for the argument. *)
Definition bind_lookup (L : LState) : option Player * option error :=
  match Type_ (Get L 1) with
  | LTNumber => GetPlayerByID (ToInt64 L 1)
  | LTString => GetPlayerByName (ToString L 1)
  | _ => (None, None)
  end.

(** [getPlayerObject]: the player behind the handle at argument 1.  The
    type assertions panic on anything that is not a table holding a user
    datum under [__player]. *)
Definition getPlayerObject (L : LState) : Env.run (option Player) :=
  match Get L 1 with
  | LTable tbl =>
      match default LNil (tbl !! "__player") with
      | LUserData value => Env.Returns value
      | _ => Env.Panics "interface conversion: not *lua.LUserData"
      end
  | _ => Env.Panics "nil table"
  end.

(** A binding's first step, [player := getPlayerObject(L)]: the pointer
    behind the handle, which may be nil, or the panic of a bad handle. *)
Definition with_player (L : LState) (k : option Player -> call) : call :=
  match getPlayerObject L with
  | Env.Returns player => k player
  | Env.Panics why => {| events := []; final := L; result := GoPanic why |}
  end.

Definition nil_dereference : string :=
  "runtime error: invalid memory address or nil pointer dereference".

(** The first read of a field of the player: a nil pointer panics
    there, after the calls [events] made so far. *)
Definition deref (player : option Player) (events : list event) (L : LState)
    (k : Player -> call) : call :=
  match player with
  | Some player => k player
  | None => {| events := events; final := L; result := GoPanic nil_dereference |}
  end.

(** [player.SetBalance], [player.GetStorageValue] and
    [player.SetStorageValue], with the call they are in the data layer. *)
Definition call_SetBalance (player : option Player) (balance : Z)
  : list event * Env.run (option error) :=
  match player with
  | Some player => ([EvSetBalance player balance], Env.Returns (SetBalance player balance))
  | None => ([EvOnNil "SetBalance" [balance]], SetBalanceOnNil balance)
  end.

Definition call_GetStorageValue (player : option Player) (key : Z)
  : list event * Env.run (Lua.result Storage) :=
  match player with
  | Some player => ([EvGetStorageValue player key], Env.Returns (GetStorageValue player key))
  | None => ([EvOnNil "GetStorageValue" [key]], GetStorageValueOnNil key)
  end.

Definition call_SetStorageValue (player : option Player) (key value : Z)
  : list event * Env.run (option error) :=
  match player with
  | Some player =>
      ([EvSetStorageValue player key value], Env.Returns (SetStorageValue player key value))
  | None => ([EvOnNil "SetStorageValue" [key; value]], SetStorageValueOnNil key value)
  end.

(** [SetPlayerBankBalance]. *)
Definition SetPlayerBankBalance (L : LState) : call :=
  with_player L (fun player =>
    let newBalance := ToInt L 2 in
    let '(events, err) := call_SetBalance player newBalance in
    match err with
    | Env.Panics why => {| events := events; final := L; result := GoPanic why |}
    | Env.Returns (Some _) =>
        {| events := events; final := L;
           result := RaiseError "Cannot update player balance: %v" [] |}
    | Env.Returns None => {| events := events; final := L; result := Return 0 |}
    end).

(** [GetPlayerStorageValue]. *)
Definition GetPlayerStorageValue (L : LState) : call :=
  with_player L (fun player =>
    let key := Get L 2 in
    if decide (Type_ key <> LTNumber) then
      {| events := []; final := L;
         result := ArgError 1 "Invalid key type. Expected number" |}
    else
      let '(events, r) := call_GetStorageValue player (ToInt L 2) in
      match r with
      | Env.Panics why => {| events := events; final := L; result := GoPanic why |}
      | Env.Returns (Err err) =>
          {| events := events; final := L;
             result := RaiseError "Unable to get player storage value (%s) %v" [String_ key; err] |}
      | Env.Returns (Ok storage) =>
          match StructToTable (OfStorage storage) with
          | Env.Panics why => {| events := events; final := L; result := GoPanic why |}
          | Env.Returns t =>
              {| events := events; final := Push L (LTable t); result := Return 1 |}
          end
      end).

(** [SetPlayerStorageValue]. *)
Definition SetPlayerStorageValue (L : LState) : call :=
  with_player L (fun player =>
    let key := Get L 2 in
    if decide (Type_ key <> LTNumber) then
      {| events := []; final := L;
         result := ArgError 1 "Invalid key type. Expected number" |}
    else
      let val := Get L 3 in
      if decide (Type_ val <> LTNumber) then
        {| events := []; final := L;
           result := ArgError 1 "Invalid value type. Expected number" |}
      else
        let '(events, err) := call_SetStorageValue player (ToInt L 2) (ToInt L 3) in
        match err with
        | Env.Panics why => {| events := events; final := L; result := GoPanic why |}
        | Env.Returns (Some err) =>
            {| events := events; final := L;
               result := RaiseError "Unable to set player storage value: %v" [err] |}
        | Env.Returns None => {| events := events; final := L; result := Return 0 |}
        end).

Definition column_query : string :=
  "SELECT COLUMN_NAME AS name FROM INFORMATION_SCHEMA.COLUMNS WHERE TABLE_NAME = ? AND TABLE_SCHEMA = ?".

Definition column_args : list sqlarg := [ArgString "players"; ArgString mysqlDatabase].

Definition update_query (fieldName : string) : string :=
  "UPDATE players SET " +:+ EscapeString fieldName +:+ " = ? WHERE id = ?".

Definition select_query (fieldName : string) : string :=
  "SELECT " +:+ EscapeString fieldName +:+ " FROM players WHERE id = ?".

(** The loop over the column list of [SetPlayerCustomField]; [events]
    are the calls made so far.  The player is first read, for its id,
    when the column is found. *)
Fixpoint set_custom_field (L : LState) (player : option Player) (fieldName : string)
    (fieldValue : LValue) (events : list event) (nameList : list PlayerColumn) : call :=
  match nameList with
  | [] => {| events := events; final := L; result := Return 0 |}
  | column :: rest =>
      if String.eqb (ColumnName column) fieldName then
        deref player events L (fun player =>
        let args := [ArgString (String_ fieldValue); ArgInt (ID player)] in
        let events := (events ++ [EvExec (update_query fieldName) args])%list in
        match Exec (update_query fieldName) args with
        | Some err =>
            {| events := events; final := L;
               result := RaiseError "Cannot set custom field %s: %v" [fieldName; err] |}
        | None =>
            let events := (events ++ [EvGetPlayerByID (ID player)])%list in
            match GetPlayerByID (ID player) with
            | (_, Some err) =>
                {| events := events; final := L;
                   result := RaiseError "Cannot update player metatable: %v" [err] |}
            | (player, None) =>
                match Get L 1 with
                | LTable t =>
                    match updatePlayerMetaTable player t with
                    | Env.Panics why => {| events := events; final := L; result := GoPanic why |}
                    | Env.Returns t1 =>
                        {| events := events; final := set_arg1 L t1; result := Return 0 |}
                    end
                | _ => {| events := events; final := L; result := GoPanic "nil table" |}
                end
            end
        end)
      else set_custom_field L player fieldName fieldValue events rest
  end.

(** [SetPlayerCustomField]. *)
Definition SetPlayerCustomField (L : LState) : call :=
  with_player L (fun player =>
    let fieldName := ToString L 2 in
    let fieldValue := Get L 3 in
    let events := [EvSelect column_query column_args] in
    match Select column_query column_args with
    | Err err =>
        {| events := events; final := L;
           result := RaiseError "Cannot get list of column names from information_schema: %v" [err] |}
    | Ok nameList => set_custom_field L player fieldName fieldValue events nameList
    end).

(** The loop over the column list of [GetPlayerCustomField]. *)
Fixpoint get_custom_field (L : LState) (player : option Player) (fieldName : string)
    (events : list event) (nameList : list PlayerColumn) : call :=
  match nameList with
  | [] => {| events := events; final := Push L LNil; result := Return 1 |}
  | column :: rest =>
      if String.eqb (ColumnName column) fieldName then
        deref player events L (fun player =>
        let args := [ArgInt (ID player)] in
        let events := (events ++ [EvGet (select_query fieldName) args])%list in
        match DBGet (select_query fieldName) args with
        | Err err =>
            {| events := events; final := L;
               result := RaiseError "Cannot get custom field %s: %v" [fieldName; err] |}
        | Ok fieldValue =>
            {| events := events; final := Push L (LString fieldValue); result := Return 1 |}
        end)
      else get_custom_field L player fieldName events rest
  end.

(** [GetPlayerCustomField]. *)
Definition GetPlayerCustomField (L : LState) : call :=
  with_player L (fun player =>
    let fieldName := ToString L 2 in
    let events := [EvSelect column_query column_args] in
    match Select column_query column_args with
    | Err err =>
        {| events := events; final := L;
           result := RaiseError "Cannot get list of column names from information_schema: %v" [err] |}
    | Ok nameList => get_custom_field L player fieldName events nameList
    end).

(** [GetPlayerAccountID], [GetPlayerGender], [GetPlayerLevel] and
    [GetPlayerName]: a field of the player behind the handle. *)
Definition GetPlayerAccountID (L : LState) : call :=
  with_player L (fun player => deref player [] L (fun player =>
    {| events := []; final := Push L (LNumber (Account_id player)); result := Return 1 |})).

Definition GetPlayerGender (L : LState) : call :=
  with_player L (fun player => deref player [] L (fun player =>
    {| events := []; final := Push L (LNumber (Sex player)); result := Return 1 |})).

Definition GetPlayerLevel (L : LState) : call :=
  with_player L (fun player => deref player [] L (fun player =>
    {| events := []; final := Push L (LNumber (Level player)); result := Return 1 |})).

Definition GetPlayerName (L : LState) : call :=
  with_player L (fun player => deref player [] L (fun player =>
    {| events := []; final := Push L (LString (Name player)); result := Return 1 |})).

End WithDataLayer.

(** The server's vocations and the towns of the map, which
    [GetPlayerVocation] and [GetPlayerTown] search; the lists and the
    projection of their elements live in [util] and [otmap]. *)
Record VocationInfo := { VocationID : Z; VocationName : string }.
Record TownInfo := { TownID : Z; TownName : string }.

Class ServerLists := {
  (** [util.ServerVocationList.List.Vocations] *)
  ServerVocationList : list VocationInfo;
  (** [util.OTBMap.Map.Towns] *)
  Towns : list TownInfo;
  (** [StructToTable] of a vocation and of a town *)
  VocationToTable : VocationInfo -> Env.run (gmap string LValue);
  TownToTable : TownInfo -> Env.run (gmap string LValue);
}.

Section WithServerLists.
Context `{ServerLists}.

(** The loop of [GetPlayerVocation]; the player is read at each
    vocation of the list. *)
Fixpoint find_vocation (L : LState) (player : option Player) (vocations : list VocationInfo)
  : call :=
  match vocations with
  | [] => {| events := []; final := L; result := RaiseError "Cannot find player vocation" [] |}
  | voc :: rest =>
      match player with
      | None => {| events := []; final := L; result := GoPanic nil_dereference |}
      | Some p =>
          if Z.eqb (VocationID voc) (Vocation p) then
            match VocationToTable voc with
            | Env.Panics why => {| events := []; final := L; result := GoPanic why |}
            | Env.Returns t => {| events := []; final := Push L (LTable t); result := Return 1 |}
            end
          else find_vocation L player rest
      end
  end.

(** [GetPlayerVocation]. *)
Definition GetPlayerVocation (L : LState) : call :=
  with_player L (fun player => find_vocation L player ServerVocationList).

(** The loop of [GetPlayerTown]. *)
Fixpoint find_town (L : LState) (player : option Player) (towns : list TownInfo) : call :=
  match towns with
  | [] => {| events := []; final := L; result := RaiseError "Cannot find player town" [] |}
  | town :: rest =>
      match player with
      | None => {| events := []; final := L; result := GoPanic nil_dereference |}
      | Some p =>
          if Z.eqb (TownID town) (Town_id p) then
            match TownToTable town with
            | Env.Panics why => {| events := []; final := L; result := GoPanic why |}
            | Env.Returns t => {| events := []; final := Push L (LTable t); result := Return 1 |}
            end
          else find_town L player rest
      end
  end.

(** [GetPlayerTown]. *)
Definition GetPlayerTown (L : LState) : call :=
  with_player L (fun player => find_town L player Towns).

End WithServerLists.

(** A state whose first argument is [handle]. *)
Definition on_handle (handle : LValue) (args : list LValue) (reg : gmap string LValue)
  : LState :=
  {| stack := handle :: args; registry := reg |}.

Section AllBindings.
Context `{DataLayer} `{ServerLists}.

(** The bindings that are modelled, by name. *)
Definition bindings : list (string * (LState -> call)) :=
  [("GetPlayerAccountID", GetPlayerAccountID); ("GetPlayerGender", GetPlayerGender);
   ("GetPlayerLevel", GetPlayerLevel); ("GetPlayerName", GetPlayerName);
   ("SetPlayerBankBalance", SetPlayerBankBalance);
   ("GetPlayerStorageValue", GetPlayerStorageValue);
   ("SetPlayerStorageValue", SetPlayerStorageValue);
   ("SetPlayerCustomField", SetPlayerCustomField);
   ("GetPlayerCustomField", GetPlayerCustomField);
   ("GetPlayerVocation", GetPlayerVocation); ("GetPlayerTown", GetPlayerTown)].

End AllBindings.

(** A query that changes data. *)
Definition is_mutation (e : event) : bool :=
  match e with
  | EvExec _ _ | EvSetBalance _ _ | EvSetStorageValue _ _ _ => true
  | _ => false
  end.

(** A query that reads a column of the players table. *)
Definition is_column_read (e : event) : bool :=
  match e with
  | EvGet _ _ => true
  | _ => false
  end.

(** The backing reference of a handle: what its [__player] field holds. *)
Definition backing (handle : LValue) : LValue := GetField handle "__player".

End PlayerBridge.

(** ** The template function [queryResults] *)

Module Templates.

(** [strconv.Itoa] of a number that is not negative. *)
Definition Itoa (n : nat) : string := pretty n.

(** The loop of [queryResults]: [count] more rounds, the next of which
    has the loop variable [i]. *)
Fixpoint query_loop {V : Type} (m : gmap string V) (i count : nat) : list (option V) :=
  match count with
  | O => []
  | S rest => m !! Itoa (i + 1) :: query_loop m (S i) rest
  end.

(** [queryResults]: the values under "1", "2", ... up to the size of the
    map, nil ([None]) where the map has no such key. *)
Definition queryResults {V : Type} (m : gmap string V) : list (option V) :=
  query_loop m 0 (size m).

(** The map a result set of the script side is: row [i], counted from
    0, under the key [Itoa (i + 1)]. *)
Definition numbered {V : Type} (rows : list V) : gmap string V :=
  list_to_map (imap (fun i v => (Itoa (i + 1), v)) rows).

(** The byte [\n] and the string that holds it. *)
Definition newline : ascii := ascii_of_nat 10.
Definition line_feed : string := String newline EmptyString.

(** [nl2br]: [strings.Replace(text, line_feed, <br>, -1)], returned as
    [template.HTML], which the template engine does not escape. *)
Definition nl2br (text : string) : string := GoStrings.Replace text line_feed "<br>".

End Templates.

(** ** A small installation to run the definitions on

    A primary tree [pages/], the enabled extensions 7 and 42, of which
    only 7 has directories, a widget script and a page script that do
    not load, and a page script that does not compile. *)

Module Demo.
Import Lua GoStrings Env.

Definition no_such_file (op path : string) : error :=
  op +:+ " " +:+ path +:+ ": no such file or directory".

Definition tree (path : string) : node :=
  if String.eqb path "pages" then
    Dir "pages" [File "Index.lua"; Dir "shop" [File "readme.txt"; File "view.lua"]]
  else if String.eqb path "extensions/7/pages" then
    Dir "pages" [File "Guide.lua"; File "broken.lua"; File "last.lua"]
  else NoStat (Base path) (no_such_file "lstat" path).

Definition stat (path : string) : stat_result :=
  if String.eqb path "extensions/7/widgets" || String.eqb path "extensions/7/pages"
  then StatOk
  else StatNotExist (no_such_file "stat" path).

Definition compile (path : string) : result FunctionProto :=
  if HasSuffix path "broken.lua" then Err "unexpected symbol near <eof>"
  else Ok {| SourceName := path; Chunk := String.length path |}.

Definition lua_files (dir : string) : result (list string) :=
  if String.eqb dir "extensions/7/widgets" then
    Ok ["extensions/7/widgets/top/top.lua";
        "extensions/7/widgets/poll/poll.lua";
        "extensions/7/widgets/news/News.lua"]
  else if String.eqb dir "extensions/7/pages" then
    Ok ["extensions/7/pages/Guide.lua"; "extensions/7/pages/broken.lua"]
  else Ok [].

Definition application_state (L : LState) : LState :=
  {| stack := stack L;
     registry := <["database" := LTable {["__transaction" := LBool false]}]> (registry L) |}.

Definition do_file (path : string) (L : LState) : LState * option error :=
  if HasSuffix path "poll.lua" || HasSuffix path "broken.lua"
  then (L, Some "attempt to call a nil value")
  else (L, None).

(** The rows of the enabled extensions; [page_rows] are those of the
    page kind. *)
Definition queryx (page_rows : list (result string)) (query : string)
  : result (list (result string)) :=
  if String.eqb query "SELECT extension_id FROM castro_extension_widgets WHERE enabled = 1"
  then Ok [Ok "42"; Ok "7"]
  else if String.eqb query "SELECT extension_id FROM castro_extension_pages WHERE enabled = 1"
  then Ok page_rows
  else Err "Error 1146: no such table".

Definition host (page_rows : list (result string)) : Host := {|
  Tree := tree;
  Stat := stat;
  CompileLua := compile;
  GetLuaFiles := lua_files;
  GetApplicationState := application_state;
  DatabaseMetaTableName := "database";
  DatabaseTransactionStatusFieldName := "__transaction";
  NewState := {| stack := []; registry := ∅ |};
  DoFile := do_file;
  Queryx := queryx page_rows;
|}.

Definition WidgetList : stateList.t := {| stateList.List := ∅; stateList.Type_ := "widget" |}.
Definition PageList : stateList.t := {| stateList.List := ∅; stateList.Type_ := "page" |}.
Definition CompiledPageList : compiledStateList.t :=
  {| compiledStateList.List := ∅; compiledStateList.Type_ := "page" |}.

(** A registry that holds one unit of the primary tree. *)
Definition registry_with_index : compiledStateList.t :=
  {| compiledStateList.List :=
       {["pages/Index.lua" := {| SourceName := "pages/Index.lua"; Chunk := 15 |}]};
     compiledStateList.Type_ := "page" |}.

(** A world with the widgets of the extension on the active list, and
    one with an interpreter state whose transaction is still open. *)
Definition world : World :=
  {| heap := []; widgets := ["top"; "poll"; "news"; "online"]; log := [] |}.

Definition open_transaction : LState :=
  {| stack := [];
     registry := {["database" := LTable {["__transaction" := LBool true]}]} |}.

Definition world_with_open_transaction : World :=
  {| heap := [open_transaction]; widgets := []; log := [] |}.

(** The data layer: one player, Kael, a players table with a handful
    of columns, and a switch for a database that cannot be reached. *)
Import Models PlayerBridge.

Definition kael : Player :=
  {| ID := 1; Account_id := 10; Name := "Kael"; Level := 80;
     Vocation := 4; Sex := 1; Town_id := 2 |}.

Definition lookup (up : bool) (found : bool) : option Player * option error :=
  if negb up then (None, Some "dial tcp 127.0.0.1:3306: connect: connection refused")
  else if found then (Some kael, None)
  else (None, Some "sql: no rows in result set").

Definition project (x : gostruct) : Env.run (gmap string LValue) :=
  match x with
  | OfPlayer (Some p) =>
      Env.Returns {["ID" := LNumber (ID p); "Name" := LString (Name p);
                    "Level" := LNumber (Level p)]}
  | OfPlayer None => Env.Returns ∅
  | OfStorage st => Env.Returns {["Key" := LNumber (Key st); "Value" := LNumber (Value st)]}
  end.

Definition data (up : bool) : DataLayer := {|
  GetPlayerByID := fun id => lookup up (Z.eqb id 1);
  GetPlayerByName := fun name => lookup up (String.eqb name "Kael");
  SetBalance := fun _ _ => None;
  GetStorageValue := fun _ key => Ok {| Key := key; Value := 7 |};
  SetStorageValue := fun _ _ _ => None;
  mysqlDatabase := "forgotten";
  Select := fun _ _ =>
    Ok [ {| ColumnName := "id" |}; {| ColumnName := "name" |};
         {| ColumnName := "level" |}; {| ColumnName := "balance" |} ];
  Exec := fun _ _ => None;
  DBGet := fun _ _ => Ok "80";
  StructToTable := project;
  playerMethods := {["getBankBalance" := LFunction "GetPlayerBankBalance";
                     "setBankBalance" := LFunction "SetPlayerBankBalance"]};
  parseNumber := fun _ => None;
  SetBalanceOnNil := fun _ => Env.Panics nil_dereference;
  GetStorageValueOnNil := fun _ => Env.Panics nil_dereference;
  SetStorageValueOnNil := fun _ _ => Env.Panics nil_dereference;
  address := fun _ => "0xc000010000";
|}.

(** A state whose stack holds the arguments of a call. *)
Definition call_with (args : list LValue) : LState := {| stack := args; registry := ∅ |}.

(** The handle of Kael, as [PlayerConstructor] builds it. *)
Definition kael_handle : LValue :=
  LTable {["__player" := LUserData (Some kael); "Name" := LString "Kael"]}.

End Demo.

(** ** A second installation

    Primary widgets that all load, two of them under paths that differ
    in case only; the page extensions 8 and 9, which both bring an index
    page, with the rows of the enabled page extensions left open; the
    vocations and towns of the server; a pool with two states checked
    in; a handle with a nil player. *)

Module Demo2.
Import Lua GoStrings Env Models PlayerBridge.

Definition tree (path : string) : node :=
  if String.eqb path "extensions/8/pages" then Dir "pages" [File "index.lua"]
  else if String.eqb path "extensions/9/pages" then
    Dir "pages" [File "Index.lua"; File "map.lua"]
  else Demo.tree path.

Definition lua_files (dir : string) : Lua.result (list string) :=
  if String.eqb dir "widgets" then
    Ok ["widgets/Top/top.lua"; "widgets/news/news.lua"; "widgets/top/Top.lua"]
  else Demo.lua_files dir.

Definition host_with (page_rows : list (Lua.result string)) : Host := {|
  Tree := tree;
  Stat := Demo.stat;
  CompileLua := Demo.compile;
  GetLuaFiles := lua_files;
  GetApplicationState := Demo.application_state;
  DatabaseMetaTableName := "database";
  DatabaseTransactionStatusFieldName := "__transaction";
  NewState := {| stack := []; registry := ∅ |};
  DoFile := Demo.do_file;
  Queryx := Demo.queryx page_rows;
|}.

Definition host : Host := host_with [Ok "8"; Ok "9"].

(** A registry with the index page of the primary tree, stored as
    walked, and the one of an extension, stored in lower case. *)
Definition registry_with_both : compiledStateList.t :=
  {| compiledStateList.List :=
       {["pages/Index.lua" := {| SourceName := "pages/Index.lua"; Chunk := 15 |};
         "pages/index.lua" := {| SourceName := "extensions/8/pages/index.lua"; Chunk := 28 |}]};
     compiledStateList.Type_ := "page" |}.

Definition server : ServerLists := {|
  ServerVocationList :=
    [ {| VocationID := 1; VocationName := "Sorcerer" |};
      {| VocationID := 4; VocationName := "Knight" |};
      {| VocationID := 4; VocationName := "Elite Knight" |} ];
  Towns := [ {| TownID := 1; TownName := "Thais" |}; {| TownID := 2; TownName := "Carlin" |} ];
  VocationToTable := fun voc =>
    Env.Returns {["ID" := LNumber (VocationID voc); "Name" := LString (VocationName voc)]};
  TownToTable := fun town =>
    Env.Returns {["ID" := LNumber (TownID town); "Name" := LString (TownName town)]};
|}.



(** A handle with a nil player behind it, as [PlayerConstructor] builds
    one for an argument that is neither a number nor a string; its
    methods and fields are left out. *)
Definition nil_handle : LValue := LTable {["__player" := LUserData None]}.

End Demo2.

(** * Properties *)

(** ** Letter case *)

Section LetterCase.
Import GoStrings.

Example ToLower_index :
  ToLower "Pages/Index.lua" = "pages/index.lua".
Proof. reflexivity. Qed.

Example Replace_dir :
  Replace "extensions/42/pages/shop/view.lua" "extensions/42/pages" "pages"
  = "pages/shop/view.lua".
Proof. reflexivity. Qed.

Example TrimSuffix_lua :
  TrimSuffix (Base "extensions/7/widgets/top/top.lua") ".lua" = "top".
Proof. reflexivity. Qed.

Lemma lower_idempotent (c : ascii) : lower (lower c) = lower c.
Proof.
  destruct c as [[] [] [] [] [] [] [] []]; reflexivity.
Qed.

Lemma same_letter_lower (c d : ascii) : same_letter c d = true -> lower c = lower d.
Proof.
  unfold same_letter. destruct (decide (c = d)) as [->|_]; [done|].
  intros Hor. apply orb_true_iff in Hor as [Hc|Hd].
  - apply andb_true_iff in Hc as [Hup Heq]. apply bool_decide_eq_true in Heq.
    subst d. by rewrite lower_idempotent.
  - apply andb_true_iff in Hd as [Hup Heq]. apply bool_decide_eq_true in Heq.
    subst c. by rewrite lower_idempotent.
Qed.

(** Paths that differ only in letter case have the same lower-case form. *)
Lemma differ_only_in_case_ToLower (a b : string) :
  differ_only_in_case a b = true -> ToLower a = ToLower b.
Proof.
  revert b. induction a as [|c r IH]; intros [|d t]; simpl; try done.
  intros Hab. apply andb_true_iff in Hab as [Hcd Hrt].
  f_equal; [by apply same_letter_lower | by apply IH].
Qed.

Lemma ToLower_idempotent (s : string) : ToLower (ToLower s) = ToLower s.
Proof.
  induction s as [|c r IH]; simpl; [done|]. by rewrite lower_idempotent, IH.
Qed.

End LetterCase.

(** ** The interpreter pool *)

Section Pool.
Import Lua GoStrings Env.
Context `{Host}.

Lemma bucket_insert_eq (pool : gmap string (list nat)) (path : string) (b : list nat) :
  stateList.bucket (<[path := b]> pool) path = b.
Proof. unfold stateList.bucket. by rewrite lookup_insert_eq. Qed.

Lemma bucket_insert_ne (pool : gmap string (list nat)) (path q : string) (b : list nat) :
  path <> q -> stateList.bucket (<[path := b]> pool) q = stateList.bucket pool q.
Proof. intros Hne. unfold stateList.bucket. by rewrite lookup_insert_ne. Qed.

(** [Put] returns for a state that has its database metatable, and says
    what it leaves behind. *)
Lemma Put_returns (s : stateList.t) (w : World) (state : nat) (path : string) :
  stateList.has_database_metatable w state ->
  exists w1,
    stateList.Put s w state path
    = Returns ({| stateList.List :=
                    <[ToLower path :=
                        (stateList.bucket (stateList.List s) (ToLower path) ++ [state])%list]>
                      (stateList.List s);
                  stateList.Type_ := stateList.Type_ s |}, w1).
Proof.
  intros (L & fields & HL & Hreg). unfold stateList.Put.
  rewrite HL. unfold GetTypeMetatable. rewrite Hreg. simpl. eauto.
Qed.

(** [Get] on a bucket whose last element is [x] pops [x]. *)
Lemma Get_pops_last (s : stateList.t) (w : World) (path : string) (b : list nat) (x : nat) :
  stateList.bucket (stateList.List s) (ToLower path) = (b ++ [x])%list ->
  stateList.Get s w path
  = (Ok x, {| stateList.List := <[ToLower path := b]> (stateList.List s);
              stateList.Type_ := stateList.Type_ s |}, w).
Proof.
  intros Hb. unfold stateList.Get. rewrite Hb.
  destruct (decide _) as [Hlen|_].
  { rewrite length_app in Hlen. simpl in Hlen. lia. }
  rewrite last_snoc. rewrite length_app. simpl.
  replace (length b + 1 - 1) with (length b) by lia.
  by rewrite take_app_length.
Qed.

(** What a successful [Get] did: a cold start that left the pool as it
    was, or the pop of [x] from the end of the bucket of the path. *)
Lemma Get_Ok_buckets (s s1 : stateList.t) (w w1 : World) (path : string) (x : nat) :
  stateList.Get s w path = (Ok x, s1, w1) ->
  s1 = s \/
  exists b,
    stateList.bucket (stateList.List s) (ToLower path) = (b ++ [x])%list /\
    s1 = {| stateList.List := <[ToLower path := b]> (stateList.List s);
            stateList.Type_ := stateList.Type_ s |}.
Proof.
  unfold stateList.Get. destruct (decide _) as [Hlen|Hlen].
  - destruct (DoFile _ _) as [L [err|]]; simpl; intros [=]; subst; auto.
  - destruct (last _) as [y|] eqn:Hlast; [|done].
    intros [= -> <- <-]. right.
    apply last_Some in Hlast as [b Hb]. exists b. split; [done|].
    rewrite Hb, length_app. simpl.
    replace (length b + 1 - 1) with (length b) by lia.
    by rewrite take_app_length.
Qed.

(** C3.  After [stateList.Put] returns, the open-transaction marker of the
    instance (the field [DatabaseTransactionStatusFieldName] of its
    database metatable) is false, whatever the marker held before the
    call; and [Put] does return for every instance that has the database
    metatable registered. *)
Theorem Put_clears_transaction_status
    (s : stateList.t) (w : World) (state : nat) (path : string) :
  (stateList.has_database_metatable w state ->
     exists s1 w1, stateList.Put s w state path = Returns (s1, w1)) /\
  (forall s1 w1,
     stateList.Put s w state path = Returns (s1, w1) ->
     stateList.transaction_status w1 state = Some (LBool false)).
Proof.
  split.
  - intros Hmt. destruct (Put_returns s w state path Hmt) as [w1 Hput]. eauto.
  - intros s1 w1. unfold stateList.Put.
    destruct (heap w !! state) as [L|] eqn:HL; [|done].
    destruct (SetField _ _ _) as [mt|] eqn:Hset; [|done].
    intros [= <- <-].
    unfold stateList.transaction_status, store. simpl.
    rewrite list_lookup_insert_eq by (by eapply lookup_lt_Some).
    simpl. f_equal. unfold GetTypeMetatable. simpl. rewrite lookup_insert_eq. simpl.
    unfold SetField in Hset.
    destruct (GetTypeMetatable L DatabaseMetaTableName); try done.
    injection Hset as <-. simpl. by rewrite lookup_insert_eq.
Qed.

(** C1.  A checkout, the checkin of the instance it gave and a second
    checkout of the same path: the checkin returns, the second checkout
    succeeds with the very instance that was checked in (the last one
    pushed is the first one popped), every bucket holds afterwards what
    it held after the first checkout, and every instance the pool held
    before the cycle is still in its bucket or is the one handed out. *)
Theorem checkout_checkin_checkout
    (s s1 : stateList.t) (w w1 : World) (P : string) (x : nat) :
  stateList.Get s w P = (Ok x, s1, w1) ->
  stateList.has_database_metatable w1 x ->
  exists s2 w2 s3,
    stateList.Put s1 w1 x P = Returns (s2, w2) /\
    stateList.Get s2 w2 P = (Ok x, s3, w2) /\
    stateList.Type_ s3 = stateList.Type_ s1 /\
    (forall q, stateList.bucket (stateList.List s3) q = stateList.bucket (stateList.List s1) q) /\
    (forall q y, y ∈ stateList.bucket (stateList.List s) q ->
                 y ∈ stateList.bucket (stateList.List s3) q \/ y = x).
Proof.
  intros Hget Hmt.
  destruct (Put_returns s1 w1 x P Hmt) as [w2 Hput].
  eexists _, w2, _. split; [exact Hput|].
  split; [apply Get_pops_last; simpl; apply bucket_insert_eq|].
  split; [done|].
  assert (Hsame : forall q,
    stateList.bucket (<[ToLower P := stateList.bucket (stateList.List s1) (ToLower P)]>
      (<[ToLower P := (stateList.bucket (stateList.List s1) (ToLower P) ++ [x])%list]>
         (stateList.List s1))) q
    = stateList.bucket (stateList.List s1) q).
  { intros q. rewrite insert_insert_eq.
    destruct (decide (ToLower P = q)) as [<-|Hne].
    - by rewrite bucket_insert_eq.
    - by rewrite bucket_insert_ne. }
  split; [exact Hsame|].
  intros q y Hy. simpl. rewrite Hsame.
  destruct (Get_Ok_buckets _ _ _ _ _ _ Hget) as [->|(b & Hb & ->)]; [by left|].
  simpl. destruct (decide (ToLower P = q)) as [<-|Hne].
  - rewrite bucket_insert_eq. rewrite Hb in Hy.
    apply elem_of_app in Hy as [Hy|Hy]; [by left|].
    right. by apply list_elem_of_singleton in Hy.
  - left. by rewrite bucket_insert_ne.
Qed.

End Pool.

(** ** Case-insensitive lookups *)

Section CaseInsensitive.
Import Lua GoStrings Env.
Context `{Host}.

(** A [range] over the registry meets the entry stored under [k] first
    among those that match [path], when no other stored key has the
    lower-case form of [k]. *)
Lemma first_match_stored (cs : compiledStateList.t) (order : list string)
    (k path : string) (proto : FunctionProto) :
  k ∈ order ->
  compiledStateList.List cs !! k = Some proto ->
  ToLower k = path ->
  (forall k', is_Some (compiledStateList.List cs !! k') -> ToLower k' = ToLower k -> k' = k) ->
  compiledStateList.first_match path (compiledStateList.range cs order) = Some proto.
Proof.
  intros Hin Hk Hlow Huniq. unfold compiledStateList.range.
  induction order as [|a rest IH]; [by apply elem_of_nil in Hin|].
  simpl. destruct (compiledStateList.List cs !! a) as [v|] eqn:Ha; simpl.
  - destruct (String.eqb (ToLower a) path) eqn:Heq.
    + apply String.eqb_eq in Heq.
      assert (a = k) as -> by (apply Huniq; [eauto | congruence]).
      congruence.
    + apply IH. apply elem_of_cons in Hin as [->|Hin]; [|done].
      apply String.eqb_neq in Heq. done.
  - apply IH. apply elem_of_cons in Hin as [->|Hin]; [congruence|done].
Qed.

(** A list without duplicates that holds the keys of the registry, and
    nothing else, is an order in which a [range] can visit them. *)
Lemma visits_all_keys (cs : compiledStateList.t) (order : list string) :
  NoDup order ->
  dom (compiledStateList.List cs) = (list_to_set order : gset string) ->
  compiledStateList.visits_all cs order.
Proof.
  intros Hnd Hdom. split; [done|]. intros p.
  by rewrite <- elem_of_dom, Hdom, elem_of_list_to_set.
Qed.

End CaseInsensitive.

(** ** Walks and loops that stop at the first error *)

Section EarlyExit.
Import Lua Env.
Context {A S : Type} (step : A -> S -> S * option error).
Context (err : A -> option error) (upd : A -> S -> S).
Hypothesis step_shape : forall a st,
  step a st = match err a with
              | Some e => (st, Some e)
              | None => (upd a st, None)
              end.

Lemma run_steps_app (l1 l2 : list A) (st : S) :
  run_steps step (l1 ++ l2) st
  = match run_steps step l1 st with
    | (st1, Some e) => (st1, Some e)
    | (st1, None) => run_steps step l2 st1
    end.
Proof.
  revert st. induction l1 as [|a l1 IH]; intros st; simpl; [done|].
  destruct (step a st) as [st1 [e|]]; [done|]. apply IH.
Qed.

Lemma run_steps_all_pass (l : list A) (st : S) :
  Forall (fun a => err a = None) l ->
  run_steps step l st = (foldl (fun st a => upd a st) st l, None).
Proof.
  intros Hall. revert st. induction Hall as [|a l Ha _ IH]; intros st; simpl; [done|].
  rewrite step_shape, Ha. apply IH.
Qed.

Lemma run_steps_first_failure (pre post : list A) (a : A) (e : error) (st : S) :
  Forall (fun a => err a = None) pre ->
  err a = Some e ->
  run_steps step (pre ++ a :: post) st = (foldl (fun st a => upd a st) st pre, Some e).
Proof.
  intros Hpre Ha. rewrite run_steps_app, (run_steps_all_pass pre st Hpre). simpl.
  by rewrite step_shape, Ha.
Qed.

(** A list with a failing element splits at its first failing element. *)
Lemma first_failure_split (l : list A) (a : A) :
  a ∈ l -> is_Some (err a) ->
  exists pre b post e,
    l = (pre ++ b :: post)%list /\ Forall (fun a => err a = None) pre /\ err b = Some e.
Proof.
  induction l as [|c l IH]; intros Hin Hfail; [by apply elem_of_nil in Hin|].
  destruct (err c) as [e|] eqn:Hc.
  - exists [], c, l, e. by repeat split.
  - assert (a ∈ l) as Hin'.
    { apply elem_of_cons in Hin as [->|Hin]; [|done].
      rewrite Hc in Hfail. by destruct Hfail. }
    destruct (IH Hin' Hfail) as (pre & b & post & e & -> & Hpre & Hb).
    exists (c :: pre), b, post, e. repeat split; [|done]. by constructor.
Qed.

(** A run either passes every element or stops at the first failure. *)
Lemma run_steps_cases (l : list A) (st : S) :
  (Forall (fun a => err a = None) l /\
     run_steps step l st = (foldl (fun st a => upd a st) st l, None)) \/
  (exists pre b post e,
     l = (pre ++ b :: post)%list /\ Forall (fun a => err a = None) pre /\ err b = Some e /\
     run_steps step l st = (foldl (fun st a => upd a st) st pre, Some e)).
Proof.
  destruct (decide (Forall (fun a => err a = None) l)) as [Hall|Hnot].
  - left. split; [done|]. by apply run_steps_all_pass.
  - right. apply not_Forall_Exists in Hnot; [|intros a; apply _].
    apply Exists_exists in Hnot as (a & Hin & Ha).
    destruct (first_failure_split l a Hin) as (pre & b & post & e & -> & Hpre & Hb).
    { simpl in Ha. destruct (err a); [eauto|congruence]. }
    exists pre, b, post, e. repeat split; try done.
    by apply run_steps_first_failure.
Qed.

End EarlyExit.

Section WalkOrder.
Import Lua Env.
Context {S : Type}.

(** Induction on a tree, with the property known for every entry of a
    directory. *)
Lemma node_nested_ind (P : node -> Prop) :
  (forall nm, P (File nm)) ->
  (forall nm entries, Forall P entries -> P (Dir nm entries)) ->
  (forall nm e, P (DirUnreadable nm e)) ->
  (forall nm e, P (NoStat nm e)) ->
  forall n, P n.
Proof.
  intros HF HD HU HN. fix IH 1. intros [nm|nm entries|nm e|nm e].
  - apply HF.
  - apply HD. induction entries as [|c rest IHrest]; constructor.
    + apply IH.
    + exact IHrest.
  - apply HU.
  - apply HN.
Qed.

(** [filepath.walk] makes the calls of [walk_order], in order, up to the
    first one that fails. *)
Lemma walk_run_visits (fn : @WalkFunc S) (n : node) :
  forall path st, walk fn path n st = run_visits fn (walk_order path n) st.
Proof.
  induction n as [nm|nm entries IH|nm e|nm e] using node_nested_ind;
    intros path st; simpl.
  - unfold run_visits. simpl. by destruct (fn _ _ _) as [st1 [e|]].
  - unfold run_visits. simpl.
    destruct (fn path _ st) as [st1 [e|]]; [done|].
    clear st. revert st1. induction IH as [|c rest Hc _ IHrest]; intros st1; [done|].
    rewrite run_steps_app. rewrite Hc. unfold run_visits.
    destruct (run_steps _ (walk_order _ c) st1) as [st2 [e|]]; [done|].
    apply IHrest.
  - unfold run_visits. simpl. by destruct (fn _ _ _) as [st1 [e0|]].
  - unfold run_visits. simpl. by destruct (fn _ _ _) as [st1 [e0|]].
Qed.

End WalkOrder.

(** ** The registry of compiled units *)

Section Registry.
Import Lua GoStrings Env.
Import compiledStateList.
Context `{Host}.

Lemma foldl_write_merge {A : Type} (entry : A -> option (string * FunctionProto))
    (l : list A) (units : gmap string FunctionProto) :
  foldl (fun m a => write (entry a) m) units l = merge (omap entry l) units.
Proof.
  unfold merge. revert units. induction l as [|a l IH]; intros units; simpl; [done|].
  rewrite IH. by destruct (entry a).
Qed.

Lemma merge_lookup_old (entries : list (string * FunctionProto))
    (units : gmap string FunctionProto) (k : string) :
  is_Some (units !! k) -> is_Some (merge entries units !! k).
Proof.
  unfold merge. revert units. induction entries as [|[k' v] entries IH]; intros units Hk; [done|].
  simpl. apply IH. destruct (decide (k' = k)) as [->|Hne].
  - rewrite lookup_insert_eq. eauto.
  - by rewrite lookup_insert_ne.
Qed.

Lemma merge_lookup_new (entries : list (string * FunctionProto))
    (units : gmap string FunctionProto) (k : string) (v : FunctionProto) :
  (k, v) ∈ entries -> is_Some (merge entries units !! k).
Proof.
  revert units. induction entries as [|[k' v'] entries IH]; intros units Hin;
    [by apply elem_of_nil in Hin|].
  apply elem_of_cons in Hin as [[= <- <-]|Hin].
  - change (is_Some (merge entries (<[k := v]> units) !! k)).
    apply merge_lookup_old. rewrite lookup_insert_eq. eauto.
  - change (is_Some (merge entries (<[k' := v']> units) !! k)). by apply IH.
Qed.

(** The callback of [CompileFiles] at one visit. *)
Lemma compile_file_shape (v : visit) (files : gmap string FunctionProto) :
  compile_file (vpath v) (varg v) files
  = match visit_error v with
    | Some e => (files, Some e)
    | None => (write (file_entry v) files, None)
    end.
Proof.
  unfold compile_file, visit_error, file_entry, is_script, compiled.
  destruct (varg v) as [info|info e]; [|done].
  destruct (IsDir info); simpl; [done|].
  destruct (HasSuffix (Name info) ".lua"); simpl; [|done].
  by destruct (CompileLua (vpath v)).
Qed.

(** The callback of [CompileExtensions] at one step. *)
Lemma ext_step_fn_shape (extType : string) (st : ext_step)
    (units : gmap string FunctionProto) :
  ext_step_fn extType st units
  = match step_error st with
    | Some e => (units, Some e)
    | None => (write (step_entry extType st) units, None)
    end.
Proof.
  destruct st as [e|dir v]; [done|]. simpl.
  unfold compile_extension_file, visit_error, is_script, compiled.
  destruct (varg v) as [info|info e]; [|done].
  destruct (IsDir info); simpl; [done|].
  destruct (HasSuffix (Name info) ".lua"); simpl; [|done].
  by destruct (CompileLua (vpath v)).
Qed.

Lemma run_steps_fmap {A B S : Type} (f : A -> B) (step : B -> S -> S * option error)
    (l : list A) (st : S) :
  run_steps step (f <$> l) st = run_steps (fun a => step (f a)) l st.
Proof.
  revert st. induction l as [|a l IH]; intros st; simpl; [done|].
  destruct (step (f a) st) as [st1 [e|]]; [done|]. apply IH.
Qed.

(** The loop of [CompileExtensions] takes the steps of [ext_steps], in
    order, up to the first one that fails. *)
Lemma compile_rows_run_steps (extType : string) (rows : list (result string))
    (units : gmap string FunctionProto) :
  compile_rows extType rows units
  = run_steps (ext_step_fn extType) (ext_steps extType rows) units.
Proof.
  revert units. induction rows as [|[id|e] rows IH]; intros units; [done| |done].
  unfold ext_steps. simpl. rewrite run_steps_app, run_steps_fmap.
  unfold Walk. rewrite walk_run_visits. unfold run_visits, tree_visits. simpl.
  destruct (run_steps _ (walk_order _ _) units) as [units1 [e|]]; [done|].
  apply IH.
Qed.

Lemma scripts_cons (v : visit) (vs : list visit) :
  scripts (v :: vs) = if is_script v then vpath v :: scripts vs else scripts vs.
Proof. unfold scripts. simpl. by destruct (is_script v). Qed.

(** The registry [CompileFiles] builds when every visit passes. *)
Lemma files_lookup (vs : list visit) (files : gmap string FunctionProto) (path : string) :
  Forall (fun v => visit_error v = None) vs ->
  foldl (fun m v => write (file_entry v) m) files vs !! path
  = if decide (path ∈ scripts vs) then compiled path else files !! path.
Proof.
  intros Hall. revert files. induction Hall as [|v vs Hv _ IH]; intros files.
  { rewrite decide_False; [done|]. unfold scripts. simpl. apply not_elem_of_nil. }
  cbn [foldl]. rewrite IH, scripts_cons.
  unfold file_entry. unfold visit_error in Hv.
  destruct (is_script v) eqn:Hs; [|done].
  assert (exists proto, compiled (vpath v) = Some proto) as [proto Hproto].
  { unfold compiled. destruct (varg v); [|done].
    destruct (CompileLua (vpath v)); [eauto|done]. }
  rewrite Hproto. cbn [fmap option_fmap option_map write fst snd].
  destruct (decide (path ∈ scripts vs)) as [Hin|Hnin].
  - rewrite decide_True; [done|]. by apply elem_of_cons; right.
  - destruct (decide (path = vpath v)) as [->|Hne].
    + rewrite decide_True by (apply elem_of_cons; by left).
      by rewrite lookup_insert_eq.
    + rewrite decide_False.
      * by rewrite lookup_insert_ne.
      * intros [?|?]%elem_of_cons; done.
Qed.

(** A script of the tree is one of its visits. *)
Lemma scripts_visit (vs : list visit) (path : string) :
  path ∈ scripts vs -> exists v, v ∈ vs /\ is_script v = true /\ vpath v = path.
Proof.
  unfold scripts. intros (v & Hv & Hp)%list_elem_of_omap.
  exists v. destruct (is_script v); [|done]. injection Hp as <-. done.
Qed.

(** C4.  [CompileFiles] is all or nothing: when a script file of the tree
    fails to compile the call returns an error and the registry is the
    one from before the call; the error returned is that of the first
    visit that fails; every call that returns an error leaves the
    registry as it was; and a call that returns no error has replaced
    the registry by the units of exactly the script files of the tree. *)
Theorem CompileFiles_atomic (s : compiledStateList.t) (dir : string) :
  (forall path e,
     path ∈ scripts (tree_visits dir) -> CompileLua path = Err e ->
     exists e', CompileFiles s dir = (s, Some e')) /\
  (forall pre v post e,
     tree_visits dir = (pre ++ v :: post)%list ->
     Forall (fun u => visit_error u = None) pre ->
     visit_error v = Some e ->
     CompileFiles s dir = (s, Some e)) /\
  (forall s' e, CompileFiles s dir = (s', Some e) -> s' = s) /\
  (forall s',
     CompileFiles s dir = (s', None) ->
     Type_ s' = Type_ s /\
     forall path,
       List s' !! path
       = if decide (path ∈ scripts (tree_visits dir)) then compiled path else None).
Proof.
  assert (Hfirst : forall pre v post e,
     tree_visits dir = (pre ++ v :: post)%list ->
     Forall (fun u => visit_error u = None) pre ->
     visit_error v = Some e ->
     CompileFiles s dir = (s, Some e)).
  { intros pre v post e Hsplit Hpre Hv. unfold CompileFiles, Walk.
    rewrite walk_run_visits. fold (tree_visits dir). rewrite Hsplit. unfold run_visits.
    by rewrite (run_steps_first_failure _ visit_error (fun v => write (file_entry v))
                  compile_file_shape pre post v e ∅ Hpre Hv). }
  split; [|split; [exact Hfirst|split]].
  - intros path e Hin Hfail.
    destruct (scripts_visit _ _ Hin) as (v & Hv & Hs & <-).
    destruct (first_failure_split visit_error (tree_visits dir) v Hv)
      as (pre & b & post & e' & Hsplit & Hpre & Hb).
    { unfold visit_error. unfold is_script in Hs |- *.
      destruct (varg v); [|done]. rewrite Hs, Hfail. eauto. }
    exists e'. by eapply Hfirst.
  - intros s' e. unfold CompileFiles.
    destruct (Walk dir compile_file ∅) as [files [e'|]]; by intros [= <-].
  - intros s'. unfold CompileFiles, Walk. rewrite walk_run_visits.
    fold (tree_visits dir). unfold run_visits.
    destruct (run_steps_cases (fun v => compile_file (vpath v) (varg v)) visit_error
                (fun v => write (file_entry v)) compile_file_shape (tree_visits dir) ∅)
      as [[Hall ->]|(pre & b & post & e & _ & _ & _ & ->)]; [|done].
    intros [= <-]. simpl. split; [done|]. intros path.
    by rewrite (files_lookup _ ∅ path Hall), lookup_empty.
Qed.

(** C10.  [CompileExtensions] writes into the registry as it goes: when
    the steps before the first failing one (a scan, a walk error or a
    compile error, in this or a later extension) have passed, the call
    returns the error of that step and the registry holds the entries
    merged by the steps before it, on top of what it held: nothing that
    was registered or merged before the failure is taken back. *)
Theorem CompileExtensions_not_atomic
    (s : compiledStateList.t) (extType : string) (rows : list (result string))
    (pre post : list ext_step) (st : ext_step) (e : error) :
  Queryx (extension_query extType) = Ok rows ->
  ext_steps extType rows = (pre ++ st :: post)%list ->
  Forall (fun u => step_error u = None) pre ->
  step_error st = Some e ->
  exists s',
    CompileExtensions s extType = (s', Some e) /\
    List s' = merge (omap (step_entry extType) pre) (List s) /\
    (forall k, is_Some (List s !! k) -> is_Some (List s' !! k)) /\
    (forall k proto, (k, proto) ∈ omap (step_entry extType) pre -> is_Some (List s' !! k)).
Proof.
  intros Hq Hsplit Hpre Hst. unfold CompileExtensions. rewrite Hq.
  rewrite compile_rows_run_steps, Hsplit.
  rewrite (run_steps_first_failure _ step_error (fun u => write (step_entry extType u))
             (ext_step_fn_shape extType) pre post st e (List s) Hpre Hst).
  rewrite foldl_write_merge. eexists. split; [done|]. simpl.
  split; [done|]. split.
  - intros k. apply merge_lookup_old.
  - intros k proto. apply merge_lookup_new.
Qed.

End Registry.

(** ** Loading the scripts of the extensions *)

Section Extensions.
Import Lua GoStrings Env.
Import stateList.
Context `{Host}.

Lemma extends_refl pool w : extends pool w pool w.
Proof. split; [|split]; [intros q; reflexivity | reflexivity | done]. Qed.

Lemma extends_trans pool0 w0 pool1 w1 pool2 w2 :
  extends pool0 w0 pool1 w1 -> extends pool1 w1 pool2 w2 -> extends pool0 w0 pool2 w2.
Proof.
  intros (Hb1 & Hh1 & Hw1) (Hb2 & Hh2 & Hw2). split; [|split].
  - intros q. etrans; [apply Hb1 | apply Hb2].
  - etrans; [apply Hh1 | apply Hh2].
  - auto.
Qed.

Lemma extends_push pool w path L :
  extends pool w
    (<[path := (bucket pool path ++ [length (heap w)])%list]> pool) (alloc w L).2.
Proof.
  split; [|split]; simpl.
  - intros q. destruct (decide (path = q)) as [<-|Hne].
    + unfold bucket at 2. rewrite lookup_insert_eq. simpl. by apply prefix_app_r.
    + unfold bucket at 2. by rewrite lookup_insert_ne.
  - by apply prefix_app_r.
  - done.
Qed.

Lemma extends_unload pool w L line name :
  extends pool w pool (UnloadExtensionWidget (Errorf (alloc w L).2 line) name).
Proof.
  split; [|split]; simpl.
  - intros q. reflexivity.
  - by apply prefix_app_r.
  - intros n Hn. by apply list_elem_of_filter in Hn as [_ Hn].
Qed.

Lemma load_scripts_extends extType extensionID dir subtopicList pool w pool' w' err :
  load_scripts extType extensionID dir subtopicList pool w = (pool', w', err) ->
  extends pool w pool' w'.
Proof.
  revert pool w. induction subtopicList as [|f rest IH]; intros pool w; simpl.
  { intros [= <- <- <-]. apply extends_refl. }
  destruct (DoFile f fresh_state) as [L [e|]].
  - destruct (String.eqb extType "widgets").
    + intros Hrest. apply IH in Hrest.
      eapply extends_trans; [|exact Hrest]. apply extends_unload.
    + intros [= <- <- <-]. split; [|split]; simpl; [intros q; reflexivity| |done].
      by apply prefix_app_r.
  - intros Hrest. apply IH in Hrest.
    eapply extends_trans; [|exact Hrest]. apply (extends_push pool w _ L).
Qed.

Lemma load_rows_extends extType rows pool w pool' w' err :
  load_rows extType rows pool w = (pool', w', err) ->
  extends pool w pool' w'.
Proof.
  revert pool w. induction rows as [|[id|e] rows IH]; intros pool w; simpl.
  - intros [= <- <- <-]. apply extends_refl.
  - destruct (Stat _).
    + destruct (GetLuaFiles _) as [subs|e].
      * destruct (load_scripts _ _ _ _ _ _) as [[pool1 w1] [e|]] eqn:Hscripts.
        -- intros [= <- <- <-]. by eapply load_scripts_extends.
        -- intros Hrest. apply IH in Hrest.
           eapply extends_trans; [|exact Hrest]. by eapply load_scripts_extends.
      * intros [= <- <- <-]. apply extends_refl.
    + intros Hrest. apply IH in Hrest.
      eapply extends_trans; [|exact Hrest].
      split; [|split]; simpl; [intros q; reflexivity|reflexivity|done].
    + apply IH.
  - intros [= <- <- <-]. apply extends_refl.
Qed.

Lemma settled_extends extType dir subtopic pool w pool' w' :
  settled extType dir subtopic pool w ->
  extends pool w pool' w' ->
  settled extType dir subtopic pool' w'.
Proof.
  unfold settled. intros Hs (Hb & Hh & Hw).
  destruct (DoFile subtopic fresh_state) as [L [e|]].
  - intros Hn. apply Hs. by apply Hw.
  - destruct Hs as (x & Hx & HL). exists x. split.
    + destruct (Hb (ToLower (Replace subtopic dir extType))) as [k ->].
      apply elem_of_app. by left.
    + by eapply prefix_lookup_Some.
Qed.

(** The widget loop never fails, and settles every script. *)
Lemma load_scripts_widgets extensionID dir subtopicList pool w pool' w' err :
  load_scripts "widgets" extensionID dir subtopicList pool w = (pool', w', err) ->
  err = None /\
  forall f, f ∈ subtopicList -> settled "widgets" dir f pool' w'.
Proof.
  revert pool w. induction subtopicList as [|f rest IH]; intros pool w.
  { simpl. intros [= <- <- <-]. split; [done|]. intros f Hf. by apply elem_of_nil in Hf. }
  cbn [load_scripts]. destruct (DoFile f fresh_state) as [L [e|]] eqn:Hdo.
  - change (String.eqb "widgets" "widgets") with true. cbv iota.
    intros Hrest. destruct (IH _ _ Hrest) as [-> Hall]. split; [done|].
    intros g [->|Hg]%elem_of_cons; [|by apply Hall].
    eapply settled_extends; [|eapply load_scripts_extends; exact Hrest].
    unfold settled. rewrite Hdo. simpl.
    intros Hin. by apply list_elem_of_filter in Hin as [Hne _].
  - simpl. intros Hrest. destruct (IH _ _ Hrest) as [-> Hall]. split; [done|].
    intros g [->|Hg]%elem_of_cons; [|by apply Hall].
    eapply settled_extends; [|eapply load_scripts_extends; exact Hrest].
    unfold settled. rewrite Hdo. exists (length (heap w)). split.
    + rewrite bucket_insert_eq. apply elem_of_app. right. by apply list_elem_of_singleton.
    + by apply list_lookup_middle.
Qed.

(** The loop of any other kind stops at the first script that fails, with
    an error that names the extension. *)
Lemma load_scripts_pages extType extensionID dir subtopicList pool w pool' w' err :
  String.eqb extType "widgets" = false ->
  load_scripts extType extensionID dir subtopicList pool w = (pool', w', err) ->
  match err with
  | Some err =>
      exists f e, f ∈ subtopicList /\ (DoFile f fresh_state).2 = Some e
                  /\ err = "extension: " +:+ extensionID +:+ " " +:+ e
  | None => forall f, f ∈ subtopicList -> (DoFile f fresh_state).2 = None
  end.
Proof.
  intros Hkind. revert pool w.
  induction subtopicList as [|f rest IH]; intros pool w.
  { simpl. intros [= <- <- <-]. intros f Hf. by apply elem_of_nil in Hf. }
  cbn [load_scripts]. destruct (DoFile f fresh_state) as [L [e|]] eqn:Hdo.
  - rewrite Hkind. simpl. intros [= <- <- <-].
    exists f, e. rewrite Hdo. repeat split. apply elem_of_cons. by left.
  - simpl. intros Hrest. apply IH in Hrest. destruct err as [err|].
    + destruct Hrest as (g & e & Hg & Hfail & ->). exists g, e.
      repeat split; [|done]. apply elem_of_cons. by right.
    + intros g [->|Hg]%elem_of_cons; [by rewrite Hdo|by apply Hrest].
Qed.

Lemma script_of_cons extType row rows extensionID subtopic :
  script_of extType rows extensionID subtopic ->
  script_of extType (row :: rows) extensionID subtopic.
Proof.
  intros (Hin & Hstat & Hfiles). split; [|done]. apply elem_of_cons. by right.
Qed.

(** The scripts of the head row and of the rows after it. *)
Lemma script_of_inv extType extensionID0 rows extensionID subtopic :
  script_of extType (Ok extensionID0 :: rows) extensionID subtopic ->
  (extensionID = extensionID0 /\
   Stat (extension_dir extensionID0 extType) = StatOk /\
   exists subtopicList,
     GetLuaFiles (extension_dir extensionID0 extType) = Ok subtopicList
     /\ subtopic ∈ subtopicList)
  \/ script_of extType rows extensionID subtopic.
Proof.
  intros (Hin & Hstat & Hfiles).
  apply elem_of_cons in Hin as [[= ->]|Hin]; [left|right]; done.
Qed.

(** The rows of the widget kind: no error, and every script of every
    enabled extension settled. *)
Lemma load_rows_widgets rows pool w pool' w' err :
  (forall row, row ∈ rows -> exists extensionID, row = Ok extensionID) ->
  (forall extensionID,
     Ok extensionID ∈ rows ->
     Stat (extension_dir extensionID "widgets") = StatOk ->
     exists subtopicList, GetLuaFiles (extension_dir extensionID "widgets") = Ok subtopicList) ->
  load_rows "widgets" rows pool w = (pool', w', err) ->
  err = None /\
  forall extensionID f,
    script_of "widgets" rows extensionID f ->
    settled "widgets" (extension_dir extensionID "widgets") f pool' w'.
Proof.
  revert pool w. induction rows as [|[id|e] rows IH]; intros pool w Hscan Hlist.
  - simpl. intros [= <- <- <-]. split; [done|].
    intros id f (Hin & _). by apply elem_of_nil in Hin.
  - assert (Hscan' : forall row, row ∈ rows -> exists extensionID, row = Ok extensionID).
    { intros row Hrow. apply Hscan, elem_of_cons. by right. }
    assert (Hlist' : forall extensionID,
      Ok extensionID ∈ rows ->
      Stat (extension_dir extensionID "widgets") = StatOk ->
      exists subtopicList,
        GetLuaFiles (extension_dir extensionID "widgets") = Ok subtopicList).
    { intros id' Hid'. apply Hlist, elem_of_cons. by right. }
    cbn [load_rows]. destruct (Stat (extension_dir id "widgets")) eqn:Hstat.
    + destruct (Hlist id) as [subs Hsubs]; [apply elem_of_cons; by left|done|].
      rewrite Hsubs.
      destruct (load_scripts _ _ _ _ _ _) as [[pool1 w1] r1] eqn:Hscripts.
      destruct (load_scripts_widgets _ _ _ _ _ _ _ _ Hscripts) as [-> Hsettled].
      intros Hrest. destruct (IH _ _ Hscan' Hlist' Hrest) as [-> Hall].
      split; [done|]. intros id' f Hscript.
      apply script_of_inv in Hscript as [(-> & _ & subs' & Hsubs' & Hf)|Hscript];
        [|by apply Hall].
      rewrite Hsubs in Hsubs'. injection Hsubs' as <-.
      eapply settled_extends; [by apply Hsettled|].
      eapply load_rows_extends; exact Hrest.
    + intros Hrest. destruct (IH _ _ Hscan' Hlist' Hrest) as [-> Hall].
      split; [done|]. intros id' f Hscript.
      apply script_of_inv in Hscript as [(-> & Hok & _)|Hscript]; [congruence|by apply Hall].
    + intros Hrest. destruct (IH _ _ Hscan' Hlist' Hrest) as [-> Hall].
      split; [done|]. intros id' f Hscript.
      apply script_of_inv in Hscript as [(-> & Hok & _)|Hscript]; [congruence|by apply Hall].
  - destruct (Hscan (Err e)) as [id Hid]; [apply elem_of_cons; by left|done].
Qed.

(** The rows of any other kind: an error exactly when a script of an
    enabled extension fails, and then one that names the extension. *)
Lemma load_rows_pages extType rows pool w pool' w' err :
  String.eqb extType "widgets" = false ->
  (forall row, row ∈ rows -> exists extensionID, row = Ok extensionID) ->
  (forall extensionID,
     Ok extensionID ∈ rows ->
     Stat (extension_dir extensionID extType) = StatOk ->
     exists subtopicList, GetLuaFiles (extension_dir extensionID extType) = Ok subtopicList) ->
  load_rows extType rows pool w = (pool', w', err) ->
  match err with
  | Some err =>
      exists extensionID f e,
        script_of extType rows extensionID f /\ (DoFile f fresh_state).2 = Some e
        /\ err = "extension: " +:+ extensionID +:+ " " +:+ e
  | None =>
      forall extensionID f,
        script_of extType rows extensionID f -> (DoFile f fresh_state).2 = None
  end.
Proof.
  intros Hkind. revert pool w.
  induction rows as [|[id|e] rows IH]; intros pool w Hscan Hlist.
  - simpl. intros [= <- <- <-]. intros id f (Hin & _). by apply elem_of_nil in Hin.
  - assert (Hscan' : forall row, row ∈ rows -> exists extensionID, row = Ok extensionID).
    { intros row Hrow. apply Hscan, elem_of_cons. by right. }
    assert (Hlist' : forall extensionID,
      Ok extensionID ∈ rows ->
      Stat (extension_dir extensionID extType) = StatOk ->
      exists subtopicList,
        GetLuaFiles (extension_dir extensionID extType) = Ok subtopicList).
    { intros id' Hid'. apply Hlist, elem_of_cons. by right. }
    assert (Hskip : Stat (extension_dir id extType) <> StatOk ->
      forall r, match r with
        | Some err => (exists extensionID f e,
            script_of extType rows extensionID f /\ (DoFile f fresh_state).2 = Some e
            /\ err = "extension: " +:+ extensionID +:+ " " +:+ e)
        | None => (forall extensionID f,
            script_of extType rows extensionID f -> (DoFile f fresh_state).2 = None)
        end ->
        match r with
        | Some err => (exists extensionID f e,
            script_of extType (Ok id :: rows) extensionID f
            /\ (DoFile f fresh_state).2 = Some e
            /\ err = "extension: " +:+ extensionID +:+ " " +:+ e)
        | None => (forall extensionID f,
            script_of extType (Ok id :: rows) extensionID f
            -> (DoFile f fresh_state).2 = None)
        end).
    { intros Hnok [r|].
      - intros (id' & f & e & Hs & Hf & ->). exists id', f, e.
        split; [by apply script_of_cons|done].
      - intros Hall id' f Hscript.
        apply script_of_inv in Hscript as [(-> & Hok & _)|Hscript];
          [done|exact (Hall id' f Hscript)]. }
    cbn [load_rows]. destruct (Stat (extension_dir id extType)) eqn:Hstat.
    + destruct (Hlist id) as [subs Hsubs]; [apply elem_of_cons; by left|done|].
      rewrite Hsubs.
      destruct (load_scripts _ _ _ _ _ _) as [[pool1 w1] r1] eqn:Hscripts.
      pose proof (load_scripts_pages _ _ _ _ _ _ _ _ _ Hkind Hscripts) as Hr1.
      destruct r1 as [err1|].
      * intros [= <- <- <-]. destruct Hr1 as (f & e & Hf & Hfail & ->).
        exists id, f, e. split; [|done].
        split; [apply elem_of_cons; by left|]. split; [done|]. eauto.
      * intros Hrest. apply (IH _ _ Hscan' Hlist') in Hrest. destruct err as [err|].
        -- destruct Hrest as (id' & f & e & Hs & Hf & ->). exists id', f, e.
           split; [by apply script_of_cons|done].
        -- intros id' f Hscript.
           apply script_of_inv in Hscript as [(-> & _ & subs' & Hsubs' & Hf)|Hscript];
             [|exact (Hrest id' f Hscript)].
           rewrite Hsubs in Hsubs'. injection Hsubs' as <-. by apply Hr1.
    + intros Hrest. apply (IH _ _ Hscan' Hlist') in Hrest.
      apply Hskip; [congruence|done].
    + intros Hrest. apply (IH _ _ Hscan' Hlist') in Hrest.
      apply Hskip; [congruence|done].
  - destruct (Hscan (Err e)) as [id Hid]; [apply elem_of_cons; by left|done].
Qed.

(** X28.  A script of an extension that fails to load, in
    [stateList.LoadExtensions], when the query, the scans and the
    directory listings succeed.
    On a list of the widget kind the call returns no error, the name of
    every failing widget is gone from the active widget list (the
    unloading itself is done by [util.Widgets.UnloadExtensionWidget]),
    and every script that loads has its state in the pool under its
    virtual path.
    On a list of the page kind, for which the loop has a branch though
    the package declares none, the call returns an error exactly when a
    script of an enabled extension fails to load, and the error is
    ["extension: <id> <cause>"] for the id of an extension that owns a
    failing script. *)
Theorem LoadExtensions_script_failures
    (s s' : stateList.t) (w w' : World) (rows : list (result string)) (err : option error) :
  Queryx (extension_query (Type_ s +:+ "s")) = Ok rows ->
  (forall row, row ∈ rows -> exists extensionID, row = Ok extensionID) ->
  (forall extensionID,
     Ok extensionID ∈ rows ->
     Stat (extension_dir extensionID (Type_ s +:+ "s")) = StatOk ->
     exists subtopicList,
       GetLuaFiles (extension_dir extensionID (Type_ s +:+ "s")) = Ok subtopicList) ->
  LoadExtensions s w = (s', w', err) ->
  (Type_ s = "widget" ->
     err = None /\
     forall extensionID f,
       script_of "widgets" rows extensionID f ->
       match DoFile f fresh_state with
       | (_, Some _) => widget_name f ∉ widgets w'
       | (L, None) =>
           exists x, x ∈ bucket (List s') (virtual_path "widgets" extensionID f)
                     /\ heap w' !! x = Some L
       end) /\
  (Type_ s = "page" ->
     (forall extensionID f e,
        script_of "pages" rows extensionID f -> (DoFile f fresh_state).2 = Some e ->
        is_Some err) /\
     (forall message,
        err = Some message ->
        exists extensionID f e,
          script_of "pages" rows extensionID f /\ (DoFile f fresh_state).2 = Some e
          /\ message = "extension: " +:+ extensionID +:+ " " +:+ e)).
Proof.
  intros Hq Hscan Hlist. unfold LoadExtensions. rewrite Hq.
  destruct (load_rows _ rows ∅ w) as [[pool1 w1] r] eqn:Hrows.
  intros [= <- <- <-]. split; intros Hkind; rewrite Hkind in *;
    change ("widget" +:+ "s") with "widgets" in *;
    change ("page" +:+ "s") with "pages" in *.
  - destruct (load_rows_widgets _ _ _ _ _ _ Hscan Hlist Hrows) as [-> Hall].
    split; [done|]. intros id f Hscript. apply (Hall id f Hscript).
  - pose proof (load_rows_pages "pages" _ _ _ _ _ _ eq_refl Hscan Hlist Hrows) as Hpages.
    destruct r as [message|].
    + split; [eauto|]. by intros ? [= <-].
    + split; [|done]. intros id f e Hscript Hfail.
      rewrite (Hpages id f Hscript) in Hfail. done.
Qed.

End Extensions.

(** ** A missing extension directory *)

Section MissingDirectory.
Import Lua GoStrings Env.
Context `{Host}.

Lemma load_rows_app extType rows1 rows2 pool w :
  stateList.load_rows extType (rows1 ++ rows2) pool w
  = match stateList.load_rows extType rows1 pool w with
    | (pool1, w1, Some err) => (pool1, w1, Some err)
    | (pool1, w1, None) => stateList.load_rows extType rows2 pool1 w1
    end.
Proof.
  revert pool w. induction rows1 as [|[id|e] rows1 IH]; intros pool w; [done| |done].
  cbn [app stateList.load_rows]. destruct (Stat _); [|apply IH|apply IH].
  destruct (GetLuaFiles _) as [subs|e]; [|done].
  destruct (stateList.load_scripts _ _ _ _ _ _) as [[pool1 w1] [e|]]; [done|apply IH].
Qed.

(** X25.  [stateList.LoadExtensions] logs a missing directory and goes
    on with the next extension: the rows after it are loaded on top of
    what the rows before it have loaded, which stays in the pool. *)
Lemma LoadExtensions_skips_missing_directory
    (extType extensionID : string) (before after : list (result string))
    (pool pool1 : gmap string (list nat)) (w w1 : World) (e : error) :
  Stat (stateList.extension_dir extensionID extType) = StatNotExist e ->
  stateList.load_rows extType before pool w = (pool1, w1, None) ->
  let line := "Missing " +:+ extType +:+ " directory in extension " +:+ extensionID in
  stateList.load_rows extType (before ++ Ok extensionID :: after) pool w
  = stateList.load_rows extType after pool1 (Errorf w1 line) /\
  forall pool2 w2 err,
    stateList.load_rows extType after pool1 (Errorf w1 line) = (pool2, w2, err) ->
    forall q, stateList.bucket pool1 q `prefix_of` stateList.bucket pool2 q.
Proof.
  intros Hstat Hbefore line. split.
  - rewrite load_rows_app, Hbefore. cbn [stateList.load_rows]. by rewrite Hstat.
  - intros pool2 w2 err Hafter. by apply load_rows_extends in Hafter as (Hb & _).
Qed.

(** X26.  [compiledStateList.CompileExtensions] has no such check: the
    walk of a directory that is not there calls back with the [Lstat]
    error, and the call returns it.  The registry then holds what the
    extensions before the missing one have merged, on top of what it
    held, and nothing of the extensions after it: they are not
    compiled. *)
Lemma CompileExtensions_missing_directory
    (s : compiledStateList.t) (extType extensionID nm : string)
    (before after : list (result string)) (e : error) :
  Queryx (compiledStateList.extension_query extType)
  = Ok (before ++ Ok extensionID :: after)%list ->
  Forall (fun u => compiledStateList.step_error u = None)
         (compiledStateList.ext_steps extType before) ->
  Tree (compiledStateList.extension_dir extensionID extType) = NoStat nm e ->
  compiledStateList.CompileExtensions s extType
  = ({| compiledStateList.List :=
          compiledStateList.merge
            (omap (compiledStateList.step_entry extType)
                  (compiledStateList.ext_steps extType before))
            (compiledStateList.List s);
        compiledStateList.Type_ := compiledStateList.Type_ s |},
     Some e).
Proof.
  intros Hq Hbefore Htree. unfold compiledStateList.CompileExtensions. rewrite Hq.
  rewrite compile_rows_run_steps. unfold compiledStateList.ext_steps.
  rewrite bind_app, bind_cons. cbn [compiledStateList.row_steps].
  unfold compiledStateList.tree_visits. rewrite Htree. cbn [walk_order fmap list_fmap app].
  erewrite (run_steps_first_failure _ compiledStateList.step_error
              (fun u => compiledStateList.write (compiledStateList.step_entry extType u))
              (ext_step_fn_shape extType)); [|exact Hbefore|done].
  by rewrite foldl_write_merge.
Qed.

End MissingDirectory.

(** ** The demo installation *)

Section DemoRuns.
Import Lua GoStrings Env.

(** C6, on the demo installation: extension 42 is enabled for pages and
    has no [extensions/42/pages] directory.  [CompileExtensions] returns
    the [Lstat] error, and extension 7, which comes after it, is not
    compiled; [LoadExtensions] on the same rows logs the directory and
    loads extension 7. *)
Theorem CompileExtensions_aborts_on_missing_directory :
  let h := Demo.host [Ok "42"; Ok "7"] in
  compiledStateList.CompileExtensions (H:=h) Demo.registry_with_index "pages"
  = (Demo.registry_with_index,
     Some "lstat extensions/42/pages: no such file or directory")
  /\ (stateList.LoadExtensions (H:=h) Demo.PageList Demo.world).1.2.(log)
     = ["Missing pages directory in extension 42"]
  /\ stateList.bucket
       (stateList.List (stateList.LoadExtensions (H:=h) Demo.PageList Demo.world).1.1)
       "pages/guide.lua" = [0].
Proof. vm_compute. done. Qed.

(** C2, at the input that breaks it.  The primary tree has
    [pages/Index.lua] and the page extensions 8 and 9 each bring an
    index page: [CompileFiles] registers the first under its path as
    walked, [CompileExtensions] the others under the lower-case virtual
    path, so the registry holds the keys [pages/Index.lua] and
    [pages/index.lua] with different units.  [Get] returns the first
    entry of the range whose lower-case key matches: under one order of
    the range [Pages/Index.lua] gets the unit of the primary tree, under
    another [pages/index.lua], and [Pages/Index.lua] itself, gets the
    unit of extension 9. *)
Theorem registry_lookup_depends_on_case_collision :
  let primary :=
    compiledStateList.CompileFiles (H:=Demo2.host) Demo.CompiledPageList "pages" in
  let extended := compiledStateList.CompileExtensions (H:=Demo2.host) primary.1 "pages" in
  let order1 := ["pages/Index.lua"; "pages/index.lua"; "pages/map.lua";
                 "pages/shop/view.lua"] in
  let order2 := ["pages/index.lua"; "pages/Index.lua"; "pages/map.lua";
                 "pages/shop/view.lua"] in
  primary.2 = None /\ extended.2 = None
  /\ compiledStateList.visits_all extended.1 order1
  /\ compiledStateList.visits_all extended.1 order2
  /\ compiledStateList.Get extended.1 order1 "Pages/Index.lua"
     = Ok {| SourceName := "pages/Index.lua"; Chunk := 15 |}
  /\ compiledStateList.Get extended.1 order2 "pages/index.lua"
     = Ok {| SourceName := "extensions/9/pages/Index.lua"; Chunk := 28 |}
  /\ compiledStateList.Get extended.1 order2 "Pages/Index.lua"
     = Ok {| SourceName := "extensions/9/pages/Index.lua"; Chunk := 28 |}.
Proof.
  intros primary extended order1 order2.
  split; [reflexivity|]. split; [reflexivity|].
  split; [|split; [|repeat split; reflexivity]].
  - apply visits_all_keys; [|by vm_compute].
    apply (bool_decide_unpack _). by vm_compute.
  - apply visits_all_keys; [|by vm_compute].
    apply (bool_decide_unpack _). by vm_compute.
Qed.


(** [CompileFiles] on a tree with a script that does not compile: the
    registry is the one from before the call. *)
Example CompileFiles_keeps_registry_on_failure :
  compiledStateList.CompileFiles (H:=Demo.host []) Demo.registry_with_index
    "extensions/7/pages"
  = (Demo.registry_with_index, Some "unexpected symbol near <eof>").
Proof. reflexivity. Qed.

Example CompileFiles_replaces_registry :
  map_to_list (compiledStateList.List
    (compiledStateList.CompileFiles (H:=Demo.host []) Demo.registry_with_index "pages").1)
  = [("pages/shop/view.lua", {| SourceName := "pages/shop/view.lua"; Chunk := 19 |});
     ("pages/Index.lua", {| SourceName := "pages/Index.lua"; Chunk := 15 |})].
Proof. reflexivity. Qed.

(** The checkout cycle on the demo installation: a cold start for
    [Pages/Index.lua], the checkin, and the checkout that gets the same
    instance back. *)
Lemma checkout_checkin_checkout_demo :
  exists s1 w1 x s2 w2 s3,
    stateList.Get (H:=Demo.host []) Demo.WidgetList Demo.world "Pages/Index.lua"
    = (Ok x, s1, w1)
    /\ stateList.Put (H:=Demo.host []) s1 w1 x "Pages/Index.lua" = Returns (s2, w2)
    /\ stateList.Get (H:=Demo.host []) s2 w2 "Pages/Index.lua" = (Ok x, s3, w2).
Proof.
  assert (Hget : stateList.Get (H:=Demo.host []) Demo.WidgetList Demo.world "Pages/Index.lua"
                 = (Ok 0, Demo.WidgetList,
                    (alloc Demo.world (Demo.application_state {| stack := []; registry := ∅ |})).2))
    by reflexivity.
  assert (Hmt : stateList.has_database_metatable (H:=Demo.host [])
                  (alloc Demo.world (Demo.application_state {| stack := []; registry := ∅ |})).2 0).
  { eexists _, _. split; reflexivity. }
  destruct (checkout_checkin_checkout (H:=Demo.host []) _ _ _ _ _ _ Hget Hmt)
    as (s2 & w2 & s3 & Hput & Hget2 & _).
  eexists _, _, _, s2, w2, s3. split; [exact Hget|]. split; [exact Hput|exact Hget2].
Defined.

(** Widget and page scripts that fail to load on the demo installation:
    the widget [poll] leaves the active list and the call succeeds; the
    page script of extension 7 ends the call with an error that starts
    with the id. *)
Lemma LoadExtensions_script_failures_demo :
  let h := Demo.host [Ok "42"; Ok "7"] in
  ((stateList.LoadExtensions (H:=h) Demo.WidgetList Demo.world).2 = None
   /\ "poll" ∉ widgets (stateList.LoadExtensions (H:=h) Demo.WidgetList Demo.world).1.2)
  /\ exists extensionID e,
       (stateList.LoadExtensions (H:=h) Demo.PageList Demo.world).2
       = Some ("extension: " +:+ extensionID +:+ " " +:+ e).
Proof.
  intros h.
  assert (Hscan : forall rows : list (result string),
            rows = [Ok "42"; Ok "7"] ->
            forall row, row ∈ rows -> exists extensionID, row = Ok extensionID).
  { intros rows -> row Hrow.
    apply elem_of_cons in Hrow as [->|Hrow]; [eauto|].
    apply elem_of_cons in Hrow as [->|Hrow]; [eauto|].
    by apply elem_of_nil in Hrow. }
  assert (Hlist : forall extType extensionID,
            exists subtopicList,
              GetLuaFiles (Host:=h) (stateList.extension_dir extensionID extType)
              = Ok subtopicList).
  { intros extType id. simpl. unfold Demo.lua_files.
    destruct (String.eqb _ _); [eauto|]. destruct (String.eqb _ _); eauto. }
  split.
  - destruct (stateList.LoadExtensions (H:=h) Demo.WidgetList Demo.world)
      as [[s' w'] err] eqn:Hrun.
    destruct (LoadExtensions_script_failures (H:=h) Demo.WidgetList s' Demo.world w'
                [Ok "42"; Ok "7"] err eq_refl (Hscan _ eq_refl)
                (fun id _ _ => Hlist "widgets" id) Hrun) as [Hwidget _].
    destruct (Hwidget eq_refl) as [Herr Hall]. split; [exact Herr|].
    apply (Hall "7" "extensions/7/widgets/poll/poll.lua").
    split; [apply elem_of_cons; right; apply elem_of_cons; by left|].
    split; [reflexivity|]. eexists. split; [reflexivity|].
    apply elem_of_cons; right; apply elem_of_cons; by left.
  - destruct (stateList.LoadExtensions (H:=h) Demo.PageList Demo.world)
      as [[s' w'] err] eqn:Hrun.
    destruct (LoadExtensions_script_failures (H:=h) Demo.PageList s' Demo.world w'
                [Ok "42"; Ok "7"] err eq_refl (Hscan _ eq_refl)
                (fun id _ _ => Hlist "pages" id) Hrun) as [_ Hpage].
    destruct (Hpage eq_refl) as [Habort Hid]. simpl.
    destruct (Habort "7" "extensions/7/pages/broken.lua" "attempt to call a nil value")
      as [message ->].
    + split; [apply elem_of_cons; right; apply elem_of_cons; by left|].
      split; [reflexivity|]. eexists. split; [reflexivity|].
      apply elem_of_cons; right; apply elem_of_cons; by left.
    + reflexivity.
    + destruct (Hid message eq_refl) as (id & f & e & _ & _ & ->). by exists id, e.
Defined.

(** [CompileExtensions] on the demo installation: [Guide.lua] of
    extension 7 is merged, [broken.lua] ends the call, and the registry
    still holds the merged unit beside the one it held before. *)
Lemma CompileExtensions_not_atomic_demo :
  let h := Demo.host [Ok "7"; Ok "42"] in
  exists s',
    compiledStateList.CompileExtensions (H:=h) Demo.registry_with_index "pages"
    = (s', Some "unexpected symbol near <eof>")
    /\ is_Some (compiledStateList.List s' !! "pages/guide.lua")
    /\ is_Some (compiledStateList.List s' !! "pages/Index.lua").
Proof.
  intros h.
  pose (steps := compiledStateList.ext_steps (H:=h) "pages" [Ok "7"; Ok "42"]).
  destruct (CompileExtensions_not_atomic (H:=h) Demo.registry_with_index "pages"
              [Ok "7"; Ok "42"] (take 2 steps) (drop 3 steps)
              (compiledStateList.Visit "extensions/7/pages"
                 {| vpath := "extensions/7/pages/broken.lua";
                    varg := Entry {| Name := "broken.lua"; IsDir := false |} |})
              "unexpected symbol near <eof>" eq_refl eq_refl)
    as (s' & Hrun & Hlist & Hold & Hnew).
  - repeat constructor.
  - reflexivity.
  - exists s'. split; [exact Hrun|]. split.
    + apply (Hnew "pages/guide.lua"
               {| SourceName := "extensions/7/pages/Guide.lua"; Chunk := 28 |}).
      apply elem_of_cons; by left.
    + apply Hold. simpl. rewrite lookup_singleton_eq. eauto.
Defined.

End DemoRuns.

(** ** The player bindings *)

Section Bridge.
Import Lua GoStrings Models PlayerBridge.
Context `{DataLayer}.

Lemma returned_push (L : LState) (v : LValue) (evs : list event) :
  returned {| events := evs; final := Push L v; result := Return 1 |} = [v].
Proof.
  unfold returned, Push. simpl. rewrite length_app. simpl.
  replace (length (stack L) + 1 - 1) with (length (stack L)) by lia.
  by rewrite drop_app_length.
Qed.

(** A handle built around [player] has [player] behind it, when neither
    the method table nor the projection has a field [__player]. *)
Lemma createPlayerMetaTable_backing (player : option Player) (t : LValue) :
  playerMethods !! "__player" = None ->
  (forall p fields, StructToTable (OfPlayer p) = Env.Returns fields ->
                    fields !! "__player" = None) ->
  createPlayerMetaTable player = Env.Returns t ->
  backing t = LUserData player.
Proof.
  intros Hm Hp. unfold createPlayerMetaTable.
  destruct (StructToTable (OfPlayer player)) as [fields|why] eqn:Hfields; [|done].
  intros [= <-]. unfold backing, GetField, MergeTableFields.
  rewrite lookup_union_r by (by eapply Hp).
  rewrite lookup_union_r by done.
  by rewrite lookup_insert_eq.
Qed.

Lemma PlayerConstructor_lookup (L : LState) :
  exists evs,
    PlayerConstructor L
    = match bind_lookup L with
      | (_, Some _) => {| events := evs; final := Push L LNil; result := Return 1 |}
      | (player, None) =>
          match createPlayerMetaTable player with
          | Env.Panics why => {| events := evs; final := L; result := GoPanic why |}
          | Env.Returns t => {| events := evs; final := Push L t; result := Return 1 |}
          end
      end.
Proof.
  unfold PlayerConstructor, bind_lookup.
  destruct (Lua.Get L 1) eqn:Hv; simpl;
    repeat match goal with
           | |- context [GetPlayerByID ?i] => destruct (GetPlayerByID i) as [? [?|]]
           | |- context [GetPlayerByName ?i] => destruct (GetPlayerByName i) as [? [?|]]
           end; simpl; eauto.
Qed.

(** C7, as amended.  For a numeric or string argument: when the lookup
    reports an error, whichever it is, [PlayerConstructor] returns nil
    and nothing else; and whatever it returns is nil or a handle with a
    player behind it, given that the data layer hands out a player
    whenever it reports no error and that neither the method table nor
    the projection has a field named [__player]. *)
Theorem PlayerConstructor_nil_on_any_error (L : LState) :
  Type_ (Lua.Get L 1) = LTNumber \/ Type_ (Lua.Get L 1) = LTString ->
  (forall id p, GetPlayerByID id = (p, None) -> is_Some p) ->
  (forall name p, GetPlayerByName name = (p, None) -> is_Some p) ->
  playerMethods !! "__player" = None ->
  (forall p fields, StructToTable (OfPlayer p) = Env.Returns fields ->
                    fields !! "__player" = None) ->
  (forall e, (bind_lookup L).2 = Some e ->
             result (PlayerConstructor L) = Return 1
             /\ returned (PlayerConstructor L) = [LNil]) /\
  (forall v, returned (PlayerConstructor L) = [v] ->
             v = LNil \/ exists player, backing v = LUserData (Some player)).
Proof.
  intros Harg Hid Hname Hm Hp.
  destruct (PlayerConstructor_lookup L) as [evs ->].
  destruct (bind_lookup L) as [player [e|]] eqn:Hlookup; simpl.
  - split.
    + intros _ _. by rewrite returned_push.
    + rewrite returned_push. intros v [= <-]. by left.
  - split; [done|].
    assert (is_Some player) as [p ->].
    { unfold bind_lookup in Hlookup.
      destruct Harg as [Hn|Hs]; [rewrite Hn in Hlookup|rewrite Hs in Hlookup]; eauto. }
    destruct (createPlayerMetaTable (Some p)) as [t|why] eqn:Ht; [|done].
    rewrite returned_push. intros v [= <-]. right. exists p.
    by apply createPlayerMetaTable_backing.
Qed.

(** The loops over the column list pass over a name that is not in it. *)
Lemma set_custom_field_skips L player fieldName fieldValue evs nameList :
  fieldName ∉ ColumnName <$> nameList ->
  set_custom_field L player fieldName fieldValue evs nameList
  = {| events := evs; final := L; result := Return 0 |}.
Proof.
  induction nameList as [|column rest IH]; [done|].
  intros Hnot. apply not_elem_of_cons in Hnot as [Hne Hrest]. simpl.
  destruct (String.eqb _ _) eqn:Heq; [|by apply IH].
  apply String.eqb_eq in Heq. congruence.
Qed.

Lemma get_custom_field_skips L player fieldName evs nameList :
  fieldName ∉ ColumnName <$> nameList ->
  get_custom_field L player fieldName evs nameList
  = {| events := evs; final := Push L LNil; result := Return 1 |}.
Proof.
  induction nameList as [|column rest IH]; [done|].
  intros Hnot. apply not_elem_of_cons in Hnot as [Hne Hrest]. simpl.
  destruct (String.eqb _ _) eqn:Heq; [|by apply IH].
  apply String.eqb_eq in Heq. congruence.
Qed.

(** A query the loops send has a name of the column list in it. *)
Lemma set_custom_field_queries L player fieldName fieldValue evs nameList q args :
  EvExec q args ∈ events (set_custom_field L player fieldName fieldValue evs nameList) ->
  EvExec q args ∈ evs \/
  (q = update_query fieldName /\ fieldName ∈ ColumnName <$> nameList).
Proof.
  induction nameList as [|column rest IH]; [by left|]. simpl.
  destruct (String.eqb _ _) eqn:Heq.
  - apply String.eqb_eq in Heq.
    assert (Hin : fieldName ∈ ColumnName <$> column :: rest).
    { cbn. rewrite Heq. apply list_elem_of_here. }
    destruct player as [player|]; [|by left]. cbn [deref].
    assert (Hexec : forall evs',
      EvExec q args ∈ ((evs ++ [EvExec (update_query fieldName)
                                   [ArgString (String_ fieldValue); ArgInt (ID player)]])
                       ++ evs')%list ->
      (forall e, e ∈ evs' -> e <> EvExec q args) ->
      EvExec q args ∈ evs \/ (q = update_query fieldName /\ fieldName ∈ ColumnName <$> column :: rest)).
    { intros evs' Hq Hevs'. apply elem_of_app in Hq as [Hq|Hq]; [|by destruct (Hevs' _ Hq)].
      apply elem_of_app in Hq as [Hq|Hq]; [by left|].
      apply list_elem_of_singleton in Hq. injection Hq as -> _. by right. }
    destruct (Exec _ _).
    { simpl. intros Hq. apply (Hexec []); [by rewrite app_nil_r|].
      intros ev Hev. by apply elem_of_nil in Hev. }
    assert (Hget : forall ev, ev ∈ [EvGetPlayerByID (ID player)] -> ev <> EvExec q args).
    { intros ev Hev. apply list_elem_of_singleton in Hev. by subst. }
    destruct (GetPlayerByID _) as [p [err|]]; simpl.
    { intros Hq. by apply (Hexec [EvGetPlayerByID (ID player)]). }
    destruct (Lua.Get L 1); simpl; repeat case_match; simpl;
      intros Hq; by apply (Hexec [EvGetPlayerByID (ID player)]).
  - intros Hq. destruct (IH Hq) as [Hq'|[-> Hin]]; [by left|right].
    split; [done|]. cbn. by apply list_elem_of_further.
Qed.

Lemma get_custom_field_queries L player fieldName evs nameList q args :
  EvGet q args ∈ events (get_custom_field L player fieldName evs nameList) ->
  EvGet q args ∈ evs \/
  (q = select_query fieldName /\ fieldName ∈ ColumnName <$> nameList).
Proof.
  induction nameList as [|column rest IH]; [by left|]. simpl.
  destruct (String.eqb _ _) eqn:Heq.
  - apply String.eqb_eq in Heq.
    assert (Hin : fieldName ∈ ColumnName <$> column :: rest).
    { cbn. rewrite Heq. apply list_elem_of_here. }
    destruct player as [player|]; [|by left]. cbn [deref].
    destruct (DBGet _ _); simpl; intros Hq;
      (apply elem_of_app in Hq as [Hq|Hq]; [by left|]);
      apply list_elem_of_singleton in Hq; injection Hq as -> _; by right.
  - intros Hq. destruct (IH Hq) as [Hq'|[-> Hin]]; [by left|right].
    split; [done|]. cbn. by apply list_elem_of_further.
Qed.

(** C8.  On a handle of [player], with the column list the catalog
    query returns: for a field name that is not in the list,
    [SetPlayerCustomField] returns without an error, having sent the
    catalog query and nothing else, and leaves the handle as it was;
    [GetPlayerCustomField] returns nil, having sent the catalog query and
    nothing else; and for any field name, an [UPDATE] or [SELECT] the two
    send is the one built from a name of the list. *)
Theorem custom_field_allow_list (L : LState) (player : Player) (nameList : list PlayerColumn) :
  getPlayerObject L = Env.Returns (Some player) ->
  Select column_query column_args = Ok nameList ->
  (ToString L 2 ∉ ColumnName <$> nameList ->
     SetPlayerCustomField L
     = {| events := [EvSelect column_query column_args]; final := L; result := Return 0 |}
     /\ events (GetPlayerCustomField L) = [EvSelect column_query column_args]
     /\ result (GetPlayerCustomField L) = Return 1
     /\ returned (GetPlayerCustomField L) = [LNil]) /\
  (forall q args,
     EvExec q args ∈ events (SetPlayerCustomField L) ->
     exists name, name ∈ ColumnName <$> nameList /\ q = update_query name) /\
  (forall q args,
     EvGet q args ∈ events (GetPlayerCustomField L) ->
     exists name, name ∈ ColumnName <$> nameList /\ q = select_query name).
Proof.
  intros Hplayer Hcatalog.
  unfold SetPlayerCustomField, GetPlayerCustomField, with_player.
  rewrite Hplayer, Hcatalog. split; [|split].
  - intros Hnot. rewrite set_custom_field_skips, get_custom_field_skips by done.
    split; [done|]. split; [done|]. split; [done|]. apply returned_push.
  - intros q args Hq. apply set_custom_field_queries in Hq as [Hq|[-> Hin]]; [|eauto].
    apply list_elem_of_singleton in Hq. done.
  - intros q args Hq. apply get_custom_field_queries in Hq as [Hq|[-> Hin]]; [|eauto].
    apply list_elem_of_singleton in Hq. done.
Qed.

(** X23.  The storage bindings check the types of the key and of the
    value before the data layer is called. *)
Lemma storage_bindings_check_types (L : LState) (player : Player) :
  getPlayerObject L = Env.Returns (Some player) ->
  (Type_ (Lua.Get L 2) <> LTNumber ->
     GetPlayerStorageValue L
     = {| events := []; final := L;
          result := ArgError 1 "Invalid key type. Expected number" |}
     /\ SetPlayerStorageValue L
        = {| events := []; final := L;
             result := ArgError 1 "Invalid key type. Expected number" |}) /\
  (Type_ (Lua.Get L 2) = LTNumber -> Type_ (Lua.Get L 3) <> LTNumber ->
     SetPlayerStorageValue L
     = {| events := []; final := L;
          result := ArgError 1 "Invalid value type. Expected number" |}).
Proof.
  intros Hplayer. unfold GetPlayerStorageValue, SetPlayerStorageValue, with_player.
  rewrite Hplayer. split.
  - intros Hkey. by rewrite !decide_True.
  - intros Hkey Hval. rewrite decide_False by (by intros []).
    by rewrite decide_True.
Qed.

(** X24.  [SetPlayerBankBalance] checks nothing: an argument that is
    neither a number nor a string is read as 0 and written. *)
Lemma SetPlayerBankBalance_unchecked (L : LState) (player : Player) :
  getPlayerObject L = Env.Returns (Some player) ->
  Type_ (Lua.Get L 2) <> LTNumber ->
  Type_ (Lua.Get L 2) <> LTString ->
  events (SetPlayerBankBalance L) = [EvSetBalance player 0] /\
  forall n message, result (SetPlayerBankBalance L) <> ArgError n message.
Proof.
  intros Hplayer Hnum Hstr. unfold SetPlayerBankBalance, with_player. rewrite Hplayer.
  assert (ToInt L 2 = 0%Z) as ->.
  { unfold ToInt. by destruct (Lua.Get L 2). }
  cbn [call_SetBalance]. by destruct (SetBalance player 0).
Qed.

End Bridge.

(** ** The bindings on the demo data layer *)

Section BridgeDemo.
Import Lua GoStrings Models PlayerBridge.

Lemma demo_lookup_player (up found : bool) (p : option Player) :
  Demo.lookup up found = (p, None) -> is_Some p.
Proof.
  unfold Demo.lookup. destruct up, found; simpl; intros [= <-]; eauto.
Defined.

Lemma demo_project_player (p : option Player) (fields : gmap string LValue) :
  Demo.project (OfPlayer p) = Env.Returns fields -> fields !! "__player" = None.
Proof. destruct p; simpl; intros [= <-]; reflexivity. Defined.

(** C7 as stated fails on [PlayerConstructor]: the name of a player that
    does not exist and a database that cannot be reached give different
    errors in the data layer and the same nil to the script; and an
    argument that is neither a number nor a string gets a handle with
    nothing behind it (here with a projection that accepts a nil
    player). *)
Lemma PlayerConstructor_collapses_errors :
  (GetPlayerByName (DataLayer:=Demo.data true) "alice").2
  = Some "sql: no rows in result set"
  /\ (GetPlayerByName (DataLayer:=Demo.data false) "alice").2
     = Some "dial tcp 127.0.0.1:3306: connect: connection refused"
  /\ returned (PlayerConstructor (H:=Demo.data true) (Demo.call_with [LString "alice"]))
     = [LNil]
  /\ returned (PlayerConstructor (H:=Demo.data false) (Demo.call_with [LString "alice"]))
     = [LNil]
  /\ exists handle,
       returned (PlayerConstructor (H:=Demo.data true) (Demo.call_with [LBool true]))
       = [handle]
       /\ backing handle = LUserData None.
Proof.
  split; [reflexivity|]. split; [reflexivity|]. split; [reflexivity|].
  split; [reflexivity|]. eexists. split; reflexivity.
Qed.

(** The amended C7 on the demo data layer: nil for [alice], and for
    [Kael] a handle with a player behind it. *)
Lemma PlayerConstructor_nil_on_any_error_demo :
  returned (PlayerConstructor (H:=Demo.data true) (Demo.call_with [LString "alice"])) = [LNil]
  /\ exists v,
       returned (PlayerConstructor (H:=Demo.data true) (Demo.call_with [LString "Kael"])) = [v]
       /\ (v = LNil \/ exists player, backing v = LUserData (Some player)).
Proof.
  split.
  - refine (proj2 (proj1 (PlayerConstructor_nil_on_any_error (H:=Demo.data true)
                            (Demo.call_with [LString "alice"])
                            (or_intror eq_refl)
                            (fun id p => demo_lookup_player true _ p)
                            (fun name p => demo_lookup_player true _ p)
                            eq_refl demo_project_player)
                     "sql: no rows in result set" eq_refl)).
  - eexists. split; [reflexivity|].
    refine (proj2 (PlayerConstructor_nil_on_any_error (H:=Demo.data true)
                     (Demo.call_with [LString "Kael"])
                     (or_intror eq_refl)
                     (fun id p => demo_lookup_player true _ p)
                     (fun name p => demo_lookup_player true _ p)
                     eq_refl demo_project_player) _ eq_refl).
Defined.

(** C8 on the demo data layer: a column that the players table does not
    have. *)
Lemma custom_field_allow_list_demo :
  let L := Demo.call_with [Demo.kael_handle; LString "unknown_column"; LString "1"] in
  SetPlayerCustomField (H:=Demo.data true) L
  = {| events := [EvSelect column_query (column_args (H:=Demo.data true))];
       final := L; result := Return 0 |}
  /\ returned (GetPlayerCustomField (H:=Demo.data true) L) = [LNil].
Proof.
  intros L.
  destruct (custom_field_allow_list (H:=Demo.data true) L Demo.kael
              [ {| ColumnName := "id" |}; {| ColumnName := "name" |};
                {| ColumnName := "level" |}; {| ColumnName := "balance" |} ]
              eq_refl eq_refl) as [Hskip _].
  destruct Hskip as (Hset & _ & _ & Hget).
  - intros Hin.
    repeat (apply elem_of_cons in Hin as [Hin|Hin]; [discriminate Hin|]).
    by apply elem_of_nil in Hin.
  - split; [exact Hset|exact Hget].
Defined.

(** C9, at the input that breaks it: [setBankBalance(true)] on the
    handle of Kael writes a balance of 0 and raises nothing, where
    [setStorageValue(true, 5)] is refused before the data layer is
    called. *)
Theorem SetPlayerBankBalance_accepts_any_type :
  let L := Demo.call_with [Demo.kael_handle; LBool true] in
  SetPlayerBankBalance (H:=Demo.data true) L
  = {| events := [EvSetBalance Demo.kael 0]; final := L; result := Return 0 |}
  /\ SetPlayerStorageValue (H:=Demo.data true)
       (Demo.call_with [Demo.kael_handle; LBool true; LNumber 5])
     = {| events := [];
          final := Demo.call_with [Demo.kael_handle; LBool true; LNumber 5];
          result := ArgError 1 "Invalid key type. Expected number" |}.
Proof. split; reflexivity. Qed.

End BridgeDemo.

(** * Further properties of the pool *)

Section PoolMore.
Import Lua GoStrings Env.
Import stateList.
Context `{Host}.

Lemma elem_of_snoc {A : Type} (l : list A) (x y : A) :
  y ∈ (l ++ [x])%list <-> y ∈ l \/ y = x.
Proof. by rewrite elem_of_app, list_elem_of_singleton. Qed.

Lemma bucket_empty (q : string) : bucket ∅ q = [].
Proof. unfold bucket. by rewrite lookup_empty. Qed.

Lemma bucket_insert (pool : gmap string (list nat)) (path q : string) (b : list nat) :
  bucket (<[path := b]> pool) q = if decide (path = q) then b else bucket pool q.
Proof.
  destruct (decide (path = q)) as [<-|Hne];
    [apply bucket_insert_eq | by apply bucket_insert_ne].
Qed.

(** Pushing a pointer that is beyond every pooled one keeps the pool
    exclusive. *)
Lemma exclusive_push (pool : gmap string (list nat)) (lo hi x : nat) (path : string) :
  exclusive pool -> pool_within pool lo hi -> hi <= x ->
  exclusive (<[path := (bucket pool path ++ [x])%list]> pool).
Proof.
  intros [Hnd Hone] Hin Hx.
  assert (Hfresh : forall q, x ∉ bucket pool q).
  { intros q Hq. apply Hin in Hq. lia. }
  split.
  - intros q. rewrite bucket_insert. case_decide as Hq; [|apply Hnd].
    apply NoDup_app. split; [apply Hnd|]. split; [|apply NoDup_singleton].
    intros y Hy ->%list_elem_of_singleton. by apply (Hfresh path).
  - intros p q y. rewrite !bucket_insert.
    intros Hp Hq. destruct (decide (path = p)) as [<-|Hp'], (decide (path = q)) as [<-|Hq'];
      try done.
    + apply elem_of_snoc in Hp as [Hp| ->];
        [by apply (Hone _ _ y)|by destruct (Hfresh q)].
    + apply elem_of_snoc in Hq as [Hq| ->];
        [by apply (Hone _ _ y)|by destruct (Hfresh p)].
    + by apply (Hone _ _ y).
Qed.

Lemma pool_within_push (pool : gmap string (list nat)) (lo hi : nat) (path : string) :
  pool_within pool lo hi -> lo <= hi ->
  pool_within (<[path := (bucket pool path ++ [hi])%list]> pool) lo (S hi).
Proof.
  intros Hin Hlo q y. rewrite bucket_insert. case_decide.
  - intros [Hy| ->]%elem_of_snoc; [apply Hin in Hy|]; lia.
  - intros Hy. apply Hin in Hy. lia.
Qed.

Lemma loaded_ok_push lo pool w L path :
  loaded_ok lo pool w ->
  loaded_ok lo (<[path := (bucket pool path ++ [length (heap w)])%list]> pool) (alloc w L).2.
Proof.
  intros (Hex & Hin & Hlo). split; [|split]; simpl.
  - by eapply exclusive_push.
  - rewrite length_app. simpl. replace (length (heap w) + 1) with (S (length (heap w))) by lia.
    by apply pool_within_push.
  - rewrite length_app. lia.
Qed.

Lemma loaded_ok_grow lo pool w w' :
  loaded_ok lo pool w -> length (heap w) <= length (heap w') -> loaded_ok lo pool w'.
Proof.
  intros (Hex & Hin & Hlo) Hlen. split; [done|]. split; [|lia].
  intros q x Hx. apply Hin in Hx. lia.
Qed.

Lemma load_files_ok lo subtopicList pool w pool' w' err :
  load_files subtopicList pool w = (pool', w', err) ->
  loaded_ok lo pool w -> loaded_ok lo pool' w'.
Proof.
  revert pool w. induction subtopicList as [|f rest IH]; intros pool w; simpl.
  { by intros [= <- <- <-]. }
  destruct (DoFile f fresh_state) as [L [e|]].
  - intros [= <- <- <-] Hok. eapply loaded_ok_grow; [done|].
    simpl. rewrite length_app. lia.
  - intros Hrest Hok. eapply IH; [exact Hrest|]. by apply (loaded_ok_push lo pool w L).
Qed.

Lemma load_scripts_ok lo extType extensionID dir subtopicList pool w pool' w' err :
  load_scripts extType extensionID dir subtopicList pool w = (pool', w', err) ->
  loaded_ok lo pool w -> loaded_ok lo pool' w'.
Proof.
  revert pool w. induction subtopicList as [|f rest IH]; intros pool w; simpl.
  { by intros [= <- <- <-]. }
  destruct (DoFile f fresh_state) as [L [e|]].
  - destruct (String.eqb extType "widgets").
    + intros Hrest Hok. eapply IH; [exact Hrest|].
      eapply loaded_ok_grow; [done|]. simpl. rewrite length_app. lia.
    + intros [= <- <- <-] Hok. eapply loaded_ok_grow; [done|].
      simpl. rewrite length_app. lia.
  - intros Hrest Hok. eapply IH; [exact Hrest|]. by apply (loaded_ok_push lo pool w L).
Qed.

Lemma load_rows_ok lo extType rows pool w pool' w' err :
  load_rows extType rows pool w = (pool', w', err) ->
  loaded_ok lo pool w -> loaded_ok lo pool' w'.
Proof.
  revert pool w. induction rows as [|[id|e] rows IH]; intros pool w; simpl.
  - by intros [= <- <- <-].
  - destruct (Stat _).
    + destruct (GetLuaFiles _) as [subs|e]; [|by intros [= <- <- <-]].
      destruct (load_scripts _ _ _ _ _ _) as [[pool1 w1] [e|]] eqn:Hscripts.
      * intros [= <- <- <-] Hok. by eapply load_scripts_ok.
      * intros Hrest Hok. eapply IH; [exact Hrest|]. by eapply load_scripts_ok.
    + intros Hrest Hok. eapply IH; [exact Hrest|]. by eapply loaded_ok_grow.
    + apply IH.
  - by intros [= <- <- <-].
Qed.

Lemma loaded_ok_empty (w : World) : loaded_ok (length (heap w)) ∅ w.
Proof.
  split; [|split; [|done]].
  - split.
    + intros q. rewrite bucket_empty. apply NoDup_nil_2.
    + intros p q x Hx. rewrite bucket_empty in Hx. by apply elem_of_nil in Hx.
  - intros q x Hx. rewrite bucket_empty in Hx. by apply elem_of_nil in Hx.
Qed.

(** X1.  Whatever [Load] and [LoadExtensions] return, the pool they
    leave holds no state twice, and every pooled pointer is a state the
    call itself created and that is in the heap: nothing that was pooled
    before the call is pooled after it. *)
Theorem loads_leave_an_exclusive_pool (s : stateList.t) (w : World) (dir : string) :
  (exclusive (List (Load s w dir).1.1) /\
   pool_within (List (Load s w dir).1.1)
     (length (heap w)) (length (heap (Load s w dir).1.2))) /\
  (exclusive (List (LoadExtensions s w).1.1) /\
   pool_within (List (LoadExtensions s w).1.1)
     (length (heap w)) (length (heap (LoadExtensions s w).1.2))).
Proof.
  split.
  - unfold Load. destruct (GetLuaFiles dir) as [l|e]; simpl.
    + destruct (load_files l ∅ w) as [[pool w1] err] eqn:Hl. simpl.
      destruct (load_files_ok _ _ _ _ _ _ _ Hl (loaded_ok_empty w)) as (? & ? & ?). done.
    + destruct (loaded_ok_empty w) as (? & ? & ?). done.
  - unfold LoadExtensions. destruct (Queryx _) as [rows|e]; simpl.
    + destruct (load_rows _ rows ∅ w) as [[pool w1] err] eqn:Hl. simpl.
      destruct (load_rows_ok _ _ _ _ _ _ _ _ Hl (loaded_ok_empty w)) as (? & ? & ?). done.
    + destruct (loaded_ok_empty w) as (? & ? & ?). done.
Qed.

(** The files of a prefix that all load are pooled one after the other,
    each behind a pointer of its own. *)
Lemma load_files_prefix (pre rest : list string) (pool : gmap string (list nat)) (w : World) :
  Forall (fun g => (DoFile g fresh_state).2 = None) pre ->
  exists pool1,
    load_files (pre ++ rest) pool w
    = load_files rest pool1
        {| heap := (heap w ++ ((fun g => (DoFile g fresh_state).1) <$> pre))%list;
           widgets := widgets w; log := log w |}
    /\ forall q, bucket pool1 q = (bucket pool q ++ pushed (length (heap w)) pre q)%list.
Proof.
  intros Hpre. revert pool w. induction Hpre as [|f pre Hf _ IH]; intros pool w.
  { exists pool. simpl. rewrite app_nil_r. split; [by destruct w|].
    intros q. by rewrite app_nil_r. }
  cbn [app load_files]. destruct (DoFile f fresh_state) as [L [e|]] eqn:Hdo; [done|].
  cbn [alloc]. 
  destruct (IH (<[ToLower f := (bucket pool (ToLower f) ++ [length (heap w)])%list]> pool)
              {| heap := (heap w ++ [L])%list; widgets := widgets w; log := log w |})
    as (pool1 & Hrun & Hb).
  exists pool1. split.
  - rewrite Hrun. cbn [heap widgets log fmap list_fmap]. rewrite Hdo. cbn [fst].
    by rewrite <- app_assoc.
  - intros q. rewrite Hb, bucket_insert. cbn [heap pushed].
    rewrite length_app. cbn [length].
    replace (length (heap w) + 1) with (S (length (heap w))) by lia.
    case_decide as Hq; [subst q; by rewrite <- app_assoc|done].
Qed.

(** X2.  When the listing succeeds and every listed file loads, [Load]
    returns no error, throws away what the pool held and pools exactly
    one new state per file, in the order of the listing, under the
    lower-case form of the path; the states are appended to the heap in
    the same order. *)
Theorem Load_pools_each_file
    (s : stateList.t) (w : World) (dir : string) (subtopicList : list string) :
  GetLuaFiles dir = Ok subtopicList ->
  Forall (fun g => (DoFile g fresh_state).2 = None) subtopicList ->
  exists s',
    Load s w dir
    = (s', {| heap := (heap w ++ ((fun g => (DoFile g fresh_state).1) <$> subtopicList))%list;
              widgets := widgets w; log := log w |}, None)
    /\ Type_ s' = Type_ s
    /\ forall q, bucket (List s') q = pushed (length (heap w)) subtopicList q.
Proof.
  intros Hlist Hall. unfold Load. rewrite Hlist.
  destruct (load_files_prefix subtopicList [] ∅ w Hall) as (pool1 & Hrun & Hb).
  rewrite app_nil_r in Hrun. rewrite Hrun. simpl.
  eexists. split; [done|]. split; [done|]. intros q. simpl. by rewrite Hb, bucket_empty.
Qed.

(** X3.  [Load] is not all or nothing: when the file [f] fails after the
    files [pre] have loaded, the call returns the error of [f], the old
    pool is gone, and the pool holds the states of [pre] and nothing
    else; the state that [f] was run in is left in the heap, unpooled. *)
Theorem Load_stops_at_first_failure
    (s : stateList.t) (w : World) (dir f : string) (pre post : list string) (e : error) :
  GetLuaFiles dir = Ok (pre ++ f :: post)%list ->
  Forall (fun g => (DoFile g fresh_state).2 = None) pre ->
  (DoFile f fresh_state).2 = Some e ->
  exists s',
    Load s w dir
    = (s', {| heap := (heap w ++ ((fun g => (DoFile g fresh_state).1) <$> pre ++ [f]))%list;
              widgets := widgets w; log := log w |}, Some e)
    /\ forall q, bucket (List s') q = pushed (length (heap w)) pre q.
Proof.
  intros Hlist Hpre Hf. unfold Load. rewrite Hlist.
  destruct (load_files_prefix pre (f :: post) ∅ w Hpre) as (pool1 & Hrun & Hb).
  rewrite Hrun. cbn [load_files]. destruct (DoFile f fresh_state) as [L [e'|]] eqn:Hdo; [|done].
  simpl in Hf. injection Hf as ->. cbn [alloc heap widgets log].
  eexists. split.
  - rewrite fmap_app. cbn [fmap list_fmap]. rewrite Hdo. cbn [fst].
    by rewrite <- app_assoc.
  - intros q. simpl. by rewrite Hb, bucket_empty.
Qed.



(** What [Put] computes when it returns. *)
Lemma Put_Returns_inv (s s1 : stateList.t) (w w1 : World) (x : nat) (P : string) :
  Put s w x P = Returns (s1, w1) ->
  exists L fields,
    heap w !! x = Some L /\
    registry L !! DatabaseMetaTableName = Some (LTable fields) /\
    s1 = {| List := <[ToLower P := (bucket (List s) (ToLower P) ++ [x])%list]> (List s);
            Type_ := Type_ s |} /\
    w1 = store w x
           {| stack := stack L;
              registry :=
                <[DatabaseMetaTableName :=
                    LTable (<[DatabaseTransactionStatusFieldName := LBool false]> fields)]>
                  (registry L) |}.
Proof.
  unfold Put. destruct (heap w !! x) as [L|] eqn:HL; [|done].
  unfold GetTypeMetatable.
  destruct (registry L !! DatabaseMetaTableName) as [[| | | | | |fields]|] eqn:Hreg;
    simpl; try done.
  intros [= <- <-]. by exists L, fields.
Qed.

(** X5.  [Put] returns exactly for a state that is in the heap and has
    its database metatable registered as a table; for every other
    pointer it panics and pools nothing. *)
Theorem Put_returns_iff (s : stateList.t) (w : World) (x : nat) (P : string) :
  (exists s1 w1, Put s w x P = Returns (s1, w1)) <-> has_database_metatable w x.
Proof.
  split.
  - intros (s1 & w1 & Hput).
    destruct (Put_Returns_inv _ _ _ _ _ _ Hput) as (L & fields & HL & Hreg & _).
    by exists L, fields.
  - intros Hmt. destruct (Put_returns s w x P Hmt) as [w1 Hput]. eauto.
Qed.

(** X6.  What a [Put] that returns has changed, and nothing else: the
    bucket of the lower-case path has the state at its end; in the heap
    only the checked-in state differs, and of it only the field
    [DatabaseTransactionStatusFieldName] of the database metatable; the
    other buckets, the other states, the stack and the other registry
    entries of the state, the widget list and the log are as before. *)
Theorem Put_changes_only_marker_and_bucket
    (s s1 : stateList.t) (w w1 : World) (x : nat) (P : string) :
  Put s w x P = Returns (s1, w1) ->
  Type_ s1 = Type_ s /\
  (forall q, bucket (List s1) q
             = if decide (ToLower P = q) then (bucket (List s) q ++ [x])%list
               else bucket (List s) q) /\
  widgets w1 = widgets w /\ log w1 = log w /\ length (heap w1) = length (heap w) /\
  (forall y, y <> x -> heap w1 !! y = heap w !! y) /\
  exists L L1,
    heap w !! x = Some L /\ heap w1 !! x = Some L1 /\
    stack L1 = stack L /\
    (forall name, name <> DatabaseMetaTableName -> registry L1 !! name = registry L !! name) /\
    (forall key, key <> DatabaseTransactionStatusFieldName ->
       GetField (GetTypeMetatable L1 DatabaseMetaTableName) key
       = GetField (GetTypeMetatable L DatabaseMetaTableName) key).
Proof.
  intros Hput.
  destruct (Put_Returns_inv _ _ _ _ _ _ Hput) as (L & fields & HL & Hreg & -> & ->).
  simpl. split; [done|]. split.
  { intros q. rewrite bucket_insert. by case_decide; subst. }
  split; [done|]. split; [done|]. split; [by rewrite length_insert|].
  split; [intros y Hy; by apply list_lookup_insert_ne|].
  eexists L, _. split; [done|]. split.
  { apply list_lookup_insert_eq. by eapply lookup_lt_Some. }
  simpl. split; [done|]. split.
  - intros name Hname. by rewrite lookup_insert_ne.
  - intros key Hkey. unfold GetTypeMetatable. simpl.
    rewrite lookup_insert_eq, Hreg. simpl. by rewrite lookup_insert_ne.
Qed.

(** [Put] leaves every state that has a database metatable with one. *)
Lemma Put_keeps_metatables (s s1 : stateList.t) (w w1 : World) (x y : nat) (P : string) :
  Put s w x P = Returns (s1, w1) ->
  has_database_metatable w y -> has_database_metatable w1 y.
Proof.
  intros Hput (Ly & fy & HLy & Hregy).
  destruct (Put_Returns_inv _ _ _ _ _ _ Hput) as (L & fields & HL & Hreg & -> & ->).
  unfold has_database_metatable, store. simpl.
  destruct (decide (y = x)) as [->|Hne].
  - eexists _, _. split.
    + apply list_lookup_insert_eq. by eapply lookup_lt_Some.
    + simpl. by rewrite lookup_insert_eq.
  - exists Ly, fy. split; [|done]. by rewrite list_lookup_insert_ne.
Qed.

(** X7.  The pool is a stack per path, and [Put] does not look for the
    state in the pool: after the checkin of [x] and then of [y] under
    one path, two checkouts of that path return [y] and then [x], and
    the pool is as it was before; this holds for [y = x] too, so a state
    checked in twice is handed out twice. *)
Theorem checkins_pop_in_reverse
    (s : stateList.t) (w : World) (x y : nat) (P : string) :
  has_database_metatable w x ->
  has_database_metatable w y ->
  exists s1 w1 s2 w2 s3 s4,
    Put s w x P = Returns (s1, w1) /\
    Put s1 w1 y P = Returns (s2, w2) /\
    Get s2 w2 P = (Ok y, s3, w2) /\
    Get s3 w2 P = (Ok x, s4, w2) /\
    forall q, bucket (List s4) q = bucket (List s) q.
Proof.
  intros Hx Hy.
  destruct (Put_returns s w x P Hx) as [w1 Hput1].
  pose proof (Put_keeps_metatables _ _ _ _ _ _ _ Hput1 Hy) as Hy1.
  match type of Hput1 with
  | _ = Returns (?s1, _) => destruct (Put_returns s1 w1 y P Hy1) as [w2 Hput2]
  end.
  eexists _, w1, _, w2, _, _. split; [exact Hput1|]. split; [exact Hput2|].
  split; [apply Get_pops_last; simpl; apply bucket_insert_eq|].
  split.
  - apply Get_pops_last. simpl. rewrite !insert_insert_eq.
    by rewrite !bucket_insert_eq.
  - intros q. simpl. rewrite !insert_insert_eq, bucket_insert.
    case_decide; by subst.
Qed.

(** X8.  The checkin of a state that is not pooled keeps an exclusive
    pool exclusive, and its pointers valid. *)
Theorem checkin_keeps_pool_exclusive
    (s s1 : stateList.t) (w w1 : World) (x : nat) (P : string) :
  exclusive (List s) ->
  pool_within (List s) 0 (length (heap w)) ->
  ~ pooled (List s) x ->
  Put s w x P = Returns (s1, w1) ->
  exclusive (List s1) /\ pool_within (List s1) 0 (length (heap w1)).
Proof.
  intros [Hnd Hone] Hin Hout Hput.
  destruct (Put_Returns_inv _ _ _ _ _ _ Hput) as (L & fields & HL & Hreg & -> & ->).
  simpl. rewrite length_insert.
  assert (Hfresh : forall q, x ∉ bucket (List s) q).
  { intros q Hq. apply Hout. by exists q. }
  split; [split|].
  - intros q. rewrite bucket_insert. case_decide; [|apply Hnd].
    apply NoDup_app. split; [apply Hnd|]. split; [|apply NoDup_singleton].
    intros z Hz ->%list_elem_of_singleton. by apply (Hfresh (ToLower P)).
  - intros p q z. rewrite !bucket_insert. intros Hp Hq.
    destruct (decide (ToLower P = p)) as [<-|Hp'], (decide (ToLower P = q)) as [<-|Hq'];
      try done.
    + apply elem_of_snoc in Hp as [Hp| ->];
        [by apply (Hone _ _ z)|by destruct (Hfresh q)].
    + apply elem_of_snoc in Hq as [Hq| ->];
        [by apply (Hone _ _ z)|by destruct (Hfresh p)].
    + by apply (Hone _ _ z).
  - intros q z. rewrite bucket_insert. case_decide.
    + intros [Hz| ->]%elem_of_snoc; [by apply (Hin (ToLower P))|].
      split; [lia|]. by eapply lookup_lt_Some.
    + apply Hin.
Qed.

End PoolMore.

(** * [filepath.Clean] and [filepath.Join] *)

Section PathLemmas.
Import GoStrings Env.

(** [Clean] and [Join] on paths of the kinds that the documentation of
    [path/filepath] lists. *)
Example Clean_table :
  Clean "abc/def" = "abc/def" /\ Clean "" = "." /\ Clean "/" = "/"
  /\ Clean "abc/" = "abc" /\ Clean "./" = "." /\ Clean "../../" = "../.."
  /\ Clean "abc//def//ghi" = "abc/def/ghi" /\ Clean "//abc//" = "/abc"
  /\ Clean "abc/./def" = "abc/def" /\ Clean "/./abc/def" = "/abc/def"
  /\ Clean "abc/def/ghi/../jkl" = "abc/def/jkl" /\ Clean "abc/def/../.." = "."
  /\ Clean "/abc/def/../.." = "/" /\ Clean "abc/def/../../.." = ".."
  /\ Clean "/abc/def/../../.." = "/" /\ Clean "/../abc" = "/abc"
  /\ Clean "abc/def/../../../ghi/jkl/../../../mno" = "../../mno"
  /\ Clean "abc/../../././../def" = "../../def"
  /\ Join ["./pages"; "Index.lua"] = "pages/Index.lua"
  /\ Join [""; ""; "a"; ""; "b/"] = "a/b" /\ Join [""; ""] = "".
Proof. repeat split; reflexivity. Qed.

Lemma append_cons (c : ascii) (a b : string) : String c a +:+ b = String c (a +:+ b).
Proof. reflexivity. Qed.

Lemma append_assoc3 (a b c : string) : (a +:+ b) +:+ c = a +:+ b +:+ c.
Proof. induction a as [|x a IH]; [done|]. by rewrite !append_cons, IH. Qed.

Lemma path_elements_is_cons (s : string) : exists e rest, path_elements s = e :: rest.
Proof.
  induction s as [|c r (e & rest & IH)]; [by eexists _, _|]. simpl.
  destruct (Ascii.eqb c "/"); [by eexists _, _|]. rewrite IH. by eexists _, _.
Qed.

Lemma path_elements_app (a b : string) :
  path_elements (a +:+ String "/" b) = (path_elements a ++ path_elements b)%list.
Proof.
  induction a as [|c r IH]; [done|]. rewrite append_cons. cbn [path_elements].
  destruct (Ascii.eqb c "/"); [by rewrite IH|]. rewrite IH.
  by destruct (path_elements_is_cons r) as (e & rest & ->).
Qed.

Lemma path_elements_slash_free (s : string) : slash_free s = true -> path_elements s = [s].
Proof.
  induction s as [|c r IH]; [done|]. unfold slash_free. simpl.
  destruct (Ascii.eqb c "/"); [done|]. simpl. intros Hr. by rewrite (IH Hr).
Qed.

Lemma path_elements_all_slash_free (s : string) : Forall (fun e => slash_free e = true) (path_elements s).
Proof.
  induction s as [|c r IH]; [by repeat constructor|]. simpl.
  destruct (Ascii.eqb c "/") eqn:Hc; [by constructor|].
  destruct (path_elements_is_cons r) as (e & rest & Hr). rewrite Hr in *.
  inversion IH as [|? ? He Hrest]; subst. constructor; [|done].
  unfold slash_free. simpl. by rewrite Hc.
Qed.

Lemma path_elements_concat (l : list string) :
  l <> [] -> Forall (fun e => slash_free e = true) l -> path_elements (String.concat "/" l) = l.
Proof.
  induction l as [|x [|y l] IH]; [done| |]; intros _ Hall.
  - apply path_elements_slash_free. by inversion Hall.
  - inversion Hall as [|? ? Hx Hrest]; subst.
    change (String.concat "/" (x :: y :: l))
      with (x +:+ String "/" (String.concat "/" (y :: l))).
    rewrite path_elements_app, (path_elements_slash_free x Hx), IH; done.
Qed.

Lemma concat_snoc (l : list string) (x : string) :
  String.concat "/" (l ++ [x])
  = match l with
    | [] => x
    | _ => String.concat "/" l +:+ "/" +:+ x
    end.
Proof.
  induction l as [|a [|b l] IH]; [done|done|].
  change (String.concat "/" ((a :: b :: l) ++ [x]))
    with (a +:+ "/" +:+ String.concat "/" ((b :: l) ++ [x])).
  rewrite IH.
  change (String.concat "/" (a :: b :: l)) with (a +:+ "/" +:+ String.concat "/" (b :: l)).
  by rewrite !append_assoc3.
Qed.

Lemma is_file_name_slash_free (e : string) : is_file_name e = true -> slash_free e = true.
Proof. unfold is_file_name. by intros [_ ?]%andb_prop. Qed.

Lemma is_file_name_clean_element (rooted : bool) (out : list string) (e : string) :
  is_file_name e = true -> clean_element rooted out e = e :: out.
Proof.
  unfold is_file_name, clean_element.
  intros [[[H1 H2]%andb_prop H3]%andb_prop _]%andb_prop.
  apply negb_true_iff in H1, H2, H3. by rewrite H1, H2, H3.
Qed.

Lemma dots_written (rest : list string) :
  forallb (String.eqb "..") rest = true -> written false rest = true.
Proof.
  induction rest as [|e rest IH]; [done|]. cbn [forallb written].
  intros [He Hrest]%andb_prop. apply String.eqb_eq in He as <-.
  change (is_file_name "..") with false. cbv iota. by rewrite Hrest.
Qed.

Lemma written_cons (rooted : bool) (e : string) (rest : list string) :
  written rooted (e :: rest) = true ->
  (is_file_name e = true /\ written rooted rest = true)
  \/ (e = ".." /\ rooted = false /\ forallb (String.eqb "..") rest = true).
Proof.
  cbn [written]. destruct (is_file_name e); [by left|].
  intros [[->%String.eqb_eq Hr%negb_true_iff]%andb_prop Hrest]%andb_prop. by right.
Qed.

Lemma written_tail (rooted : bool) (e : string) (rest : list string) :
  written rooted (e :: rest) = true -> written rooted rest = true.
Proof.
  intros [[_ ?]|(_ & -> & ?)]%written_cons; [done|by apply dots_written].
Qed.

Lemma written_slash_free (rooted : bool) (out : list string) :
  written rooted out = true -> Forall (fun e => slash_free e = true) out.
Proof.
  induction out as [|e rest IH]; [constructor|]. intros Hw.
  constructor; [|by apply IH, (written_tail _ e)].
  apply written_cons in Hw as [[He _]|(-> & _ & _)]; [|done].
  by apply is_file_name_slash_free.
Qed.

Lemma clean_element_written (rooted : bool) (out : list string) (e : string) :
  slash_free e = true -> written rooted out = true ->
  written rooted (clean_element rooted out e) = true.
Proof.
  intros He Hout. unfold clean_element.
  destruct (String.eqb e "") eqn:H1; [done|].
  destruct (String.eqb e ".") eqn:H2; [done|]. cbn [orb].
  destruct (String.eqb e "..") eqn:H3.
  - apply String.eqb_eq in H3 as ->. destruct out as [|last rest].
    + by destruct rooted.
    + destruct (String.eqb last "..") eqn:Hlast; [|by apply (written_tail _ last)].
      apply String.eqb_eq in Hlast as ->.
      apply written_cons in Hout as [[Hf _]|(_ & -> & Hrest)]; [done|].
      cbn [written forallb]. change (is_file_name "..") with false. cbv iota.
      by rewrite String.eqb_refl, Hrest.
  - cbn [written]. unfold is_file_name. by rewrite H1, H2, H3, He.
Qed.

Lemma foldl_clean_written (rooted : bool) (l out : list string) :
  Forall (fun e => slash_free e = true) l -> written rooted out = true ->
  written rooted (foldl (clean_element rooted) out l) = true.
Proof.
  intros Hl. revert out. induction Hl as [|e l He _ IH]; [done|].
  intros out Hout. cbn [foldl]. by apply IH, clean_element_written.
Qed.

(** Reading back what was written gives it again. *)
Lemma foldl_clean_reverse (rooted : bool) (out : list string) :
  written rooted out = true -> foldl (clean_element rooted) [] (reverse out) = out.
Proof.
  induction out as [|e rest IH]; [done|]. intros Hw.
  rewrite reverse_cons, foldl_snoc, (IH (written_tail _ _ _ Hw)).
  apply written_cons in Hw as [[He _]|(-> & -> & Hrest)];
    [by apply is_file_name_clean_element|].
  destruct rest as [|last rest]; [done|].
  cbn [forallb] in Hrest. apply andb_prop in Hrest as [<-%String.eqb_eq _]. done.
Qed.

Lemma written_last_not_slash (rooted : bool) (out : list string) (e : string) :
  written rooted (out ++ [e]) = true -> exists c x, e = String c x /\ c <> "/"%char.
Proof.
  induction out as [|a out IH].
  - intros [[He _]|(-> & _ & _)]%written_cons; [|by eexists _, _].
    destruct e as [|c x]; [done|]. exists c, x. split; [done|].
    apply is_file_name_slash_free in He. unfold slash_free in He.
    cbn [list_ascii_of_string forallb] in He.
    apply andb_prop in He as [Hc _]. by apply negb_true_iff, Ascii.eqb_neq in Hc.
  - intros Hw. apply IH. by apply (written_tail _ a).
Qed.

Lemma concat_head (c : ascii) (x : string) (l : list string) :
  exists r, String.concat "/" (String c x :: l) = String c r.
Proof. destruct l; cbn [String.concat]; rewrite ?append_cons; eauto. Qed.

(** A path that [Clean] has produced is one that [Clean] leaves alone. *)
Lemma Clean_render (rooted : bool) (out : list string) :
  written rooted out = true -> Clean (render rooted out) = render rooted out.
Proof.
  intros Hw. pose proof (written_slash_free _ _ Hw) as Hfree.
  destruct rooted; unfold render.
  - change ("/" +:+ String.concat "/" (reverse out))
      with (String "/" (String.concat "/" (reverse out))).
    unfold Clean. rewrite Ascii.eqb_refl. cbn [path_elements]. rewrite Ascii.eqb_refl.
    cbn [foldl]. change (clean_element true [] "") with (@nil string).
    destruct out as [|e rest]; [done|].
    rewrite path_elements_concat.
    + by rewrite (foldl_clean_reverse true _ Hw).
    + rewrite reverse_cons. by destruct (reverse rest).
    + by apply Forall_reverse.
  - destruct out as [|e rest]; [done|].
    assert (exists c r, String.concat "/" (reverse (e :: rest)) = String c r
                        /\ c <> "/"%char) as (c & r & Hbody & Hc).
    { destruct (reverse (e :: rest)) as [|first l] eqn:Hrev.
      { apply (f_equal length) in Hrev. rewrite length_reverse in Hrev. done. }
      destruct (written_last_not_slash false (reverse l) first) as (c & x & -> & Hc).
      { rewrite <- reverse_cons, <- Hrev, reverse_involutive. done. }
      destruct (concat_head c x l) as [r Hr]. by exists c, r. }
    unfold Clean. rewrite Hbody. apply Ascii.eqb_neq in Hc. rewrite Hc.
    rewrite <- Hbody, path_elements_concat.
    + by rewrite (foldl_clean_reverse false _ Hw).
    + rewrite reverse_cons. by destruct (reverse rest).
    + by apply Forall_reverse.
Qed.

Lemma Clean_idempotent (path : string) : Clean (Clean path) = Clean path.
Proof.
  destruct path as [|c r]; [done|]. unfold Clean at 2 3.
  apply Clean_render, foldl_clean_written; [apply path_elements_all_slash_free|done].
Qed.

(** The path of an entry of a directory whose path is clean: the name
    after the path of the directory. *)
Lemma Join_entry (dir name : string) :
  Clean dir = dir -> dir <> "." -> is_file_name name = true ->
  exists sep, Join [dir; name] = dir +:+ sep +:+ name.
Proof.
  intros Hclean Hdot Hname. destruct dir as [|c r]; [done|].
  cbn [Join String.eqb]. change (String.concat "/" [String c r; name])
    with (String c r +:+ String "/" name).
  unfold Clean in Hclean |- *. rewrite append_cons.
  rewrite <- append_cons, path_elements_app, (path_elements_slash_free name), foldl_snoc
    by (by apply is_file_name_slash_free).
  rewrite is_file_name_clean_element by done.
  set (out := foldl (clean_element (Ascii.eqb c "/")) [] (path_elements (String c r))) in *.
  unfold render in *. rewrite reverse_cons, concat_snoc.
  destruct (Ascii.eqb c "/").
  - destruct (reverse out) as [|a l] eqn:Hrev.
    + exists "". by rewrite <- Hclean.
    + exists "/". rewrite <- Hclean. by rewrite !append_assoc3.
  - destruct out as [|a l]; [done|]. rewrite reverse_cons in *.
    destruct (reverse l ++ [a])%list eqn:Hrev.
    { by destruct (reverse l). }
    exists "/". by rewrite <- Hclean.
Qed.

Lemma Join_entry_clean (dir name : string) :
  Clean dir = dir -> dir <> "." -> is_file_name name = true ->
  Clean (Join [dir; name]) = Join [dir; name] /\ Join [dir; name] <> ".".
Proof.
  intros Hclean Hdot Hname. split.
  - destruct dir as [|c r]; [done|]. cbn [Join String.eqb]. apply Clean_idempotent.
  - destruct (Join_entry dir name Hclean Hdot Hname) as [sep ->].
    destruct dir as [|c [|c' r]]; [done| |by rewrite !append_cons].
    destruct name as [|d n]; [done|]. rewrite !append_cons.
    by destruct sep.
Qed.

End PathLemmas.

(** * Further properties of the registry of compiled units *)

Section RegistryMore.
Import Lua GoStrings Env.
Import compiledStateList.
Context `{Host}.

Lemma first_match_Some_inv (cs : compiledStateList.t) (order : list string)
    (path : string) (proto : FunctionProto) :
  first_match path (range cs order) = Some proto ->
  exists k, k ∈ order /\ List cs !! k = Some proto /\ ToLower k = path.
Proof.
  unfold range. induction order as [|a rest IH]; [done|]. simpl.
  destruct (List cs !! a) as [v|] eqn:Ha; simpl.
  - destruct (String.eqb (ToLower a) path) eqn:Heq.
    + intros [= <-]. apply String.eqb_eq in Heq. exists a.
      split; [apply list_elem_of_here|done].
    + intros Hm. destruct (IH Hm) as (k & Hk & Hrest). exists k.
      split; [by apply list_elem_of_further|done].
  - intros Hm. destruct (IH Hm) as (k & Hk & Hrest). exists k.
    split; [by apply list_elem_of_further|done].
Qed.

Lemma first_match_is_Some (cs : compiledStateList.t) (order : list string)
    (k path : string) :
  k ∈ order -> is_Some (List cs !! k) -> ToLower k = path ->
  is_Some (first_match path (range cs order)).
Proof.
  unfold range. intros Hin [v Hv] Hlow.
  induction order as [|a rest IH]; [by apply elem_of_nil in Hin|]. simpl.
  destruct (List cs !! a) as [va|] eqn:Ha; simpl.
  - destruct (String.eqb (ToLower a) path) eqn:Heq; [eauto|].
    apply IH. apply elem_of_cons in Hin as [->|Hin]; [|done].
    apply String.eqb_neq in Heq. done.
  - apply IH. apply elem_of_cons in Hin as [->|Hin]; [congruence|done].
Qed.

(** X9.  For a range that visits every key: [Exists] is true exactly
    when some stored key has the lower-case form of the path; [Get]
    fails, with "Compiled lua proto not found", exactly when [Exists] is
    false; and a unit that [Get] returns is one stored under a key with
    the lower-case form of the path. *)
Theorem Exists_and_Get_agree
    (cs : compiledStateList.t) (order : list string) (path : string) :
  visits_all cs order ->
  (Exists_ cs order path = true
   <-> exists k proto, List cs !! k = Some proto /\ ToLower k = ToLower path) /\
  (Exists_ cs order path = false
   <-> Get cs order path = Err "Compiled lua proto not found") /\
  (forall proto,
     Get cs order path = Ok proto ->
     exists k, List cs !! k = Some proto /\ ToLower k = ToLower path).
Proof.
  intros [_ Hall]. unfold Exists_, Get. split; [|split].
  - split.
    + destruct (first_match _ _) as [proto|] eqn:Hm; [|done]. intros _.
      destruct (first_match_Some_inv _ _ _ _ Hm) as (k & _ & Hk & Hlow). eauto.
    + intros (k & proto & Hk & Hlow).
      destruct (first_match_is_Some cs order k (ToLower path)) as [v ->]; eauto.
      apply Hall. eauto.
  - by destruct (first_match _ _).
  - intros proto. destruct (first_match _ _) as [v|] eqn:Hm; [|done].
    intros [= ->]. destruct (first_match_Some_inv _ _ _ _ Hm) as (k & _ & Hk & Hlow). eauto.
Qed.

(** A range that visits every key can begin with any stored key. *)
Lemma order_with_first (cs : compiledStateList.t) (k : string) :
  is_Some (List cs !! k) -> exists rest, visits_all cs (k :: rest).
Proof.
  intros Hk. exists (filter (fun p => p <> k) (map_to_list (List cs)).*1).
  split.
  - apply NoDup_cons. split.
    + intros Hin. by apply list_elem_of_filter in Hin as [Hne _].
    + apply NoDup_filter, NoDup_fst_map_to_list.
  - intros p. rewrite elem_of_cons, list_elem_of_filter, list_elem_of_fmap. split.
    + intros [->|[_ ([p' v] & -> & Hin)]]; [done|].
      apply elem_of_map_to_list in Hin. simpl. eauto.
    + intros [v Hv]. destruct (decide (p = k)) as [->|Hne]; [by left|right].
      split; [done|]. exists (p, v). split; [done|]. by apply elem_of_map_to_list.
Qed.

Lemma Get_first_key (cs : compiledStateList.t) (k path : string) (rest : list string)
    (proto : FunctionProto) :
  List cs !! k = Some proto -> ToLower k = ToLower path ->
  Get cs (k :: rest) path = Ok proto.
Proof.
  intros Hk Hlow. unfold Get, range. simpl. rewrite Hk. simpl.
  rewrite Hlow, String.eqb_refl. done.
Qed.

(** X10.  When two stored keys have the same lower-case form and hold
    different units, which of the two [Get] returns is up to the order
    of the range over the map: there is a range order for either. *)
Theorem Get_depends_on_range_order
    (cs : compiledStateList.t) (k1 k2 : string) (proto1 proto2 : FunctionProto) :
  List cs !! k1 = Some proto1 ->
  List cs !! k2 = Some proto2 ->
  ToLower k1 = ToLower k2 ->
  proto1 <> proto2 ->
  exists order1 order2,
    visits_all cs order1 /\ visits_all cs order2 /\
    Get cs order1 k1 = Ok proto1 /\ Get cs order2 k1 = Ok proto2 /\
    Get cs order1 k1 <> Get cs order2 k1.
Proof.
  intros H1 H2 Hlow Hne.
  destruct (order_with_first cs k1) as [rest1 Ho1]; [eauto|].
  destruct (order_with_first cs k2) as [rest2 Ho2]; [eauto|].
  exists (k1 :: rest1), (k2 :: rest2). split; [done|]. split; [done|].
  rewrite (Get_first_key cs k1 k1 rest1 proto1 H1 eq_refl).
  rewrite (Get_first_key cs k2 k1 rest2 proto2 H2 (eq_sym Hlow)).
  split; [done|]. split; [done|]. congruence.
Qed.

(** The value under a key after a merge: that of the last entry for the
    key, and what was there before if there is none. *)
Lemma merge_lookup_last (entries : list (string * FunctionProto))
    (units : gmap string FunctionProto) (k : string) :
  merge entries units !! k
  = match last (filter (fun e => e.1 = k) entries) with
    | Some e => Some e.2
    | None => units !! k
    end.
Proof.
  induction entries as [|e entries IH] using rev_ind; [done|].
  unfold merge. rewrite foldl_app. simpl. fold (merge entries units).
  rewrite filter_app, filter_cons, filter_nil.
  destruct (decide (e.1 = k)) as [<-|Hne].
  - rewrite last_snoc. by rewrite lookup_insert_eq.
  - rewrite app_nil_r, lookup_insert_ne by done. apply IH.
Qed.

(** The registry [CompileExtensions] leaves is the old one with the
    entries of the steps before the first failing one merged in. *)
Lemma CompileExtensions_merges (s : compiledStateList.t) (extType : string)
    (rows : list (result string)) :
  Queryx (extension_query extType) = Ok rows ->
  (Forall (fun u => step_error u = None) (ext_steps extType rows) /\
   CompileExtensions s extType
   = ({| List := merge (omap (step_entry extType) (ext_steps extType rows)) (List s);
         Type_ := Type_ s |}, None)) \/
  (exists pre st post e,
     ext_steps extType rows = (pre ++ st :: post)%list /\
     Forall (fun u => step_error u = None) pre /\ step_error st = Some e /\
     CompileExtensions s extType
     = ({| List := merge (omap (step_entry extType) pre) (List s); Type_ := Type_ s |},
        Some e)).
Proof.
  intros Hq. unfold CompileExtensions. rewrite Hq, compile_rows_run_steps.
  destruct (run_steps_cases (ext_step_fn extType) step_error
              (fun u => write (step_entry extType u)) (ext_step_fn_shape extType)
              (ext_steps extType rows) (List s))
    as [[Hall ->]|(pre & st & post & e & Hsplit & Hpre & Hst & ->)].
  - left. split; [done|]. by rewrite foldl_write_merge.
  - right. exists pre, st, post, e. by rewrite foldl_write_merge.
Qed.

(** X11.  With the rows of the query at hand, [CompileExtensions] returns
    no error exactly when no step fails; and then a virtual path that
    several scripts map to holds the unit of the one walked last (a
    later extension, or a later file of the same one, overwrites an
    earlier one and a unit of the primary tree under the same key), and
    every other key holds what it held. *)
Theorem CompileExtensions_last_writer_wins
    (s : compiledStateList.t) (extType : string) (rows : list (result string)) :
  Queryx (extension_query extType) = Ok rows ->
  ((CompileExtensions s extType).2 = None
   <-> Forall (fun u => step_error u = None) (ext_steps extType rows)) /\
  (Forall (fun u => step_error u = None) (ext_steps extType rows) ->
   forall k,
     List (CompileExtensions s extType).1 !! k
     = match last (filter (fun e => e.1 = k)
                     (omap (step_entry extType) (ext_steps extType rows))) with
       | Some e => Some e.2
       | None => List s !! k
       end).
Proof.
  intros Hq. destruct (CompileExtensions_merges s extType rows Hq)
    as [[Hall ->]|(pre & st & post & e & Hsplit & Hpre & Hst & ->)]; simpl.
  - split; [done|]. intros _ k. apply merge_lookup_last.
  - assert (Hnot : ~ Forall (fun u => step_error u = None) (ext_steps extType rows)).
    { rewrite Hsplit. intros Hall. apply Forall_app in Hall as [_ Hall].
      apply Forall_cons in Hall as [Hall _]. congruence. }
    split; [split; [done|by intros ?]|]. by intros ?.
Qed.

Lemma merge_lookup_inv (entries : list (string * FunctionProto))
    (units : gmap string FunctionProto) (k : string) :
  is_Some (merge entries units !! k) -> is_Some (units !! k) \/ k ∈ entries.*1.
Proof.
  rewrite merge_lookup_last. destruct (last _) as [e|] eqn:Hlast; [|by left].
  intros _. right. apply last_Some in Hlast as [l Hl].
  assert (e ∈ filter (fun e => e.1 = k) entries) as Hin.
  { rewrite Hl. apply elem_of_app. right. by apply list_elem_of_singleton. }
  apply list_elem_of_filter in Hin as [<- Hin]. apply list_elem_of_fmap. eauto.
Qed.

Lemma step_entry_lower (extType : string) (steps : list ext_step) (k : string) :
  k ∈ (omap (step_entry extType) steps).*1 -> ToLower k = k.
Proof.
  intros ([k' v] & -> & Hin)%list_elem_of_fmap.
  apply list_elem_of_omap in Hin as (st & _ & Hst). simpl.
  destruct st as [e|dir v0]; [done|]. simpl in Hst.
  destruct (is_script v0); [|done].
  destruct (compiled (vpath v0)); [|done]. injection Hst as <- _.
  apply ToLower_idempotent.
Qed.

(** X12.  Whatever [CompileExtensions] returns, a key of the registry
    it leaves was a key before the call or is in lower case:
    extensions are registered under lower-case virtual paths only. *)
Theorem CompileExtensions_keys_are_lower_case
    (s : compiledStateList.t) (extType k : string) :
  is_Some (List (CompileExtensions s extType).1 !! k) ->
  is_Some (List s !! k) \/ ToLower k = k.
Proof.
  destruct (Queryx (extension_query extType)) as [rows|e] eqn:Hq.
  - destruct (CompileExtensions_merges s extType rows Hq)
      as [[Hall ->]|(pre & st & post & e & Hsplit & Hpre & Hst & ->)]; simpl;
      intros [Hk|Hk]%merge_lookup_inv; auto; right; by eapply step_entry_lower.
  - unfold CompileExtensions. rewrite Hq. simpl. by left.
Qed.

Lemma prefix_app (a b : string) : String.prefix a (a +:+ b) = true.
Proof.
  induction a as [|c a IH]; [by destruct b|]. simpl. by destruct (ascii_dec c c).
Qed.

Lemma prefix_trans (a b c : string) :
  String.prefix a b = true -> String.prefix b c = true -> String.prefix a c = true.
Proof.
  revert b c. induction a as [|x a IH]; intros [|y b] [|z c]; simpl; try done.
  destruct (ascii_dec x y) as [->|]; [|done].
  destruct (ascii_dec y z) as [->|]; [|done]. apply IH.
Qed.

Lemma prefix_refl (a : string) : String.prefix a a = true.
Proof. induction a as [|c a IH]; [done|]. simpl. by destruct (ascii_dec c c). Qed.

(** Every path a walk visits begins with the root of the walk, when the
    root is a clean path other than [.]: the path of an entry is then
    the path of its directory, a slash and its name. *)
Lemma walk_order_prefix (n : node) :
  forall path v,
    Clean path = path -> path <> "." -> file_names n = true ->
    v ∈ walk_order path n -> String.prefix path (vpath v) = true.
Proof.
  induction n as [nm|nm entries IH|nm e|nm e] using node_nested_ind;
    intros path v Hclean Hdot Hnames; cbn [walk_order].
  - intros ->%list_elem_of_singleton. apply prefix_refl.
  - intros [->|Hin]%elem_of_cons; [apply prefix_refl|].
    cbn [file_names] in Hnames.
    induction IH as [|c rest Hc _ IHrest]; [by apply elem_of_nil in Hin|].
    cbn [forallb] in Hnames.
    apply andb_prop in Hnames as [[Hname Hbelow]%andb_prop Hrest].
    apply elem_of_app in Hin as [Hin|Hin]; [|by apply IHrest].
    destruct (Join_entry path (node_name c) Hclean Hdot Hname) as [sep Hjoin].
    destruct (Join_entry_clean path (node_name c) Hclean Hdot Hname) as [Hclean' Hdot'].
    eapply prefix_trans; [|by apply (Hc _ _ Hclean' Hdot' Hbelow)].
    rewrite Hjoin. apply prefix_app.
  - intros ->%list_elem_of_singleton. apply prefix_refl.
  - intros ->%list_elem_of_singleton. apply prefix_refl.
Qed.

(** A root that is not clean: the entries are visited under the cleaned
    path, which does not begin with the root. *)
Example walk_order_of_unclean_root :
  vpath <$> walk_order "./pages" (Dir "pages" [File "Index.lua"; Dir "shop" [File "view.lua"]])
  = ["./pages"; "pages/Index.lua"; "pages/shop"; "pages/shop/view.lua"].
Proof. reflexivity. Qed.

(** The registry a successful [CompileFiles] leaves. *)
Lemma CompileFiles_success_lookup (s s' : compiledStateList.t) (dir : string) :
  CompileFiles s dir = (s', None) ->
  Forall (fun v => visit_error v = None) (tree_visits dir) /\
  forall path,
    List s' !! path
    = if decide (path ∈ scripts (tree_visits dir)) then compiled path else None.
Proof.
  unfold CompileFiles, Walk. rewrite walk_run_visits.
  fold (tree_visits dir). unfold run_visits.
  destruct (run_steps_cases (fun v => compile_file (vpath v) (varg v)) visit_error
              (fun v => write (file_entry v)) compile_file_shape (tree_visits dir) ∅)
    as [[Hall ->]|(pre & b & post & e & _ & _ & _ & ->)]; [|done].
  intros [= <-]. split; [done|]. intros path. simpl.
  by rewrite (files_lookup _ ∅ path Hall), lookup_empty.
Qed.

(** X13.  After a successful [CompileFiles] every key of the registry is
    the path of a script file of the tree, as the walk spelled it, case
    kept.  The walk spells the path of an entry with [filepath.Join],
    which cleans it: when [dir] is a clean path other than [.], and the
    entries of the tree have the names of files, every key begins with
    [dir]; for a root like [./pages] it does not. *)
Theorem CompileFiles_keys_are_walked_paths
    (s s' : compiledStateList.t) (dir k : string) :
  CompileFiles s dir = (s', None) ->
  is_Some (List s' !! k) ->
  k ∈ scripts (tree_visits dir) /\
  (Clean dir = dir -> dir <> "." -> file_names (Tree dir) = true ->
   String.prefix dir k = true).
Proof.
  intros Hrun Hk. destruct (CompileFiles_success_lookup _ _ _ Hrun) as [_ Hlookup].
  rewrite Hlookup in Hk. case_decide as Hin; [|by destruct Hk]. split; [done|].
  intros Hclean Hdot Hnames.
  destruct (scripts_visit _ _ Hin) as (v & Hv & _ & <-).
  by apply (walk_order_prefix _ _ _ Hclean Hdot Hnames) in Hv.
Qed.

(** X14.  After a successful [CompileFiles], [Get] finds a unit for every
    script file of the tree, under the path in any letter case and for
    every order of the range; it is the unit compiled from that file
    when no other script of the tree has the same lower-case path. *)
Theorem CompileFiles_then_Get
    (s s' : compiledStateList.t) (dir path path' : string) (order : list string) :
  CompileFiles s dir = (s', None) ->
  path ∈ scripts (tree_visits dir) ->
  visits_all s' order ->
  differ_only_in_case path' path = true ->
  (exists proto, Get s' order path' = Ok proto) /\
  ((forall k, is_Some (List s' !! k) -> ToLower k = ToLower path -> k = path) ->
   exists proto, CompileLua path = Ok proto /\ Get s' order path' = Ok proto).
Proof.
  intros Hrun Hin [_ Hall] Hcase. apply differ_only_in_case_ToLower in Hcase.
  destruct (CompileFiles_success_lookup _ _ _ Hrun) as [Hpass Hlookup].
  assert (exists proto, CompileLua path = Ok proto /\ List s' !! path = Some proto)
    as (proto & Hcompile & Hstored).
  { rewrite Hlookup, decide_True by done. unfold compiled.
    destruct (scripts_visit _ _ Hin) as (v & Hv & Hs & <-).
    rewrite Forall_forall in Hpass. specialize (Hpass v Hv).
    unfold visit_error in Hpass. unfold is_script in Hs, Hpass.
    destruct (varg v); [|done]. rewrite Hs in Hpass.
    destruct (CompileLua (vpath v)); [eauto|done]. }
  assert (Horder : path ∈ order) by (apply Hall; eauto).
  split.
  - destruct (first_match_is_Some s' order path (ToLower path')) as [v Hv]; eauto.
    exists v. unfold Get. by rewrite Hv.
  - intros Huniq. exists proto. split; [done|]. unfold Get.
    by rewrite (first_match_stored s' order path (ToLower path') proto Horder Hstored
                  (eq_sym Hcase) Huniq).
Qed.

End RegistryMore.

(** * Further properties of the player bindings *)

Section BridgeMore.
Import Lua GoStrings Models PlayerBridge.
Context `{DataLayer} `{ServerLists}.

(** X15.  A handle that [PlayerConstructor] returns for a player of the
    data layer is a table with that player behind it, and the field
    accessors answer from the player behind the handle, not from the
    fields of the table: on any table with the same [__player], whatever
    else a script has written into it, they return the account id, sex,
    level and name of that player, without a call to the data layer. *)
Theorem accessors_read_the_backing_player
    (L : LState) (player : Player) (handle : LValue) :
  playerMethods !! "__player" = None ->
  (forall p fields, StructToTable (OfPlayer p) = Env.Returns fields ->
                    fields !! "__player" = None) ->
  bind_lookup L = (Some player, None) ->
  returned (PlayerConstructor L) = [handle] ->
  exists t,
    handle = LTable t /\ t !! "__player" = Some (LUserData (Some player)) /\
    forall t' args reg,
      t' !! "__player" = Some (LUserData (Some player)) ->
      let L' := on_handle (LTable t') args reg in
      GetPlayerAccountID L'
      = {| events := []; final := Push L' (LNumber (Account_id player)); result := Return 1 |}
      /\ GetPlayerGender L'
         = {| events := []; final := Push L' (LNumber (Sex player)); result := Return 1 |}
      /\ GetPlayerLevel L'
         = {| events := []; final := Push L' (LNumber (Level player)); result := Return 1 |}
      /\ GetPlayerName L'
         = {| events := []; final := Push L' (LString (Name player)); result := Return 1 |}.
Proof.
  intros Hm Hp Hlookup.
  destruct (PlayerConstructor_lookup L) as [evs ->]. rewrite Hlookup.
  destruct (createPlayerMetaTable (Some player)) as [v|why] eqn:Hv; [|done].
  rewrite returned_push. intros [= <-].
  unfold createPlayerMetaTable in Hv.
  destruct (StructToTable (OfPlayer (Some player))) as [fields|] eqn:Hfields; [|done].
  injection Hv as <-. eexists. split; [done|]. split.
  { unfold MergeTableFields. rewrite lookup_union_r by (by eapply Hp).
    rewrite lookup_union_r by done. by rewrite lookup_insert_eq. }
  intros t' args reg Ht' L'.
  unfold GetPlayerAccountID, GetPlayerGender, GetPlayerLevel, GetPlayerName,
    with_player, getPlayerObject. simpl. rewrite Ht'. done.
Qed.

(** The loops over the column list, for a nil player: a name that is
    in the list ends in the panic of the nil pointer, after the calls
    made so far. *)
Lemma set_custom_field_nil L fieldName fieldValue evs nameList :
  fieldName ∈ ColumnName <$> nameList ->
  set_custom_field L None fieldName fieldValue evs nameList
  = {| events := evs; final := L; result := GoPanic nil_dereference |}.
Proof.
  induction nameList as [|column rest IH]; [by intros ?%elem_of_nil|].
  intros Hin. cbn [set_custom_field].
  destruct (String.eqb _ _) eqn:Heq; [done|]. apply IH.
  cbn in Hin. apply elem_of_cons in Hin as [->|Hin]; [|done].
  by rewrite String.eqb_refl in Heq.
Qed.

Lemma get_custom_field_nil L fieldName evs nameList :
  fieldName ∈ ColumnName <$> nameList ->
  get_custom_field L None fieldName evs nameList
  = {| events := evs; final := L; result := GoPanic nil_dereference |}.
Proof.
  induction nameList as [|column rest IH]; [by intros ?%elem_of_nil|].
  intros Hin. cbn [get_custom_field].
  destruct (String.eqb _ _) eqn:Heq; [done|]. apply IH.
  cbn in Hin. apply elem_of_cons in Hin as [->|Hin]; [|done].
  by rewrite String.eqb_refl in Heq.
Qed.

(** X16.  A binding called on something that is not a player handle (a
    first argument that is no table, or a table without a user datum
    under [__player]) ends in a Go panic at once, not in a Lua error:
    it makes no call to the data layer and pushes nothing.
    On a handle with a nil player behind it, a binding runs up to its
    first read of the player.  The four field accessors panic at once.
    The storage bindings still refuse a key that is not a number.  The
    custom-field bindings send the catalog query: for a name that is
    not in the column list they return as on any handle, for a name
    that is in it they panic with nothing but the catalog query sent.
    [GetPlayerVocation] and [GetPlayerTown] raise their error on an
    empty list and panic at its first element otherwise. *)
Theorem bindings_panic_without_handle (L : LState) :
  ((forall t u, Lua.Get L 1 = LTable t -> t !! "__player" <> Some (LUserData u)) ->
   forall name f,
     (name, f) ∈ bindings ->
     exists why, f L = {| events := []; final := L; result := GoPanic why |}) /\
  (getPlayerObject L = Env.Returns None ->
   let panic := {| events := []; final := L; result := GoPanic nil_dereference |} in
   let catalog := [EvSelect column_query column_args] in
   (GetPlayerAccountID L = panic /\ GetPlayerGender L = panic
    /\ GetPlayerLevel L = panic /\ GetPlayerName L = panic) /\
   (Type_ (Lua.Get L 2) <> LTNumber ->
      GetPlayerStorageValue L
      = {| events := []; final := L;
           result := ArgError 1 "Invalid key type. Expected number" |}
      /\ SetPlayerStorageValue L
         = {| events := []; final := L;
              result := ArgError 1 "Invalid key type. Expected number" |}) /\
   (forall nameList,
      Select column_query column_args = Ok nameList ->
      (ToString L 2 ∉ ColumnName <$> nameList ->
         SetPlayerCustomField L = {| events := catalog; final := L; result := Return 0 |}
         /\ GetPlayerCustomField L
            = {| events := catalog; final := Push L LNil; result := Return 1 |}) /\
      (ToString L 2 ∈ ColumnName <$> nameList ->
         SetPlayerCustomField L
         = {| events := catalog; final := L; result := GoPanic nil_dereference |}
         /\ GetPlayerCustomField L
            = {| events := catalog; final := L; result := GoPanic nil_dereference |})) /\
   (GetPlayerVocation L
    = match ServerVocationList with
      | [] => {| events := []; final := L;
                 result := RaiseError "Cannot find player vocation" [] |}
      | _ :: _ => panic
      end) /\
   (GetPlayerTown L
    = match Towns with
      | [] => {| events := []; final := L; result := RaiseError "Cannot find player town" [] |}
      | _ :: _ => panic
      end)).
Proof.
  split.
  - intros Hbad name f Hin.
    assert (Hwith : forall k, exists why,
              with_player L k = {| events := []; final := L; result := GoPanic why |}).
    { intros k. unfold with_player, getPlayerObject.
      destruct (Lua.Get L 1) as [| | | | | |t] eqn:Harg; try by eexists.
      destruct (t !! "__player") as [[| | | | |u|]|] eqn:Hfield; try by eexists.
      by destruct (Hbad t u). }
    unfold bindings in Hin.
    repeat (apply elem_of_cons in Hin as [[= _ ->]|Hin]; [apply Hwith|]).
    by apply elem_of_nil in Hin.
  - intros Hnil panic catalog.
    unfold GetPlayerAccountID, GetPlayerGender, GetPlayerLevel, GetPlayerName,
      GetPlayerStorageValue, SetPlayerStorageValue, SetPlayerCustomField,
      GetPlayerCustomField, GetPlayerVocation, GetPlayerTown, with_player.
    rewrite Hnil. split; [done|]. split; [|split; [|split]].
    + intros Hkey. by rewrite !decide_True.
    + intros nameList ->. split.
      * intros Hnot. by rewrite set_custom_field_skips, get_custom_field_skips.
      * intros Hin. by rewrite set_custom_field_nil, get_custom_field_nil.
    + by destruct ServerVocationList.
    + by destruct Towns.
Qed.

(** The loop of [SetPlayerCustomField] acts on a name that is in the
    column list as it does when the name heads the list. *)
Lemma set_custom_field_found L player fieldName fieldValue evs nameList :
  fieldName ∈ ColumnName <$> nameList ->
  set_custom_field L player fieldName fieldValue evs nameList
  = set_custom_field L player fieldName fieldValue evs [ {| ColumnName := fieldName |} ].
Proof.
  induction nameList as [|column rest IH]; [by intros ?%elem_of_nil|].
  intros Hin. cbn [set_custom_field ColumnName]. rewrite String.eqb_refl.
  destruct (String.eqb (ColumnName column) fieldName) eqn:Heq; [done|].
  rewrite IH.
  - cbn [set_custom_field ColumnName]. by rewrite String.eqb_refl.
  - cbn in Hin. apply elem_of_cons in Hin as [Hin|Hin]; [|done].
    apply String.eqb_neq in Heq. congruence.
Qed.

Lemma get_custom_field_found L player fieldName evs nameList :
  fieldName ∈ ColumnName <$> nameList ->
  get_custom_field L player fieldName evs nameList
  = get_custom_field L player fieldName evs [ {| ColumnName := fieldName |} ].
Proof.
  induction nameList as [|column rest IH]; [by intros ?%elem_of_nil|].
  intros Hin. cbn [get_custom_field ColumnName]. rewrite String.eqb_refl.
  destruct (String.eqb (ColumnName column) fieldName) eqn:Heq; [done|].
  rewrite IH.
  - cbn [get_custom_field ColumnName]. by rewrite String.eqb_refl.
  - cbn in Hin. apply elem_of_cons in Hin as [Hin|Hin]; [|done].
    apply String.eqb_neq in Heq. congruence.
Qed.

(** X17.  [SetPlayerCustomField] for a field name that is in the column
    list, wherever and however often: after the catalog query it sends
    one [UPDATE], whose text is built from the name alone and which
    carries the value and the player id as bound arguments.  If the
    [UPDATE] fails it raises and stops.  Otherwise it fetches the player
    again: if that fails it raises, with the row already written and the
    handle as it was; if it succeeds the handle at argument 1 has the
    fetched player behind it and the fields of its projection written
    over the old ones, and nothing is returned. *)
Theorem SetPlayerCustomField_on_catalog_column
    (L : LState) (player : Player) (t : gmap string LValue)
    (nameList : list PlayerColumn) :
  Lua.Get L 1 = LTable t ->
  getPlayerObject L = Env.Returns (Some player) ->
  Select column_query column_args = Ok nameList ->
  ToString L 2 ∈ ColumnName <$> nameList ->
  let query := update_query (ToString L 2) in
  let args := [ArgString (String_ (Lua.Get L 3)); ArgInt (ID player)] in
  let sent := [EvSelect column_query column_args; EvExec query args] in
  (forall err,
     Exec query args = Some err ->
     SetPlayerCustomField L
     = {| events := sent; final := L;
          result := RaiseError "Cannot set custom field %s: %v" [ToString L 2; err] |}) /\
  (forall p err,
     Exec query args = None -> GetPlayerByID (ID player) = (p, Some err) ->
     SetPlayerCustomField L
     = {| events := (sent ++ [EvGetPlayerByID (ID player)])%list; final := L;
          result := RaiseError "Cannot update player metatable: %v" [err] |}) /\
  (forall p fields,
     Exec query args = None -> GetPlayerByID (ID player) = (p, None) ->
     StructToTable (OfPlayer p) = Env.Returns fields ->
     SetPlayerCustomField L
     = {| events := (sent ++ [EvGetPlayerByID (ID player)])%list;
          final := set_arg1 L (LTable (fields ∪ <["__player" := LUserData p]> t));
          result := Return 0 |}
     /\ (fields !! "__player" = None ->
         getPlayerObject (final (SetPlayerCustomField L)) = Env.Returns p)).
Proof.
  intros Ht Hplayer Hcatalog Hin query args sent.
  assert (Hrun : SetPlayerCustomField L
                 = set_custom_field L (Some player) (ToString L 2) (Lua.Get L 3)
                     [EvSelect column_query column_args]
                     [ {| ColumnName := ToString L 2 |} ]).
  { unfold SetPlayerCustomField, with_player. rewrite Hplayer, Hcatalog.
    by apply set_custom_field_found. }
  rewrite Hrun. cbn [set_custom_field deref ColumnName]. rewrite String.eqb_refl.
  fold query args. split; [|split].
  - intros err ->. done.
  - intros p err -> ->. done.
  - intros p fields -> -> . rewrite Ht. unfold updatePlayerMetaTable.
    intros ->. unfold MergeTableFields. split; [done|].
    intros Hnone. unfold getPlayerObject, set_arg1, Lua.Get. simpl.
    assert (exists v rest, stack L = v :: rest) as (v & rest & Hstack).
    { unfold Lua.Get in Ht. destruct (stack L) as [|v rest]; [done|eauto]. }
    rewrite Hstack. simpl.
    rewrite lookup_union_r by done. by rewrite lookup_insert_eq.
Qed.

(** X18.  [GetPlayerCustomField] for a field name that is in the column
    list: after the catalog query it sends one [SELECT], built from the
    name, with the player id as bound argument, and returns the value as
    a string; if the [SELECT] fails it raises and returns nothing. *)
Theorem GetPlayerCustomField_on_catalog_column
    (L : LState) (player : Player) (nameList : list PlayerColumn) :
  getPlayerObject L = Env.Returns (Some player) ->
  Select column_query column_args = Ok nameList ->
  ToString L 2 ∈ ColumnName <$> nameList ->
  let query := select_query (ToString L 2) in
  let sent := [EvSelect column_query column_args; EvGet query [ArgInt (ID player)]] in
  (forall value,
     DBGet query [ArgInt (ID player)] = Ok value ->
     GetPlayerCustomField L
     = {| events := sent; final := Push L (LString value); result := Return 1 |}
     /\ returned (GetPlayerCustomField L) = [LString value]) /\
  (forall err,
     DBGet query [ArgInt (ID player)] = Err err ->
     GetPlayerCustomField L
     = {| events := sent; final := L;
          result := RaiseError "Cannot get custom field %s: %v" [ToString L 2; err] |}).
Proof.
  intros Hplayer Hcatalog Hin query sent.
  assert (Hrun : GetPlayerCustomField L
                 = get_custom_field L (Some player) (ToString L 2)
                     [EvSelect column_query column_args]
                     [ {| ColumnName := ToString L 2 |} ]).
  { unfold GetPlayerCustomField, with_player. rewrite Hplayer, Hcatalog.
    by apply get_custom_field_found. }
  rewrite Hrun. cbn [get_custom_field deref ColumnName]. rewrite String.eqb_refl.
  fold query. split.
  - intros value ->. split; [done|]. apply returned_push.
  - intros err ->. done.
Qed.

(** X19.  [GetPlayerVocation] and [GetPlayerTown] return the table of the
    first vocation (town) of the server list whose id is the one of the
    player, and raise "Cannot find player vocation" ("... town") when the
    list has none; neither calls the data layer. *)
Theorem vocation_and_town_lookup (L : LState) (player : Player) :
  getPlayerObject L = Env.Returns (Some player) ->
  (Forall (fun voc => VocationID voc <> Vocation player) ServerVocationList ->
   GetPlayerVocation L
   = {| events := []; final := L; result := RaiseError "Cannot find player vocation" [] |}) /\
  (forall pre voc post t,
     ServerVocationList = (pre ++ voc :: post)%list ->
     Forall (fun voc => VocationID voc <> Vocation player) pre ->
     VocationID voc = Vocation player ->
     VocationToTable voc = Env.Returns t ->
     GetPlayerVocation L = {| events := []; final := Push L (LTable t); result := Return 1 |}) /\
  (Forall (fun town => TownID town <> Town_id player) Towns ->
   GetPlayerTown L
   = {| events := []; final := L; result := RaiseError "Cannot find player town" [] |}) /\
  (forall pre town post t,
     Towns = (pre ++ town :: post)%list ->
     Forall (fun town => TownID town <> Town_id player) pre ->
     TownID town = Town_id player ->
     TownToTable town = Env.Returns t ->
     GetPlayerTown L = {| events := []; final := Push L (LTable t); result := Return 1 |}).
Proof.
  intros Hplayer. unfold GetPlayerVocation, GetPlayerTown, with_player. rewrite Hplayer.
  assert (Hvskip : forall pre rest,
            Forall (fun voc => VocationID voc <> Vocation player) pre ->
            find_vocation L (Some player) (pre ++ rest) = find_vocation L (Some player) rest).
  { intros pre rest Hpre. induction Hpre as [|voc pre Hvoc _ IH]; [done|].
    cbn [app find_vocation]. by rewrite (proj2 (Z.eqb_neq _ _) Hvoc). }
  assert (Htskip : forall pre rest,
            Forall (fun town => TownID town <> Town_id player) pre ->
            find_town L (Some player) (pre ++ rest) = find_town L (Some player) rest).
  { intros pre rest Hpre. induction Hpre as [|town pre Htown _ IH]; [done|].
    cbn [app find_town]. by rewrite (proj2 (Z.eqb_neq _ _) Htown). }
  split; [|split; [|split]].
  - intros Hnone. rewrite <- (app_nil_r ServerVocationList). by rewrite Hvskip.
  - intros pre voc post t -> Hpre Hid Ht. rewrite Hvskip by done.
    cbn [find_vocation]. by rewrite Hid, Z.eqb_refl, Ht.
  - intros Hnone. rewrite <- (app_nil_r Towns). by rewrite Htskip.
  - intros pre town post t -> Hpre Hid Ht. rewrite Htskip by done.
    cbn [find_town]. by rewrite Hid, Z.eqb_refl, Ht.
Qed.

End BridgeMore.

(** * Lookups under either letter case *)

Section CaseMore.
Import Lua GoStrings Env.
Context `{Host}.

(** Whether a range finds a key with a given lower-case form does not
    depend on its order. *)
Lemma first_match_any_order (cs : compiledStateList.t) (order1 order2 : list string)
    (path : string) :
  compiledStateList.visits_all cs order1 ->
  compiledStateList.visits_all cs order2 ->
  is_Some (compiledStateList.first_match path (compiledStateList.range cs order1)) ->
  is_Some (compiledStateList.first_match path (compiledStateList.range cs order2)).
Proof.
  intros [_ Hall1] [_ Hall2] [u Hu].
  apply first_match_Some_inv in Hu as (k & Hk & Hstored & Hlow).
  apply (first_match_is_Some cs order2 k path); [|eauto|done].
  apply Hall2. eauto.
Qed.

(** X27.  Two paths that differ only in the case of letters A to Z.
    In the pool they name one bucket: [stateList.Get] and
    [stateList.Put] do the same for both, and a state checked in under
    one spelling is the state the next checkout under the other
    spelling returns, which leaves the pool as it was.
    In the registry, whatever the orders of the two ranges: [Exists]
    answers alike for both, [Get] finds a unit for one exactly when it
    finds one for the other, and both return the unit stored under a key
    of any case when no second stored key has the same lower-case
    form. *)
Theorem lookups_ignore_case (p q : string) :
  differ_only_in_case p q = true ->
  (forall s w, stateList.Get s w p = stateList.Get s w q) /\
  (forall s w x, stateList.Put s w x p = stateList.Put s w x q) /\
  (forall s w x s1 w1,
     stateList.Put s w x p = Returns (s1, w1) ->
     exists s2,
       stateList.Get s1 w1 q = (Ok x, s2, w1)
       /\ forall path, stateList.bucket (stateList.List s2) path
                       = stateList.bucket (stateList.List s) path) /\
  (forall cs order1 order2,
     compiledStateList.visits_all cs order1 ->
     compiledStateList.visits_all cs order2 ->
     compiledStateList.Exists_ cs order1 p = compiledStateList.Exists_ cs order2 q
     /\ ((exists u, compiledStateList.Get cs order1 p = Ok u)
         <-> (exists u, compiledStateList.Get cs order2 q = Ok u))) /\
  (forall cs order1 order2 k proto,
     compiledStateList.visits_all cs order1 ->
     compiledStateList.visits_all cs order2 ->
     compiledStateList.List cs !! k = Some proto ->
     differ_only_in_case k p = true ->
     (forall k', is_Some (compiledStateList.List cs !! k') ->
                 ToLower k' = ToLower k -> k' = k) ->
     compiledStateList.Get cs order1 p = Ok proto /\
     compiledStateList.Get cs order2 q = Ok proto).
Proof.
  intros Hpq. apply differ_only_in_case_ToLower in Hpq.
  split; [|split; [|split; [|split]]].
  - intros s w. unfold stateList.Get. by rewrite Hpq.
  - intros s w x. unfold stateList.Put. by rewrite Hpq.
  - intros s w x s1 w1 Hput.
    destruct (Put_Returns_inv _ _ _ _ _ _ Hput) as (L & fields & _ & _ & -> & _).
    eexists. split.
    + apply Get_pops_last. cbn [stateList.List]. rewrite <- Hpq. apply bucket_insert_eq.
    + intros path. cbn [stateList.List]. rewrite <- Hpq, !bucket_insert.
      by case_decide; subst.
  - intros cs order1 order2 H1 H2.
    unfold compiledStateList.Exists_, compiledStateList.Get. rewrite <- Hpq.
    pose proof (first_match_any_order cs order1 order2 (ToLower p) H1 H2) as H12.
    pose proof (first_match_any_order cs order2 order1 (ToLower p) H2 H1) as H21.
    destruct (compiledStateList.first_match _ (compiledStateList.range cs order1)) as [u1|];
      destruct (compiledStateList.first_match _ (compiledStateList.range cs order2)) as [u2|].
    + split; [done|]. split; eauto.
    + by destruct H12 as [? ?].
    + by destruct H21 as [? ?].
    + split; [done|]. split; intros [u Hu]; discriminate Hu.
  - intros cs order1 order2 k proto [_ Hall1] [_ Hall2] Hk Hkp Huniq.
    apply differ_only_in_case_ToLower in Hkp.
    assert (Hin1 : k ∈ order1) by (apply Hall1; eauto).
    assert (Hin2 : k ∈ order2) by (apply Hall2; eauto).
    unfold compiledStateList.Get. rewrite <- Hpq.
    by rewrite (first_match_stored cs order1 k (ToLower p) proto Hin1 Hk Hkp Huniq),
      (first_match_stored cs order2 k (ToLower p) proto Hin2 Hk Hkp Huniq).
Qed.

End CaseMore.

(** * The template function [queryResults] *)

Section QueryResults.
Import Templates.
Context {V : Type}.

Lemma query_loop_seq (m : gmap string V) (i count : nat) :
  query_loop m i count = (fun j => m !! Itoa (j + 1)) <$> seq i count.
Proof.
  revert i. induction count as [|count IH]; intros i; [done|].
  simpl. by rewrite IH.
Qed.

Lemma queryResults_lookup (m : gmap string V) (i : nat) :
  i < size m -> queryResults m !! i = Some (m !! Itoa (i + 1)).
Proof.
  intros Hi. unfold queryResults. rewrite query_loop_seq, list_lookup_fmap.
  by rewrite lookup_seq_lt.
Qed.

Lemma queryResults_length (m : gmap string V) : length (queryResults m) = size m.
Proof. unfold queryResults. by rewrite query_loop_seq, length_fmap, length_seq. Qed.

Lemma numbered_keys_NoDup (rows : list V) :
  NoDup (imap (fun i v => (Itoa (i + 1), v)) rows).*1.
Proof.
  apply NoDup_alt. intros i j k.
  rewrite !list_lookup_fmap, !list_lookup_imap.
  destruct (rows !! i) as [v|]; [|done]. destruct (rows !! j) as [v'|]; [|done].
  simpl. intros [= <-] [= Hk]. apply (inj pretty) in Hk. lia.
Qed.

Lemma numbered_lookup (rows : list V) (i : nat) :
  numbered rows !! Itoa (i + 1) = rows !! i.
Proof.
  unfold numbered. destruct (rows !! i) as [v|] eqn:Hi.
  - apply elem_of_list_to_map; [apply numbered_keys_NoDup|].
    apply list_elem_of_lookup. exists i. by rewrite list_lookup_imap, Hi.
  - apply not_elem_of_list_to_map. intros Hin.
    apply list_elem_of_fmap in Hin as ([k v] & Hk & Hin). simpl in Hk.
    apply list_elem_of_lookup in Hin as [j Hj]. rewrite list_lookup_imap in Hj.
    destruct (rows !! j) as [v'|] eqn:Hj'; [|done]. simpl in Hj.
    injection Hj as <- _. apply (inj pretty) in Hk.
    assert (i = j) as -> by lia. congruence.
Qed.

Lemma numbered_size (rows : list V) : size (numbered rows) = length rows.
Proof.
  unfold numbered. rewrite map_size_list_to_map by apply numbered_keys_NoDup.
  by rewrite length_imap.
Qed.

(** X20.  [queryResults] returns as many values as the map has entries;
    and on the map of a result set, with row [i] under the key of the
    number [i + 1], it returns the rows in their order. *)
Theorem queryResults_of_numbered_rows (m : gmap string V) (rows : list V) :
  length (queryResults m) = size m /\
  queryResults (numbered rows) = Some <$> rows.
Proof.
  split; [apply queryResults_length|].
  apply list_eq. intros i. rewrite list_lookup_fmap.
  destruct (decide (i < length rows)) as [Hi|Hi].
  - rewrite queryResults_lookup by (by rewrite numbered_size).
    rewrite numbered_lookup. apply lookup_lt_is_Some in Hi as [v ->]. done.
  - rewrite (lookup_ge_None_2 rows) by lia. simpl.
    apply lookup_ge_None_2. rewrite queryResults_length, numbered_size. lia.
Qed.

(** X21.  [queryResults] is free of nil values exactly when the keys of
    the map are the numbers from 1 to its size. *)
Theorem queryResults_without_nil (m : gmap string V) :
  Forall is_Some (queryResults m)
  <-> forall k, is_Some (m !! k) <-> exists i, i < size m /\ k = Itoa (i + 1).
Proof.
  split.
  - intros Hall.
    assert (Hkeys : forall i, i < size m -> is_Some (m !! Itoa (i + 1))).
    { intros i Hi. rewrite Forall_lookup in Hall.
      apply (Hall i). by apply queryResults_lookup. }
    set (K := list_to_set ((fun i => Itoa (i + 1)) <$> seq 0 (size m)) : gset string).
    assert (Hsub : K ⊆ dom m).
    { intros k Hk. apply elem_of_list_to_set, list_elem_of_fmap in Hk as (i & -> & Hi).
      apply elem_of_seq in Hi. apply elem_of_dom. apply Hkeys. lia. }
    assert (Hsize : size K = size m).
    { unfold K. rewrite size_list_to_set.
      - by rewrite length_fmap, length_seq.
      - apply NoDup_fmap_2; [|apply NoDup_seq].
        intros i j Hij. apply (inj pretty) in Hij. lia. }
    assert (HK : K = dom m).
    { apply set_subseteq_size_eq; [done|]. rewrite size_dom. lia. }
    intros k. rewrite <- elem_of_dom, <- HK. unfold K.
    rewrite elem_of_list_to_set, list_elem_of_fmap. split.
    + intros (i & -> & Hi). apply elem_of_seq in Hi. exists i. split; [lia|done].
    + intros (i & Hi & ->). exists i. split; [done|]. apply elem_of_seq. lia.
  - intros Hkeys. apply Forall_lookup. intros i o Ho.
    assert (i < size m) as Hi.
    { apply lookup_lt_Some in Ho. by rewrite queryResults_length in Ho. }
    rewrite queryResults_lookup in Ho by done. injection Ho as <-.
    apply Hkeys. eauto.
Qed.

End QueryResults.

(** ** The template function [nl2br] *)

Section Nl2br.
Import GoStrings Templates.

Lemma prefix_empty (s : string) : String.prefix EmptyString s = true.
Proof. by destruct s. Qed.

(** X22.  [nl2br] works byte by byte: every newline becomes [<br>] and
    every other byte is kept as it is, markup included; nothing is
    escaped on the way into the [template.HTML] value. *)
Theorem nl2br_is_bytewise (text : string) :
  list_ascii_of_string (nl2br text)
  = list_ascii_of_string text
      ≫= (fun c => if Ascii.eqb c newline then list_ascii_of_string "<br>" else [c]).
Proof.
  unfold nl2br, Replace, line_feed. induction text as [|c r IH]; [done|].
  change (list_ascii_of_string (String c r)) with (c :: list_ascii_of_string r).
  rewrite bind_cons, <- IH. cbn [replace_from String.prefix].
  destruct (ascii_dec newline c) as [<-|Hc].
  - by rewrite prefix_empty, Ascii.eqb_refl.
  - assert (Ascii.eqb c newline = false) as ->.
    { apply Ascii.eqb_neq. congruence. }
    done.
Qed.

End Nl2br.

(** * The further properties on the demo installations *)

Section MoreDemoRuns.
Import Lua GoStrings Env.

Lemma demo_open_transaction_has_metatable :
  stateList.has_database_metatable (H:=Demo.host []) Demo.world_with_open_transaction 0.
Proof. eexists _, _. split; reflexivity. Defined.

(** The range over a map in the order of [map_to_list]. *)
Lemma visits_all_map_to_list (cs : compiledStateList.t) :
  compiledStateList.visits_all cs (map_to_list (compiledStateList.List cs)).*1.
Proof.
  split; [apply NoDup_fst_map_to_list|].
  intros p. rewrite list_elem_of_fmap. split.
  - intros ([p' v] & -> & Hin). apply elem_of_map_to_list in Hin. simpl. eauto.
  - intros [v Hv]. exists (p, v). split; [done|]. by apply elem_of_map_to_list.
Defined.

(** [Load] of the primary widgets: the two files whose paths differ in
    case only share a bucket. *)
Lemma Load_pools_each_file_demo :
  (stateList.Load (H:=Demo2.host) Demo.WidgetList Demo.world "widgets").2 = None
  /\ stateList.bucket
       (stateList.List (stateList.Load (H:=Demo2.host) Demo.WidgetList Demo.world "widgets").1.1)
       "widgets/top/top.lua" = [0; 2].
Proof.
  destruct (Load_pools_each_file (H:=Demo2.host) Demo.WidgetList Demo.world "widgets"
              ["widgets/Top/top.lua"; "widgets/news/news.lua"; "widgets/top/Top.lua"]
              eq_refl) as (s' & Hrun & _ & Hb).
  - repeat constructor.
  - rewrite Hrun. split; [reflexivity|]. simpl. rewrite Hb. reflexivity.
Defined.

(** [Load] of the widgets of extension 7: [poll.lua] fails after
    [top.lua] has loaded. *)
Lemma Load_stops_at_first_failure_demo :
  (stateList.Load (H:=Demo.host []) Demo.WidgetList Demo.world "extensions/7/widgets").2
  = Some "attempt to call a nil value"
  /\ stateList.bucket
       (stateList.List
          (stateList.Load (H:=Demo.host []) Demo.WidgetList Demo.world
             "extensions/7/widgets").1.1)
       "extensions/7/widgets/top/top.lua" = [0].
Proof.
  destruct (Load_stops_at_first_failure (H:=Demo.host []) Demo.WidgetList Demo.world
              "extensions/7/widgets" "extensions/7/widgets/poll/poll.lua"
              ["extensions/7/widgets/top/top.lua"] ["extensions/7/widgets/news/News.lua"]
              "attempt to call a nil value" eq_refl) as (s' & Hrun & Hb).
  - repeat constructor.
  - reflexivity.
  - rewrite Hrun. split; [reflexivity|]. simpl. rewrite Hb. reflexivity.
Defined.




(** The checkin of the state with the open transaction. *)
Lemma Put_changes_only_marker_and_bucket_demo :
  exists s1 w1,
    stateList.Put (H:=Demo.host []) Demo.WidgetList Demo.world_with_open_transaction 0
      "Widgets/Top.lua" = Returns (s1, w1)
    /\ stateList.bucket (stateList.List s1) "widgets/top.lua" = [0]
    /\ length (heap w1) = 1.
Proof.
  destruct (Put_returns (H:=Demo.host []) Demo.WidgetList Demo.world_with_open_transaction 0
              "Widgets/Top.lua" demo_open_transaction_has_metatable) as [w1 Hput].
  destruct (Put_changes_only_marker_and_bucket (H:=Demo.host []) _ _ _ _ _ _ Hput)
    as (_ & Hb & _ & _ & Hlen & _).
  eexists _, w1. split; [exact Hput|]. split; [|exact Hlen].
  rewrite Hb. reflexivity.
Defined.

(** One state checked in twice is handed out twice. *)
Lemma checkins_pop_in_reverse_demo :
  exists s1 w1 s2 w2 s3 s4,
    stateList.Put (H:=Demo.host []) Demo.WidgetList Demo.world_with_open_transaction 0
      "widgets/top.lua" = Returns (s1, w1) /\
    stateList.Put (H:=Demo.host []) s1 w1 0 "widgets/top.lua" = Returns (s2, w2) /\
    stateList.Get (H:=Demo.host []) s2 w2 "widgets/top.lua" = (Ok 0, s3, w2) /\
    stateList.Get (H:=Demo.host []) s3 w2 "widgets/top.lua" = (Ok 0, s4, w2).
Proof.
  destruct (checkins_pop_in_reverse (H:=Demo.host []) Demo.WidgetList
              Demo.world_with_open_transaction 0 0 "widgets/top.lua"
              demo_open_transaction_has_metatable demo_open_transaction_has_metatable)
    as (s1 & w1 & s2 & w2 & s3 & s4 & H1 & H2 & H3 & H4 & _).
  by exists s1, w1, s2, w2, s3, s4.
Defined.

(** The checkin of an unpooled state into the empty pool. *)
Lemma checkin_keeps_pool_exclusive_demo :
  exists s1 w1,
    stateList.Put (H:=Demo.host []) Demo.WidgetList Demo.world_with_open_transaction 0
      "widgets/top.lua" = Returns (s1, w1)
    /\ stateList.exclusive (stateList.List s1).
Proof.
  destruct (Put_returns (H:=Demo.host []) Demo.WidgetList Demo.world_with_open_transaction 0
              "widgets/top.lua" demo_open_transaction_has_metatable) as [w1 Hput].
  destruct (loaded_ok_empty Demo.world) as (Hex & Hin & _).
  assert (Hwithin : stateList.pool_within (stateList.List Demo.WidgetList) 0
                      (length (heap Demo.world_with_open_transaction))).
  { intros q x Hx. rewrite bucket_empty in Hx. by apply elem_of_nil in Hx. }
  assert (Hout : ~ stateList.pooled (stateList.List Demo.WidgetList) 0).
  { intros [q Hq]. rewrite bucket_empty in Hq. by apply elem_of_nil in Hq. }
  destruct (checkin_keeps_pool_exclusive (H:=Demo.host []) Demo.WidgetList _
              Demo.world_with_open_transaction w1 0 "widgets/top.lua"
              Hex Hwithin Hout Hput) as [Hex1 _].
  eexists _, w1. split; [exact Hput|exact Hex1].
Defined.

(** A state checked in for [Widgets/Top.lua] and checked out for
    [widgets/top.lua], and the lookups of [Pages/Index.lua] and
    [pages/index.lua] in a registry that holds the index page under its
    path as walked. *)
Lemma lookups_ignore_case_demo :
  exists s1 w1 s2,
    stateList.Put (H:=Demo.host []) Demo.WidgetList Demo.world_with_open_transaction 0
      "Widgets/Top.lua" = Returns (s1, w1)
    /\ stateList.Get (H:=Demo.host []) s1 w1 "widgets/top.lua" = (Ok 0, s2, w1)
    /\ compiledStateList.Get Demo.registry_with_index ["pages/Index.lua"] "Pages/Index.lua"
       = Ok {| SourceName := "pages/Index.lua"; Chunk := 15 |}
    /\ compiledStateList.Get Demo.registry_with_index ["pages/Index.lua"] "pages/index.lua"
       = Ok {| SourceName := "pages/Index.lua"; Chunk := 15 |}.
Proof.
  destruct (lookups_ignore_case (H:=Demo.host []) "Widgets/Top.lua" "widgets/top.lua" eq_refl)
    as (_ & _ & Hround & _).
  destruct (lookups_ignore_case (H:=Demo.host []) "Pages/Index.lua" "pages/index.lua" eq_refl)
    as (_ & _ & _ & _ & Hstored).
  destruct (Put_returns (H:=Demo.host []) Demo.WidgetList Demo.world_with_open_transaction 0
              "Widgets/Top.lua" demo_open_transaction_has_metatable) as [w1 Hput].
  destruct (Hround _ _ _ _ _ Hput) as (s2 & Hget & _).
  eexists _, w1, s2. split; [exact Hput|]. split; [exact Hget|].
  assert (Hall : compiledStateList.visits_all Demo.registry_with_index ["pages/Index.lua"]).
  { apply visits_all_keys; [apply NoDup_singleton|by vm_compute]. }
  apply (Hstored Demo.registry_with_index ["pages/Index.lua"] ["pages/Index.lua"]
           "pages/Index.lua" {| SourceName := "pages/Index.lua"; Chunk := 15 |}
           Hall Hall eq_refl eq_refl).
  intros k' [v Hv] _. cbn in Hv. apply lookup_singleton_Some in Hv as [<- _]. done.
Defined.

(** [Exists] and [Get] on the registry with the index page. *)
Lemma Exists_and_Get_agree_demo :
  compiledStateList.Exists_ Demo.registry_with_index ["pages/Index.lua"] "PAGES/INDEX.LUA"
  = true
  /\ exists k,
       compiledStateList.List Demo.registry_with_index !! k
       = Some {| SourceName := "pages/Index.lua"; Chunk := 15 |}
       /\ ToLower k = "pages/index.lua".
Proof.
  destruct (Exists_and_Get_agree Demo.registry_with_index ["pages/Index.lua"]
              "PAGES/INDEX.LUA" (visits_all_map_to_list Demo.registry_with_index))
    as (Hex & _ & Hget).
  split.
  - apply Hex. eexists "pages/Index.lua", _. split; reflexivity.
  - apply (Hget {| SourceName := "pages/Index.lua"; Chunk := 15 |}). reflexivity.
Defined.

(** The registry with both index pages: either unit can come back. *)
Lemma Get_depends_on_range_order_demo :
  exists order1 order2,
    compiledStateList.visits_all Demo2.registry_with_both order1 /\
    compiledStateList.visits_all Demo2.registry_with_both order2 /\
    compiledStateList.Get Demo2.registry_with_both order1 "pages/Index.lua"
    = Ok {| SourceName := "pages/Index.lua"; Chunk := 15 |} /\
    compiledStateList.Get Demo2.registry_with_both order2 "pages/Index.lua"
    = Ok {| SourceName := "extensions/8/pages/index.lua"; Chunk := 28 |}.
Proof.
  destruct (Get_depends_on_range_order Demo2.registry_with_both
              "pages/Index.lua" "pages/index.lua"
              {| SourceName := "pages/Index.lua"; Chunk := 15 |}
              {| SourceName := "extensions/8/pages/index.lua"; Chunk := 28 |}
              eq_refl eq_refl eq_refl)
    as (o1 & o2 & H1 & H2 & H3 & H4 & _).
  - discriminate.
  - by exists o1, o2.
Defined.

(** Extensions 8 and 9 both bring an index page: the one of 9, walked
    last, is registered. *)
Lemma CompileExtensions_last_writer_wins_demo :
  (compiledStateList.CompileExtensions (H:=Demo2.host) Demo.registry_with_index "pages").2
  = None
  /\ compiledStateList.List
       (compiledStateList.CompileExtensions (H:=Demo2.host) Demo.registry_with_index
          "pages").1 !! "pages/index.lua"
     = Some {| SourceName := "extensions/9/pages/Index.lua"; Chunk := 28 |}.
Proof.
  destruct (CompileExtensions_last_writer_wins (H:=Demo2.host) Demo.registry_with_index
              "pages" [Ok "8"; Ok "9"] eq_refl) as [Hnone Hlast].
  assert (Hpass : Forall (fun u => compiledStateList.step_error (H:=Demo2.host) u = None)
                    (compiledStateList.ext_steps (H:=Demo2.host) "pages" [Ok "8"; Ok "9"])).
  { repeat constructor. }
  split; [by apply Hnone|]. rewrite (Hlast Hpass). reflexivity.
Defined.

Lemma CompileExtensions_keys_are_lower_case_demo :
  is_Some (compiledStateList.List Demo.registry_with_index !! "pages/index.lua")
  \/ ToLower "pages/index.lua" = "pages/index.lua".
Proof.
  apply (CompileExtensions_keys_are_lower_case (H:=Demo2.host) Demo.registry_with_index
           "pages" "pages/index.lua").
  eexists. reflexivity.
Defined.

(** [CompileFiles] of the primary tree, and the lookup of one of its
    pages in capitals. *)
Lemma CompileFiles_keys_are_walked_paths_demo :
  (compiledStateList.CompileFiles (H:=Demo.host []) Demo.CompiledPageList "pages").2 = None
  /\ compiledStateList.List
       (compiledStateList.CompileFiles (H:=Demo.host []) Demo.CompiledPageList "pages").1
       !! "pages/shop/view.lua"
     = Some {| SourceName := "pages/shop/view.lua"; Chunk := 19 |}
  /\ "pages/shop/view.lua" ∈ compiledStateList.scripts
                               (compiledStateList.tree_visits (H:=Demo.host []) "pages")
  /\ String.prefix "pages" "pages/shop/view.lua" = true.
Proof.
  split; [reflexivity|]. split; [reflexivity|].
  destruct (CompileFiles_keys_are_walked_paths (H:=Demo.host []) Demo.CompiledPageList
              (compiledStateList.CompileFiles (H:=Demo.host []) Demo.CompiledPageList
                 "pages").1
              "pages" "pages/shop/view.lua" eq_refl) as [Hin Hprefix].
  - eexists. reflexivity.
  - split; [exact Hin|]. apply Hprefix; [reflexivity|discriminate|reflexivity].
Defined.

Lemma CompileFiles_then_Get_demo :
  exists proto,
    compiledStateList.Get
      (compiledStateList.CompileFiles (H:=Demo.host []) Demo.CompiledPageList "pages").1
      (map_to_list
         (compiledStateList.List
            (compiledStateList.CompileFiles (H:=Demo.host []) Demo.CompiledPageList
               "pages").1)).*1
      "PAGES/SHOP/VIEW.LUA" = Ok proto.
Proof.
  refine (proj1 (CompileFiles_then_Get (H:=Demo.host []) Demo.CompiledPageList
                   (compiledStateList.CompileFiles (H:=Demo.host []) Demo.CompiledPageList
                      "pages").1
                   "pages" "pages/shop/view.lua" "PAGES/SHOP/VIEW.LUA" _
                   eq_refl _ (visits_all_map_to_list _) eq_refl)).
  apply list_elem_of_further, list_elem_of_here.
Defined.

(** A missing directory in [CompileExtensions] and in [LoadExtensions]:
    of the page extensions 8, 42 and 9, in that order, the index page of
    8 is registered and the map page of 9 is not. *)
Lemma CompileExtensions_missing_directory_demo :
  let run := compiledStateList.CompileExtensions
               (H:=Demo2.host_with [Ok "8"; Ok "42"; Ok "9"])
               Demo.registry_with_index "pages" in
  run.2 = Some "lstat extensions/42/pages: no such file or directory"
  /\ compiledStateList.List run.1 !! "pages/index.lua"
     = Some {| SourceName := "extensions/8/pages/index.lua"; Chunk := 28 |}
  /\ compiledStateList.List run.1 !! "pages/map.lua" = None.
Proof.
  intros run. unfold run.
  rewrite (CompileExtensions_missing_directory
             (H:=Demo2.host_with [Ok "8"; Ok "42"; Ok "9"])
             Demo.registry_with_index "pages" "42" "pages" [Ok "8"] [Ok "9"]
             "lstat extensions/42/pages: no such file or directory" eq_refl).
  - split; [reflexivity|]. split; reflexivity.
  - repeat constructor.
  - reflexivity.
Defined.

Lemma LoadExtensions_skips_missing_directory_demo :
  stateList.load_rows (H:=Demo.host []) "pages" [Ok "42"; Ok "7"] ∅ Demo.world
  = stateList.load_rows (H:=Demo.host []) "pages" [Ok "7"] ∅
      (Errorf Demo.world "Missing pages directory in extension 42").
Proof.
  apply (LoadExtensions_skips_missing_directory (H:=Demo.host []) "pages" "42" []
           [Ok "7"] ∅ ∅ Demo.world Demo.world
           "stat extensions/42/pages: no such file or directory" eq_refl eq_refl).
Defined.

End MoreDemoRuns.

(** ** The further bindings on the demo data layer *)

Section MoreBridgeDemo.
Import Lua GoStrings Models PlayerBridge.

(** A handle of Kael into which a script has written another name and
    level: the accessors still answer with those of Kael. *)
Lemma accessors_read_the_backing_player_demo :
  let L' := on_handle
              (LTable {["__player" := LUserData (Some Demo.kael);
                        "Name" := LString "Mallory"; "Level" := LNumber 999]})
              [] ∅ in
  GetPlayerLevel L'
  = {| events := []; final := Push L' (LNumber 80); result := Return 1 |}
  /\ GetPlayerName L'
     = {| events := []; final := Push L' (LString "Kael"); result := Return 1 |}.
Proof.
  intros L'.
  edestruct (accessors_read_the_backing_player (H:=Demo.data true)
               (Demo.call_with [LString "Kael"]) Demo.kael)
    as (t & _ & _ & Hread).
  - reflexivity.
  - exact demo_project_player.
  - reflexivity.
  - reflexivity.
  - destruct (Hread {["__player" := LUserData (Some Demo.kael);
                      "Name" := LString "Mallory"; "Level" := LNumber 999]} [] ∅)
      as (_ & _ & Hlevel & Hname); [reflexivity|].
    split; [exact Hlevel|exact Hname].
Defined.

(** [getName] on nil panics at once; on the handle of a nil player,
    [setStorageValue("7", 1)] is refused, [getCustomField] of a column
    that the players table does not have returns nil, and
    [getCustomField("level")] panics after the catalog query. *)
Lemma bindings_panic_without_handle_demo :
  let catalog := [EvSelect column_query (column_args (H:=Demo.data true))] in
  let refused := Demo.call_with [Demo2.nil_handle; LString "7"; LNumber 1] in
  let unknown := Demo.call_with [Demo2.nil_handle; LString "unknown_column"] in
  let level := Demo.call_with [Demo2.nil_handle; LString "level"] in
  (exists why,
     GetPlayerName (Demo.call_with [LNil])
     = {| events := []; final := Demo.call_with [LNil]; result := GoPanic why |})
  /\ SetPlayerStorageValue (H:=Demo.data true) refused
     = {| events := []; final := refused;
          result := ArgError 1 "Invalid key type. Expected number" |}
  /\ GetPlayerCustomField (H:=Demo.data true) unknown
     = {| events := catalog; final := Push unknown LNil; result := Return 1 |}
  /\ GetPlayerCustomField (H:=Demo.data true) level
     = {| events := catalog; final := level; result := GoPanic nil_dereference |}.
Proof.
  intros catalog refused unknown level.
  pose (columns := [ {| ColumnName := "id" |}; {| ColumnName := "name" |};
                     {| ColumnName := "level" |}; {| ColumnName := "balance" |} ]).
  split; [|split; [|split]].
  - apply (proj1 (bindings_panic_without_handle (H:=Demo.data true) (H0:=Demo2.server)
                    (Demo.call_with [LNil])) (fun t u Ht => ltac:(discriminate Ht))
             "GetPlayerName" GetPlayerName).
    apply list_elem_of_further, list_elem_of_further, list_elem_of_further,
      list_elem_of_here.
  - destruct (proj2 (bindings_panic_without_handle (H:=Demo.data true)
                       (H0:=Demo2.server) refused) eq_refl) as (_ & Hkey & _).
    apply Hkey. discriminate.
  - destruct (proj2 (bindings_panic_without_handle (H:=Demo.data true)
                       (H0:=Demo2.server) unknown) eq_refl) as (_ & _ & Hfield & _).
    destruct (Hfield columns eq_refl) as [Hskip _]. apply Hskip. intros Hin.
    repeat (apply elem_of_cons in Hin as [Hin|Hin]; [discriminate Hin|]).
    by apply elem_of_nil in Hin.
  - destruct (proj2 (bindings_panic_without_handle (H:=Demo.data true)
                       (H0:=Demo2.server) level) eq_refl) as (_ & _ & Hfield & _).
    destruct (Hfield columns eq_refl) as [_ Hfound]. apply Hfound.
    apply list_elem_of_further, list_elem_of_further, list_elem_of_here.
Defined.

(** [setCustomField("level", 90)] on the handle of Kael: the catalog
    query, the [UPDATE], the player fetched again. *)
Lemma SetPlayerCustomField_on_catalog_column_demo :
  let L := Demo.call_with [Demo.kael_handle; LString "level"; LNumber 90] in
  events (SetPlayerCustomField (H:=Demo.data true) L)
  = [EvSelect column_query (column_args (H:=Demo.data true));
     EvExec (update_query "level") [ArgString "90"; ArgInt 1];
     EvGetPlayerByID 1]
  /\ result (SetPlayerCustomField (H:=Demo.data true) L) = Return 0
  /\ getPlayerObject (final (SetPlayerCustomField (H:=Demo.data true) L))
     = Env.Returns (Some Demo.kael).
Proof.
  intros L.
  destruct (SetPlayerCustomField_on_catalog_column (H:=Demo.data true) L Demo.kael
              {["__player" := LUserData (Some Demo.kael); "Name" := LString "Kael"]}
              [ {| ColumnName := "id" |}; {| ColumnName := "name" |};
                {| ColumnName := "level" |}; {| ColumnName := "balance" |} ]
              eq_refl eq_refl eq_refl) as (_ & _ & Hdone).
  - apply list_elem_of_further, list_elem_of_further, list_elem_of_here.
  - destruct (Hdone (Some Demo.kael) _ eq_refl eq_refl eq_refl) as [Hcall Hplayer].
    rewrite Hcall at 1 2. split; [reflexivity|]. split; [reflexivity|].
    apply Hplayer. reflexivity.
Defined.

(** [getCustomField("level")] on the handle of Kael. *)
Lemma GetPlayerCustomField_on_catalog_column_demo :
  returned (GetPlayerCustomField (H:=Demo.data true)
              (Demo.call_with [Demo.kael_handle; LString "level"]))
  = [LString "80"].
Proof.
  destruct (GetPlayerCustomField_on_catalog_column (H:=Demo.data true)
              (Demo.call_with [Demo.kael_handle; LString "level"]) Demo.kael
              [ {| ColumnName := "id" |}; {| ColumnName := "name" |};
                {| ColumnName := "level" |}; {| ColumnName := "balance" |} ]
              eq_refl eq_refl) as [Hvalue _].
  - apply list_elem_of_further, list_elem_of_further, list_elem_of_here.
  - exact (proj2 (Hvalue "80" eq_refl)).
Defined.

(** Kael has vocation 4 and lives in town 2: of the two vocations with
    id 4 the first of the list is returned. *)
Lemma vocation_and_town_lookup_demo :
  let L := Demo.call_with [Demo.kael_handle] in
  GetPlayerVocation (H:=Demo2.server) L
  = {| events := [];
       final := Push L (LTable {["ID" := LNumber 4; "Name" := LString "Knight"]});
       result := Return 1 |}
  /\ GetPlayerTown (H:=Demo2.server) L
     = {| events := [];
          final := Push L (LTable {["ID" := LNumber 2; "Name" := LString "Carlin"]});
          result := Return 1 |}.
Proof.
  intros L.
  destruct (vocation_and_town_lookup (H0:=Demo2.server) L Demo.kael eq_refl)
    as (_ & Hvoc & _ & Htown).
  split.
  - apply (Hvoc [ {| VocationID := 1; VocationName := "Sorcerer" |} ]
             {| VocationID := 4; VocationName := "Knight" |}
             [ {| VocationID := 4; VocationName := "Elite Knight" |} ]);
      [reflexivity| |reflexivity|reflexivity].
    repeat constructor. discriminate.
  - apply (Htown [ {| TownID := 1; TownName := "Thais" |} ]
             {| TownID := 2; TownName := "Carlin" |} []);
      [reflexivity| |reflexivity|reflexivity].
    repeat constructor. discriminate.
Defined.

(** [getStorageValue("7")] and [setStorageValue(7, "x")] on the handle of
    Kael are refused. *)
Lemma storage_bindings_check_types_demo :
  GetPlayerStorageValue (H:=Demo.data true) (Demo.call_with [Demo.kael_handle; LString "7"])
  = {| events := []; final := Demo.call_with [Demo.kael_handle; LString "7"];
       result := ArgError 1 "Invalid key type. Expected number" |}
  /\ SetPlayerStorageValue (H:=Demo.data true)
       (Demo.call_with [Demo.kael_handle; LNumber 7; LString "x"])
     = {| events := [];
          final := Demo.call_with [Demo.kael_handle; LNumber 7; LString "x"];
          result := ArgError 1 "Invalid value type. Expected number" |}.
Proof.
  split.
  - refine (proj1 (proj1 (storage_bindings_check_types (H:=Demo.data true)
                            (Demo.call_with [Demo.kael_handle; LString "7"]) Demo.kael
                            eq_refl) _)).
    discriminate.
  - refine (proj2 (storage_bindings_check_types (H:=Demo.data true)
                     (Demo.call_with [Demo.kael_handle; LNumber 7; LString "x"]) Demo.kael
                     eq_refl) eq_refl _).
    discriminate.
Defined.

(** [setBankBalance(nil)] on the handle of Kael writes 0. *)
Lemma SetPlayerBankBalance_unchecked_demo :
  events (SetPlayerBankBalance (H:=Demo.data true) (Demo.call_with [Demo.kael_handle]))
  = [EvSetBalance Demo.kael 0].
Proof.
  refine (proj1 (SetPlayerBankBalance_unchecked (H:=Demo.data true)
                   (Demo.call_with [Demo.kael_handle]) Demo.kael eq_refl _ _));
    discriminate.
Defined.

End MoreBridgeDemo.
